(** * dedsecAI: the log parser, the feature builder and the anomaly
    threshold of [pytorch_model.py]

    The development embeds the parts of the script that decide what is fed
    to the two networks: [parse_log_line] (a regular-expression search
    followed by a strict timestamp parse), [load_cbs_log] (the scan loop
    with its two dictionaries), the column stacking and standardisation of
    the feature matrix, the 90/10 split and the percentile threshold that
    turns reconstruction errors into labels.

    Text is a list of characters with code points below 256.  Integers are
    [nat] or [Z].  The standardised matrix lives in the reals.  The
    reconstruction errors are rationals (every float is one); the
    percentile is computed in an arithmetic that is a parameter, of which
    rounding to float64 (with an unbounded exponent range) and no
    rounding at all are the two instances given. *)

From Stdlib Require Import Ascii String.
From Stdlib Require Import List Bool Arith ZArith Lia.
From Stdlib Require Import QArith Qround Qpower Qabs Reals Psatz Sorted.
From Stdlib Require Import Permutation.
Import ListNotations.

Local Open Scope nat_scope.

(** ** Python values *)

Definition str := list ascii.

(** A string literal as a list of characters. *)
Definition chars (s : string) : str := list_ascii_of_string s.

Definition str_eqb (a b : str) : bool :=
  if list_eq_dec ascii_dec a b then true else false.

(** The truth value of a string: false only when it is empty. *)
Definition truthy (s : str) : bool :=
  match s with
  | [] => false
  | _ :: _ => true
  end.

(** The exceptions the modelled code can raise. *)
Inductive exn : Type :=
| ValueError
| KeyError.

Inductive result (A : Type) : Type :=
| Ok (a : A)
| Raise (e : exn).

Arguments Ok {A} a.
Arguments Raise {A} e.

Definition bind {A B : Type} (m : result A) (k : A -> result B) : result B :=
  match m with
  | Ok a => k a
  | Raise e => Raise e
  end.

Notation "x <- m ;; k" := (bind m (fun x => k))
  (at level 61, m at next level, right associativity).

(** ** Character classes of [re] on [str] patterns *)

Module Chars.

Definition code (c : ascii) : nat := nat_of_ascii c.

Definition between (lo hi : nat) (c : ascii) : bool :=
  (lo <=? code c) && (code c <=? hi).

(** [\d]: a decimal digit. *)
Definition is_digit (c : ascii) : bool := between 48 57 c.

(** [[0-9a-fA-F]]. *)
Definition is_hex (c : ascii) : bool :=
  is_digit c || between 97 102 c || between 65 70 c.

(** [\w]: alphanumeric or underscore; above 127 the Latin-1 letters and
    numeric signs count as alphanumeric. *)
Definition is_word (c : ascii) : bool :=
  is_digit c || between 65 90 c || between 97 122 c || (code c =? 95)
  || (code c =? 170) || (code c =? 181) || (code c =? 186)
  || between 178 179 c || (code c =? 185) || between 188 190 c
  || between 192 214 c || between 216 246 c || between 248 255 c.

(** [.] without DOTALL: anything but a line feed. *)
Definition is_newline (c : ascii) : bool := code c =? 10.

Definition digit_value (c : ascii) : nat := code c - 48.

End Chars.

(** ** The regular expression of [parse_log_line]

    [(\d{4}-\d{2}-\d{2} \d{2}:\d{2}:\d{2}).*?(\bHRESULT = 0x[0-9a-fA-F]+|\bError\b|\bWarning\b)] *)

Module Re.
Import Chars.

(** One position of a fixed-width pattern. *)
Inductive atom : Type :=
| Digit
| Lit (c : ascii).

Definition atom_matches (a : atom) (c : ascii) : bool :=
  match a with
  | Digit => is_digit c
  | Lit d => if ascii_dec c d then true else false
  end.

(** Match a sequence of atoms at the head of [s]; the matched text and
    the rest. *)
Fixpoint match_atoms (p : list atom) (s : str) : option (str * str) :=
  match p with
  | [] => Some ([], s)
  | a :: p' =>
      match s with
      | [] => None
      | c :: s' =>
          if atom_matches a c then
            match match_atoms p' s' with
            | Some (m, r) => Some (c :: m, r)
            | None => None
            end
          else None
      end
  end.

Definition literal (s : string) : list atom := map Lit (chars s).

(** [\d{4}-\d{2}-\d{2} \d{2}:\d{2}:\d{2}] *)
Definition timestamp_pattern : list atom :=
  [Digit; Digit; Digit; Digit; Lit "-"; Digit; Digit; Lit "-"; Digit; Digit;
   Lit " "; Digit; Digit; Lit ":"; Digit; Digit; Lit ":"; Digit; Digit]%char.

Definition match_timestamp (s : str) : option (str * str) :=
  match_atoms timestamp_pattern s.

Definition word_opt (c : option ascii) : bool :=
  match c with
  | Some a => is_word a
  | None => false
  end.

(** [\b] between the character before the position and the one after
    it; the ends of the text count as non-word. *)
Definition word_boundary (prev next : option ascii) : bool :=
  xorb (word_opt prev) (word_opt next).

(** The longest run of characters satisfying [f] (a greedy [+] or [*]
    with nothing after it). *)
Fixpoint take_while (f : ascii -> bool) (s : str) : str :=
  match s with
  | [] => []
  | c :: s' => if f c then c :: take_while f s' else []
  end.

(** [\bHRESULT = 0x[0-9a-fA-F]+] *)
Definition match_hresult (prev : option ascii) (s : str) : option str :=
  if word_boundary prev (hd_error s) then
    match match_atoms (literal "HRESULT = 0x") s with
    | Some (m, r) =>
        match take_while is_hex r with
        | [] => None
        | h :: hs => Some (m ++ h :: hs)
        end
    | None => None
    end
  else None.

(** [\bw\b] for a literal word [w]. *)
Definition match_word (w : string) (prev : option ascii) (s : str)
  : option str :=
  if word_boundary prev (hd_error s) then
    match match_atoms (literal w) s with
    | Some (m, r) =>
        if word_boundary (last (map Some m) prev) (hd_error r)
        then Some m else None
    | None => None
    end
  else None.

(** The alternation of group 2, tried left to right. *)
Definition match_marker (prev : option ascii) (s : str) : option str :=
  match match_hresult prev s with
  | Some m => Some m
  | None =>
      match match_word "Error" prev s with
      | Some m => Some m
      | None => match_word "Warning" prev s
      end
  end.

(** [.*?] followed by group 2: the first position, going right, where
    the alternation matches; a line feed stops the walk.  [q] is the
    offset of [s] in the searched text. *)
Fixpoint lazy_marker (prev : option ascii) (s : str) (q : nat)
  : option (nat * str) :=
  match match_marker prev s with
  | Some m => Some (q, m)
  | None =>
      match s with
      | [] => None
      | c :: s' =>
          if is_newline c then None else lazy_marker (Some c) s' (S q)
      end
  end.

(** A match object: where each group starts and what it holds. *)
Record re_match : Type := {
  start1 : nat;
  group1 : str;
  start2 : nat;
  group2 : str
}.

(** The whole pattern anchored at the head of [s], which sits at
    offset [p]. *)
Definition match_here (s : str) (p : nat) : option re_match :=
  match match_timestamp s with
  | Some (g1, r) =>
      match lazy_marker (last (map Some g1) None) r (p + length g1) with
      | Some (q, g2) =>
          Some {| start1 := p; group1 := g1; start2 := q; group2 := g2 |}
      | None => None
      end
  | None => None
  end.

Fixpoint search_from (s : str) (p : nat) : option re_match :=
  match match_here s p with
  | Some m => Some m
  | None =>
      match s with
      | [] => None
      | _ :: s' => search_from s' (S p)
      end
  end.

(** [re.search(pattern, line)]: the leftmost start that matches. *)
Definition search (line : str) : option re_match := search_from line 0.

End Re.

(** ** [datetime] *)

Module Datetime.
Import Chars.

(** A naive [datetime]; the microsecond is always 0 here. *)
Record datetime : Type := {
  year : Z;
  month : Z;
  day : Z;
  hour : Z;
  minute : Z;
  second : Z
}.

(** [int] of a run of decimal digits. *)
Definition number (ds : str) : Z :=
  fold_left (fun acc c => (10 * acc + Z.of_nat (digit_value c))%Z) ds 0%Z.

Definition field (s : str) (start len : nat) : Z :=
  number (firstn len (skipn start s)).

Definition is_leap (y : Z) : bool :=
  ((y mod 4 =? 0) && (negb (y mod 100 =? 0) || (y mod 400 =? 0)))%Z.

Definition days_in_month (y m : Z) : Z :=
  match m with
  | 2 => if is_leap y then 29 else 28
  | 4 | 6 | 9 | 11 => 30
  | _ => 31
  end%Z.

(** What the format's own pattern lets through for two-digit fields:
    month 01-12, day 01-31, hour 00-23, minute 00-59, second 00-61. *)
Definition format_ranges (d : datetime) : bool :=
  ((1 <=? month d) && (month d <=? 12) && (1 <=? day d) && (day d <=? 31)
   && (hour d <=? 23) && (minute d <=? 59) && (second d <=? 61))%Z.

(** The checks of the [datetime] constructor. *)
Definition constructor_ranges (d : datetime) : bool :=
  ((1 <=? year d) && (year d <=? 9999)
   && (day d <=? days_in_month (year d) (month d)) && (second d <=? 59))%Z.

(** [datetime.strptime(s, "%Y-%m-%d %H:%M:%S")] on a text of the
    19-character layout the pattern's first group always has (the
    library also takes one-digit fields, which that group never holds).
    Every failure is a [ValueError]. *)
Definition strptime (s : str) : result datetime :=
  match Re.match_timestamp s with
  | Some (_, []) =>
      let d := {| year := field s 0 4; month := field s 5 2;
                  day := field s 8 2; hour := field s 11 2;
                  minute := field s 14 2; second := field s 17 2 |} in
      if format_ranges d && constructor_ranges d then Ok d
      else Raise ValueError
  | _ => Raise ValueError
  end.

(** Days from 1970-01-01 to a proleptic Gregorian date. *)
Definition days_from_civil (y m d : Z) : Z :=
  let y' := if (m <=? 2)%Z then (y - 1)%Z else y in
  let era := (y' / 400)%Z in
  let yoe := (y' - era * 400)%Z in
  let mp := if (m <=? 2)%Z then (m + 9)%Z else (m - 3)%Z in
  let doy := ((153 * mp + 2) / 5 + d - 1)%Z in
  let doe := (yoe * 365 + yoe / 4 - yoe / 100 + doy)%Z in
  (era * 146097 + doe - 719468)%Z.

(** Seconds from 1970-01-01 00:00:00 to the fields of [d] read as UTC. *)
Definition civil_seconds (d : datetime) : Z :=
  (days_from_civil (year d) (month d) (day d) * 86400
   + hour d * 3600 + minute d * 60 + second d)%Z.

(** The seconds of a time whose year lies in 1 to 9999. *)
Definition in_years (t : Z) : bool :=
  ((-62135596800 <=? t) && (t <=? 253402300799))%Z.

(** [datetime.timestamp()] of a naive [datetime] on a machine whose local
    zone stays [offset] seconds east of UTC.  The conversion goes through
    the local times of the instants [t] and [t - offset - 1 day], that is
    [t + offset] and [t - 1 day], and raises [ValueError] (here [None])
    when one of them leaves the years 1 to 9999. *)
Definition timestamp_fixed_zone (offset : Z) (d : datetime) : option Z :=
  let t := civil_seconds d in
  if in_years (t + offset) && in_years (t - 86400)
  then Some (t - offset)%Z else None.

(** [datetime.timestamp()] on a machine whose local zone is UTC. *)
Definition timestamp_utc (d : datetime) : option Z :=
  timestamp_fixed_zone 0 d.

(** A zone with summer time, the days of the change apart: at UTC from
    November to March, one hour east of it from April to October. *)
Definition timestamp_summer_time (d : datetime) : option Z :=
  timestamp_fixed_zone
    (if (4 <=? month d)%Z && (month d <=? 10)%Z then 3600 else 0) d.

End Datetime.

Export Datetime.

(** ** [parse_log_line] *)

Definition parse_log_line (line : str) : result (option (datetime * str)) :=
  match Re.search line with
  | Some m =>
      timestamp <- strptime (Re.group1 m) ;;
      Ok (Some (timestamp, Re.group2 m))
  | None => Ok None
  end.

(** ** Python dictionaries: insertion-ordered, one entry per key *)

Module Dict.
Section Dict.
Context {K V : Type} (eqb : K -> K -> bool).

Definition t : Type := list (K * V).

Fixpoint get (d : t) (k : K) : option V :=
  match d with
  | [] => None
  | (k', v) :: d' => if eqb k k' then Some v else get d' k
  end.

(** [k in d] *)
Definition mem (d : t) (k : K) : bool :=
  match get d k with
  | Some _ => true
  | None => false
  end.

(** [d.get(k, default)] *)
Definition get_default (d : t) (k : K) (default : V) : V :=
  match get d k with
  | Some v => v
  | None => default
  end.

(** [d[k]] *)
Definition item (d : t) (k : K) : result V :=
  match get d k with
  | Some v => Ok v
  | None => Raise KeyError
  end.

(** [d[k] = v]: overwrite in place, or append a new entry. *)
Fixpoint set (d : t) (k : K) (v : V) : t :=
  match d with
  | [] => [(k, v)]
  | (k', v') :: d' =>
      if eqb k k' then (k', v) :: d' else (k', v') :: set d' k v
  end.

Definition keys (d : t) : list K := map fst d.
Definition values (d : t) : list V := map snd d.

End Dict.
End Dict.

(** ** [load_cbs_log] *)

(** The locals of [load_cbs_log] that the loop updates. *)
Record scan_state : Type := {
  timestamps : list Z;
  error_codes : list nat;
  error_map : Dict.t (K := str) (V := nat);
  frequencies : Dict.t (K := nat) (V := nat)
}.

Definition initial_state : scan_state :=
  {| timestamps := []; error_codes := []; error_map := []; frequencies := [] |}.

(** The default of [max_lines]. *)
Definition default_max_lines : N := 5000000000000000000000000%N.

(** [mapM] for [result]: a list comprehension whose body can raise. *)
Fixpoint map_result {A B : Type} (f : A -> result B) (l : list A)
  : result (list B) :=
  match l with
  | [] => Ok []
  | a :: l' => b <- f a ;; bs <- map_result f l' ;; Ok (b :: bs)
  end.

Section Loader.

(** [datetime.timestamp()]: seconds since the epoch of a naive local
    time, which depends on the zone of the machine; [None] where the
    conversion raises [ValueError] (times next to the ends of the years 1
    to 9999).  The value is a whole number of seconds, so its float is
    exact. *)
Variable posix : datetime -> option Z.

(** The body of the [for] loop after the [max_lines] test.  In
    [if timestamp and error_code] a [datetime] always counts as true, so
    the test is on the pair being present and the code being non-empty. *)
Definition scan_step (st : scan_state) (line : str) : result scan_state :=
  parsed <- parse_log_line line ;;
  match parsed with
  | Some (timestamp, error_code) =>
      if truthy error_code then
        match posix timestamp with
        | None => Raise ValueError
        | Some seconds =>
            let error_map' :=
              if Dict.mem str_eqb (error_map st) error_code then error_map st
              else Dict.set str_eqb (error_map st) error_code
                     (length (error_map st) + 1) in
            error_id <- Dict.item str_eqb error_map' error_code ;;
            Ok {| timestamps := timestamps st ++ [seconds];
                  error_codes := error_codes st ++ [error_id];
                  error_map := error_map';
                  frequencies :=
                    Dict.set Nat.eqb (frequencies st) error_id
                      (Dict.get_default Nat.eqb (frequencies st) error_id 0
                       + 1) |}
        end
      else Ok st
  | None => Ok st
  end.

(** [for i, line in enumerate(f): if i >= max_lines: break; ...] *)
Fixpoint scan (max_lines i : N) (lines : list str) (st : scan_state)
  : result scan_state :=
  match lines with
  | [] => Ok st
  | line :: rest =>
      if (max_lines <=? i)%N then Ok st
      else st' <- scan_step st line ;; scan max_lines (N.succ i) rest st'
  end.

(** The state when the loop is left. *)
Definition scan_file (max_lines : N) (lines : list str) : result scan_state :=
  scan max_lines 0%N lines initial_state.

(** [load_cbs_log(file_path, max_lines)], the file given as the lines
    its iteration yields. *)
Definition load_cbs_log (lines : list str) (max_lines : N)
  : result (list Z * list nat * list nat) :=
  st <- scan_file max_lines lines ;;
  log_frequencies <-
    map_result (Dict.item Nat.eqb (frequencies st)) (error_codes st) ;;
  Ok (timestamps st, error_codes st, log_frequencies).

End Loader.

(** ** The feature matrix *)

(** A row of the matrix: timestamp, error-code ID, frequency. *)
Definition row (A : Type) : Type := (A * A * A)%type.

Definition col0 {A : Type} (X : list (row A)) : list A :=
  map (fun r => fst (fst r)) X.
Definition col1 {A : Type} (X : list (row A)) : list A :=
  map (fun r => snd (fst r)) X.
Definition col2 {A : Type} (X : list (row A)) : list A := map snd X.

(** Rows from three columns of one length. *)
Fixpoint zip3 {A : Type} (a b c : list A) : list (row A) :=
  match a, b, c with
  | x :: a', y :: b', z :: c' => (x, y, z) :: zip3 a' b' c'
  | _, _, _ => []
  end.

(** [np.column_stack((timestamps, error_codes, log_frequencies))]: the
    three sequences must have one length. *)
Definition column_stack (ts : list Z) (ids fr : list nat)
  : result (list (row Z)) :=
  if (length ts =? length ids) && (length ids =? length fr)
  then Ok (zip3 ts (map Z.of_nat ids) (map Z.of_nat fr))
  else Raise ValueError.

(** ** [StandardScaler], in real arithmetic *)

Module Scaler.
Local Open Scope R_scope.

Definition sum (xs : list R) : R := fold_right Rplus 0 xs.

Definition mean (xs : list R) : R := sum xs / INR (length xs).

(** The population variance ([ddof = 0]). *)
Definition variance (xs : list R) : R :=
  mean (map (fun x => (x - mean xs) * (x - mean xs)) xs).

(** The machine epsilon of float64, 2^-52. *)
Definition eps : R := / 4503599627370496.

(** The bound under which the scaler takes a column for a constant one:
    [n * eps * var + (n * mean * eps) ** 2]. *)
Definition constant_bound (xs : list R) : R :=
  INR (length xs) * eps * variance xs
  + (INR (length xs) * mean xs * eps) * (INR (length xs) * mean xs * eps).

(** The fitted scale of a column: its standard deviation, and 1 for a
    column whose variance does not exceed the bound. *)
Definition scale_of (xs : list R) : R :=
  if Rle_dec (variance xs) (constant_bound xs) then 1
  else sqrt (variance xs).

Definition standardize (xs : list R) : list R :=
  map (fun x => (x - mean xs) / scale_of xs) xs.

(** [StandardScaler().fit_transform(X)]: fitted column by column on
    all the rows of [X]; a matrix without rows is refused. *)
Definition fit_transform (X : list (row Z)) : result (list (row R)) :=
  match X with
  | [] => Raise ValueError
  | _ =>
      Ok (zip3 (standardize (map IZR (col0 X)))
               (standardize (map IZR (col1 X)))
               (standardize (map IZR (col2 X))))
  end.

End Scaler.

(** ** [train_test_split(X, test_size=0.1, random_state=42)] *)

(** [ceil(0.1 * n)], the tenth taken exactly. *)
Definition n_test_of (n : nat) : nat := (n + 9) / 10.

(** [X[indices]] *)
Definition take_rows {A : Type} (X : list A) (indices : list nat) : list A :=
  flat_map (fun i => match nth_error X i with
                     | Some r => [r]
                     | None => []
                     end) indices.

(** [permutation] is the shuffle of [range(len(X))] the seeded generator
    draws; the test rows are its first [n_test] entries and the training
    rows the rest.  The pair is (train, test). *)
Definition train_test_split {A : Type} (permutation : list nat) (X : list A)
  : result (list A * list A) :=
  let n_test := n_test_of (length X) in
  if length X - n_test =? 0 then Raise ValueError
  else Ok (take_rows X (skipn n_test permutation),
           take_rows X (firstn n_test permutation)).

(** ** The head of the module-level pipeline (lines 87 to 93) *)

Inductive stage : Type :=
| FeatureBuilding
| Standardization
| Splitting.

Section Pipeline.

Variable posix : datetime -> option Z.
(** [rng.permutation(n)] for the seed 42. *)
Variable shuffle : nat -> list nat.

(** [load_cbs_log(log_file)] followed by the column stacking. *)
Definition build_features (lines : list str) : result (list (row Z)) :=
  out <- load_cbs_log posix lines default_max_lines ;;
  let '(ts, ids, fr) := out in
  column_stack ts ids fr.

(** The stages entered, in order, and what the last of them gave. *)
Definition run_pipeline (lines : list str)
  : list stage * result (list (row R) * list (row R)) :=
  match build_features lines with
  | Raise e => ([FeatureBuilding], Raise e)
  | Ok X0 =>
      match Scaler.fit_transform X0 with
      | Raise e => ([FeatureBuilding; Standardization], Raise e)
      | Ok X =>
          ([FeatureBuilding; Standardization; Splitting],
           train_test_split (shuffle (length X)) X)
      end
  end.

End Pipeline.

(** ** Rounding to float64 *)

Module Float64.
Local Open Scope Q_scope.

(** The binary exponent of a positive rational: the floor of its
    logarithm in base 2. *)
Definition exponent (x : Q) : Z :=
  let e := (Z.log2 (Qnum x) - Z.log2 (Zpos (Qden x)))%Z in
  if Qle_bool (2 ^ e) x then e else (e - 1)%Z.

(** The nearest integer, a tie going to the even one. *)
Definition nearest_even (x : Q) : Z :=
  let f := Qfloor x in
  match Qcompare (x - inject_Z f) (1 # 2) with
  | Lt => f
  | Gt => (f + 1)%Z
  | Eq => if Z.even f then f else (f + 1)%Z
  end.

(** The nearest number with a significand of 53 bits to a positive
    rational. *)
Definition round_positive (x : Q) : Q :=
  let e := exponent x in
  inject_Z (nearest_even (x * 2 ^ (52 - e))) * 2 ^ (e - 52).

(** Rounding to the nearest float64, ties to even, the range of the
    exponent taken as unbounded. *)
Definition round (x : Q) : Q :=
  match Qnum x with
  | Z0 => 0
  | Zpos _ => round_positive x
  | Zneg _ => - round_positive (- x)
  end.

(** Half a unit in the last place, relative to the number: 2^-53. *)
Definition unit_roundoff : Q := 1 # 9007199254740992.

End Float64.

(** ** The anomaly threshold and the labels *)

Module Scorer.
Local Open Scope Q_scope.

Fixpoint insert (x : Q) (l : list Q) : list Q :=
  match l with
  | [] => [x]
  | y :: l' => if Qle_bool x y then x :: l else y :: insert x l'
  end.

(** The order statistics of a sample. *)
Definition sort (l : list Q) : list Q := fold_right insert [] l.

(** The two computations of [np.percentile] that round in float64: the
    virtual index [(n - 1) * (q / 100)] of a sample of [n] values, and the
    interpolation [a + (b - a) * g] between two order statistics. *)
Record arithmetic : Type := {
  virtual_index : nat -> Q -> Q;
  interpolate : Q -> Q -> Q -> Q
}.

(** The two computations without rounding. *)
Definition exact : arithmetic :=
  {| virtual_index := fun n q => inject_Z (Z.of_nat (n - 1)) * (q / 100);
     interpolate := fun a b g => a + (b - a) * g |}.

(** The two computations as [np.percentile] does them on float64: the
    virtual index is the rounded product of [n - 1] (a float64 for every
    sample that fits in memory) and the rounded quotient [q / 100]; the
    interpolation (numpy's [_lerp]) is
    [a + (b - a) * g] with every operation rounded, and
    [b - (b - a) * (1 - g)], rounded likewise, where [g >= 0.5]. *)
Definition float64 : arithmetic :=
  {| virtual_index := fun n q =>
       Float64.round (inject_Z (Z.of_nat (n - 1)) * Float64.round (q / 100));
     interpolate := fun a b g =>
       let d := Float64.round (b - a) in
       if Qle_bool (1 # 2) g
       then Float64.round (b - Float64.round (d * Float64.round (1 - g)))
       else Float64.round (a + Float64.round (d * g)) |}.

(** [np.percentile(a, q)] with the default linear interpolation: the
    virtual index, its floor and the next index, and the interpolation
    between the two order statistics by the fractional part (which is a
    float64 when the index is one, so that no rounding is lost in taking
    it).  Nothing is returned for an empty sample. *)
Definition percentile (ar : arithmetic) (a : list Q) (q : Q) : option Q :=
  match a with
  | [] => None
  | _ =>
      let s := sort a in
      let n := length a in
      let h := virtual_index ar n q in
      let lo := Z.to_nat (Qfloor h) in
      let hi := Nat.min (lo + 1) (n - 1) in
      let g := h - inject_Z (Qfloor h) in
      Some (interpolate ar (nth lo s 0) (nth hi s 0) g)
  end.

(** [(errors > threshold).astype(int)] *)
Definition label (threshold e : Q) : nat :=
  if Qle_bool e threshold then 0%nat else 1%nat.

Definition labels (threshold : Q) (errors : list Q) : list nat :=
  map (label threshold) errors.

(** The relative error granted to a rounded computation: 2^-50, eight
    times the relative error of one rounding to float64. *)
Definition tolerance : Q := 1 # 1125899906842624.

(** What the properties of the threshold need of the arithmetic, on the
    values of a sample [l] of [n] errors: the virtual index of the 95th
    percentile is [(n - 1) * 0.95] up to the relative error and is not
    beyond the last index; the interpolation between two values of the
    sample lies between them and is [a + (b - a) * g] up to the relative
    error. *)
Record well_rounded (ar : arithmetic) (l : list Q) : Prop := {
  index_close :
    Qabs (virtual_index ar (length l) 95
          - inject_Z (Z.of_nat (length l - 1)) * (95 / 100))
    <= tolerance * (inject_Z (Z.of_nat (length l - 1)) * (95 / 100));
  index_in_range :
    virtual_index ar (length l) 95 <= inject_Z (Z.of_nat (length l - 1));
  interpolate_between :
    forall a b g, In a l -> In b l -> a <= b -> 0 <= g -> g < 1 ->
      a <= interpolate ar a b g /\ interpolate ar a b g <= b;
  interpolate_close :
    forall a b g, In a l -> In b l -> a <= b -> 0 <= g -> g < 1 ->
      Qabs (interpolate ar a b g - (a + (b - a) * g))
      <= tolerance * (Qabs a + Qabs b)
}.

(** [threshold], [y_train] and [y_test] of lines 142 to 144. *)
Definition score (ar : arithmetic) (train_errors test_errors : list Q)
  : option (Q * list nat * list nat) :=
  match percentile ar train_errors 95 with
  | Some threshold =>
      Some (threshold, labels threshold train_errors,
            labels threshold test_errors)
  | None => None
  end.

End Scorer.

(** ** Vocabulary of the properties *)

(** The character before offset [k] of a text. *)
Definition prev_char (line : str) (k : nat) : option ascii :=
  match k with
  | 0 => None
  | S j => nth_error line j
  end.

(** The text of the timestamp layout that starts at offset [p]. *)
Definition timestamp_at (line : str) (p : nat) : option str :=
  option_map fst (Re.match_timestamp (skipn p line)).

(** The marker (one of the three alternatives) that starts at offset [q]. *)
Definition marker_at (line : str) (q : nat) : option str :=
  Re.match_marker (prev_char line q) (skipn q line).

(** The character before offset [k] of [s], where [prev] precedes [s]. *)
Definition prev_from (prev : option ascii) (s : str) (k : nat) : option ascii :=
  match k with
  | 0 => prev
  | S j => nth_error s j
  end.

Definition not_newline (c : ascii) : bool := negb (Chars.is_newline c).

(** No line feed at the offsets [p], ..., [q - 1]. *)
Definition no_newline (line : str) (p q : nat) : bool :=
  forallb not_newline (firstn (q - p) (skipn p line)).

(** A timestamp layout at [p] followed, later on the line, by a marker
    at [q]. *)
Definition event_shape (line : str) (p q : nat) : Prop :=
  timestamp_at line p <> None /\ p + 19 <= q /\
  marker_at line q <> None /\ no_newline line (p + 19) q = true.

(** The lines the loop body is run on: those before the cap. *)
Fixpoint scanned (max_lines i : N) (lines : list str) : list str :=
  match lines with
  | [] => []
  | line :: rest =>
      if (max_lines <=? i)%N then []
      else line :: scanned max_lines (N.succ i) rest
  end.

(** The events of a list of lines, in line order. *)
Definition events (ls : list str) : list (datetime * str) :=
  flat_map (fun line => match parse_log_line line with
                        | Ok (Some ev) => [ev]
                        | _ => []
                        end) ls.

(** A line on which the parser raises. *)
Definition raises (line : str) : bool :=
  match parse_log_line line with
  | Raise _ => true
  | Ok _ => false
  end.

(** The loop body run on each line of [ls] in turn, with no cap. *)
Definition steps (posix : datetime -> option Z) (ls : list str)
  (st : scan_state)
  : result scan_state :=
  fold_left (fun acc line => s <- acc ;; scan_step posix s line) ls (Ok st).

(** The distinct codes of a sequence, in the order of their first
    occurrence. *)
Definition first_occurrences (codes : list str) : list str :=
  fold_left (fun seen c => if existsb (str_eqb c) seen then seen
                           else seen ++ [c]) codes [].

(** The offset of the first occurrence of [c] in [l]. *)
Fixpoint position (c : str) (l : list str) : nat :=
  match l with
  | [] => 0
  | d :: l' => if str_eqb c d then 0 else S (position c l')
  end.

Definition total (l : list nat) : nat := fold_right Nat.add 0 l.

(** What the loop keeps true, [evs] being the events parsed so far. *)
Record scan_invariant (posix : datetime -> option Z)
  (evs : list (datetime * str)) (st : scan_state) : Prop := {
  inv_keys :
    Dict.keys (error_map st) = first_occurrences (map snd evs);
  inv_ids :
    Dict.values (error_map st)
    = seq 1 (length (first_occurrences (map snd evs)));
  inv_rows :
    map (Dict.get str_eqb (error_map st)) (map snd evs)
    = map Some (error_codes st);
  inv_times :
    map Some (timestamps st) = map (fun ev => posix (fst ev)) evs;
  inv_freq :
    forall id,
      Dict.get Nat.eqb (frequencies st) id
      = if count_occ Nat.eq_dec (error_codes st) id =? 0 then None
        else Some (count_occ Nat.eq_dec (error_codes st) id);
  inv_total :
    total (Dict.values (frequencies st)) = length (error_codes st)
}.

(** How many entries of [errors] exceed [threshold]. *)
Definition count_above (threshold : Q) (errors : list Q) : nat :=
  length (filter (fun e => negb (Qle_bool e threshold)) errors).

(** A line on which the loop body raises: the parser raises, or the
    timestamp of the event does not convert. *)
Definition fails (posix : datetime -> option Z) (line : str) : bool :=
  match parse_log_line line with
  | Raise _ => true
  | Ok (Some (timestamp, error_code)) =>
      if truthy error_code then
        match posix timestamp with
        | Some _ => false
        | None => true
        end
      else false
  | Ok None => false
  end.

(** The seconds of the events whose timestamps convert. *)
Definition stamps (posix : datetime -> option Z)
  (evs : list (datetime * str)) : list Z :=
  flat_map (fun ev => match posix (fst ev) with
                      | Some t => [t]
                      | None => []
                      end) evs.

(** ** Sample inputs *)

Module Samples.

(** A month 13 ahead of a well-formed timestamp and a marker. *)
Definition two_timestamps : str :=
  chars "2024-13-01 00:00:00 2024-01-01 00:00:00 Error".

(** Three markers after one timestamp. *)
Definition three_markers : str :=
  chars "2024-01-01 10:00:00 x Warning Error HRESULT = 0x1f".

Definition hresult_line : str :=
  chars "2024-03-05 08:15:30, Info CBS Failed [HRESULT = 0x800f0816]".

Definition plain_line : str := chars "Error".

Definition bad_hour : str := chars "2024-01-01 25:00:00, Error CBS".

(** A month 13 ahead of a well-formed timestamp and two markers. *)
Definition two_markers_after_two_timestamps : str :=
  chars "2024-13-01 00:00:00 2024-01-01 00:00:00 Warning Error".

(** An event in the first day of the year 1. *)
Definition first_day : str := chars "0001-01-01 00:00:00 Error".

(** An event in the last second of the year 9999. *)
Definition last_second : str := chars "9999-12-31 23:59:59 Error".

Definition info_line : str := chars "2024-01-01 10:00:00, Info CBS Loaded".

(** Five lines, four events, three distinct codes. *)
Definition small_log : list str :=
  map chars ["2024-01-01 10:00:00, Error CBS Failed";
             "2024-01-01 10:00:01, Info CBS Loaded";
             "2024-01-01 10:00:02, Info CBS Warning raised";
             "2024-01-01 10:00:03, Error CBS [HRESULT = 0x800f0816]";
             "2024-01-01 10:00:04, Info [HRESULT = 0x800f0816]"]%string.

(** Two events with distinct codes. *)
Definition two_events : list str :=
  map chars ["2024-01-01 10:00:00, Error";
             "2024-01-01 10:00:02, Warning"]%string.

End Samples.

(** ** The rest of the script *)

(** The ID column of a list of events: one plus the rank of the event's
    code among the distinct codes. *)
Definition row_ids (evs : list (datetime * str)) : list nat :=
  map (fun c => 1 + position c (first_occurrences (map snd evs)))
    (map snd evs).

(** The frequency column that goes with an ID column. *)
Definition row_frequencies (ids : list nat) : list nat :=
  map (count_occ Nat.eq_dec ids) ids.

Definition str_dec : forall a b : str, {a = b} + {a <> b} :=
  list_eq_dec ascii_dec.

(** The three sequences the loader returns, from the events of the
    scanned lines. *)
Definition columns_of (posix : datetime -> option Z)
  (evs : list (datetime * str)) : list Z * list nat * list nat :=
  (stamps posix evs, row_ids evs, row_frequencies (row_ids evs)).

(** A line that the loop passes over: the parser returns (None, None). *)
Definition passed_over (line : str) : bool :=
  match parse_log_line line with
  | Ok None => true
  | _ => false
  end.

(** How many entries of [errors] are below [bound]. *)
Definition count_below (bound : Q) (errors : list Q) : nat :=
  length (filter (fun e => negb (Qle_bool bound e)) errors).

(** [np.mean((x - y) ** 2)] over the three entries of a row and of its
    reconstruction, in exact arithmetic. *)
Definition reconstruction_error (x y : row Q) : Q :=
  let '(x0, x1, x2) := x in
  let '(y0, y1, y2) := y in
  ((x0 - y0) * (x0 - y0) + (x1 - y1) * (x1 - y1) + (x2 - y2) * (x2 - y2)) / 3.

(** [np.mean((X - X_reconstructed) ** 2, axis=1)] for two matrices of one
    shape. *)
Definition reconstruction_errors (X Y : list (row Q)) : list Q :=
  map (fun xy => reconstruction_error (fst xy) (snd xy)) (combine X Y).

(** ** [optim.lr_scheduler.StepLR] *)

(** The optimizer's learning rate and the scheduler's epoch counter. *)
Record scheduler : Type := {
  lr : Q;
  last_epoch : nat
}.

(** [lr_scheduler.step()]: the counter goes up by one, and the rate is
    multiplied by [gamma] when the new count is a multiple of
    [step_size]. *)
Definition scheduler_step (step_size : nat) (gamma : Q) (s : scheduler)
  : scheduler :=
  let epoch := S (last_epoch s) in
  {| lr := if epoch mod step_size =? 0 then (lr s * gamma)%Q else lr s;
     last_epoch := epoch |}.

(** The rate in force during pass [epoch] (counted from 0) of a loop that
    calls [step] at the end of every pass. *)
Definition lr_during (step_size : nat) (gamma base : Q) (epoch : nat) : Q :=
  lr (Nat.iter epoch (scheduler_step step_size gamma)
        {| lr := base; last_epoch := 0 |}).

(** The classifier's schedule: [lr=0.001], [step_size=5], [gamma=0.5]. *)
Definition classifier_lr (epoch : nat) : Q :=
  lr_during 5 (1 # 2) (1 # 1000) epoch.

(** * Properties *)

(** ** The regular expression search *)

Section SearchFacts.
Import Re.

Lemma bind_ok {A B : Type} (m : result A) (k : A -> result B) (b : B) :
  bind m k = Ok b -> exists a, m = Ok a /\ k a = Ok b.
Proof.
  destruct m as [a|e]; simpl; [eauto | discriminate].
Qed.

Lemma match_atoms_split (p : list atom) :
  forall s m r, match_atoms p s = Some (m, r) ->
                s = m ++ r /\ length m = length p.
Proof.
  induction p as [|a p IH]; intros s m r H; simpl in H.
  - inversion H; subst; auto.
  - destruct s as [|c s]; [discriminate|].
    destruct (atom_matches a c); [|discriminate].
    destruct (match_atoms p s) as [[m' r']|] eqn:E; [|discriminate].
    inversion H; subst. destruct (IH _ _ _ E) as [-> Hl].
    simpl; auto.
Qed.

Lemma match_timestamp_split (s g r : str) :
  match_timestamp s = Some (g, r) -> s = g ++ r /\ length g = 19.
Proof. apply match_atoms_split. Qed.

Lemma last_some_nth (g r : str) (d : option ascii) (n : nat) :
  length g = S n -> last (map Some g) d = nth_error (g ++ r) n.
Proof.
  revert n; induction g as [|c g IH]; intros n Hl; [discriminate|].
  destruct g as [|c' g].
  - simpl in Hl. inversion Hl; subst. reflexivity.
  - destruct n as [|n]; [discriminate|].
    change (last (map Some (c :: c' :: g)) d)
      with (last (map Some (c' :: g)) d).
    rewrite (IH n) by (simpl in *; lia). reflexivity.
Qed.

Lemma match_marker_nil (prev : option ascii) : match_marker prev [] = None.
Proof.
  unfold match_marker, match_hresult, match_word.
  destruct (word_boundary prev (hd_error [])); reflexivity.
Qed.

Lemma lazy_marker_some (s : str) :
  forall prev q q' m,
    lazy_marker prev s q = Some (q', m) ->
    exists k, q' = q + k /\
              match_marker (prev_from prev s k) (skipn k s) = Some m /\
              (forall j, j < k ->
                 match_marker (prev_from prev s j) (skipn j s) = None) /\
              forallb not_newline (firstn k s) = true.
Proof.
  induction s as [|c s IH]; intros prev q q' m H; simpl in H.
  - destruct (match_marker prev []) eqn:E; [|discriminate].
    inversion H; subst. exists 0. rewrite Nat.add_0_r.
    repeat split; auto. intros j Hj; lia.
  - destruct (match_marker prev (c :: s)) eqn:E.
    + inversion H; subst. exists 0. rewrite Nat.add_0_r.
      repeat split; auto. intros j Hj; lia.
    + destruct (Chars.is_newline c) eqn:Enl; [discriminate|].
      destruct (IH _ _ _ _ H) as (k & -> & Hm & Hbefore & Hnl).
      exists (S k). repeat split.
      * lia.
      * destruct k; exact Hm.
      * intros [|j] Hj; [exact E|].
        specialize (Hbefore j ltac:(lia)). destruct j; exact Hbefore.
      * simpl. unfold not_newline at 1. rewrite Enl. exact Hnl.
Qed.

Lemma lazy_marker_none (s : str) :
  forall prev q,
    lazy_marker prev s q = None ->
    forall k, forallb not_newline (firstn k s) = true ->
              match_marker (prev_from prev s k) (skipn k s) = None.
Proof.
  induction s as [|c s IH]; intros prev q H k Hk; simpl in H.
  - destruct (match_marker prev []) eqn:E; [discriminate|].
    rewrite skipn_nil. apply match_marker_nil.
  - destruct (match_marker prev (c :: s)) eqn:E; [discriminate|].
    destruct k as [|k]; [exact E|].
    simpl in Hk. apply andb_true_iff in Hk as [Hc Hk].
    unfold not_newline in Hc. apply negb_true_iff in Hc.
    rewrite Hc in H.
    specialize (IH _ _ H k Hk). destruct k; exact IH.
Qed.

Lemma skipn_cons_tail {A : Type} (l : list A) :
  forall p c s, skipn p l = c :: s -> skipn (S p) l = s.
Proof.
  induction l as [|a l IH]; intros p c s H.
  - rewrite skipn_nil in H. discriminate.
  - destruct p; simpl in *.
    + inversion H; reflexivity.
    + destruct l; [rewrite skipn_nil in H; discriminate|].
      exact (IH _ _ _ H).
Qed.

Lemma prev_from_line (line : str) (p k : nat) :
  prev_from (prev_char line p) (skipn p line) k = prev_char line (p + k).
Proof.
  destruct k; simpl.
  - rewrite Nat.add_0_r. reflexivity.
  - rewrite nth_error_skipn. rewrite Nat.add_succ_r. reflexivity.
Qed.

Lemma marker_at_offset (line : str) (p k : nat) :
  match_marker (prev_from (prev_char line p) (skipn p line) k)
    (skipn k (skipn p line)) = marker_at line (p + k).
Proof.
  unfold marker_at. rewrite prev_from_line, skipn_skipn.
  rewrite (Nat.add_comm k p). reflexivity.
Qed.

Lemma no_newline_offset (line : str) (p k : nat) :
  no_newline line p (p + k) = forallb not_newline (firstn k (skipn p line)).
Proof.
  unfold no_newline. replace (p + k - p) with k by lia. reflexivity.
Qed.

(** What a match anchored at offset [p] of the line is. *)
Lemma match_here_some (line : str) (p : nat) (m : re_match) :
  match_here (skipn p line) p = Some m ->
  start1 m = p /\ timestamp_at line p = Some (group1 m) /\
  p + 19 <= start2 m /\
  marker_at line (start2 m) = Some (group2 m) /\
  no_newline line (p + 19) (start2 m) = true /\
  (forall q, p + 19 <= q < start2 m -> marker_at line q = None).
Proof.
  unfold match_here, timestamp_at. intros H.
  destruct (match_timestamp (skipn p line)) as [[g r]|] eqn:Ets;
    [|discriminate].
  destruct (match_timestamp_split _ _ _ Ets) as [Hs Hl].
  assert (Hr : r = skipn (p + 19) line).
  { rewrite (Nat.add_comm p 19), <- skipn_skipn, Hs.
    rewrite <- Hl, skipn_app, skipn_all, Nat.sub_diag. reflexivity. }
  assert (Hprev : last (map Some g) None = prev_char line (p + 19)).
  { rewrite (last_some_nth g r None 18 Hl), <- Hs.
    rewrite nth_error_skipn. replace (p + 19) with (S (p + 18)) by lia.
    reflexivity. }
  rewrite Hl, Hprev, Hr in H.
  destruct (lazy_marker _ _ _) as [[q g2]|] eqn:El; [|discriminate].
  inversion H; subst m; simpl. clear H.
  destruct (lazy_marker_some _ _ _ _ _ El) as (k & -> & Hm & Hbefore & Hnl).
  rewrite marker_at_offset in Hm. rewrite no_newline_offset.
  repeat split; auto; try lia.
  intros q' Hq'. replace q' with (p + 19 + (q' - (p + 19))) by lia.
  rewrite <- marker_at_offset. apply Hbefore. lia.
Qed.

Lemma match_here_none (line : str) (p : nat) :
  match_here (skipn p line) p = None ->
  forall q, ~ event_shape line p q.
Proof.
  unfold match_here, event_shape, timestamp_at. intros H q (Hts & Hq & Hm & Hnl).
  destruct (match_timestamp (skipn p line)) as [[g r]|] eqn:Ets;
    [|apply Hts; reflexivity].
  destruct (match_timestamp_split _ _ _ Ets) as [Hs Hl].
  assert (Hr : r = skipn (p + 19) line).
  { rewrite (Nat.add_comm p 19), <- skipn_skipn, Hs.
    rewrite <- Hl, skipn_app, skipn_all, Nat.sub_diag. reflexivity. }
  assert (Hprev : last (map Some g) None = prev_char line (p + 19)).
  { rewrite (last_some_nth g r None 18 Hl), <- Hs.
    rewrite nth_error_skipn. replace (p + 19) with (S (p + 18)) by lia.
    reflexivity. }
  rewrite Hl, Hprev, Hr in H.
  destruct (lazy_marker _ _ _) as [[q' g2]|] eqn:El; [discriminate|].
  apply Hm. replace q with (p + 19 + (q - (p + 19))) by lia.
  rewrite <- marker_at_offset.
  apply (lazy_marker_none _ _ _ El).
  rewrite <- no_newline_offset.
  replace (p + 19 + (q - (p + 19))) with q by lia. exact Hnl.
Qed.

Lemma search_from_some (line : str) (s : str) :
  forall p m,
    s = skipn p line ->
    search_from s p = Some m ->
    exists i, p <= i /\ match_here (skipn i line) i = Some m /\
              forall j, p <= j < i -> match_here (skipn j line) j = None.
Proof.
  induction s as [|c s IH]; intros p m Hs H; simpl in H.
  - discriminate.
  - destruct (match_here (c :: s) p) eqn:E.
    + inversion H; subst m. exists p. rewrite <- Hs.
      split; [lia|]. split; [exact E|]. intros j Hj; lia.
    + symmetry in Hs. pose proof (skipn_cons_tail _ _ _ _ Hs) as Hs'.
      destruct (IH (S p) m (eq_sym Hs') H) as (i & Hi & Hm & Hbefore).
      exists i. repeat split; auto; try lia.
      intros j Hj. destruct (Nat.eq_dec j p) as [->|Hne].
      * rewrite Hs. exact E.
      * apply Hbefore. lia.
Qed.

Lemma search_from_none (line : str) (s : str) :
  forall p,
    s = skipn p line ->
    search_from s p = None ->
    forall i, p <= i -> match_here (skipn i line) i = None.
Proof.
  induction s as [|c s IH]; intros p Hs H i Hi; simpl in H.
  - assert (Hnil : skipn i line = []).
    { apply skipn_all2.
      assert (Hlen : length (skipn p line) = 0) by (rewrite <- Hs; reflexivity).
      rewrite length_skipn in Hlen. lia. }
    rewrite Hnil. reflexivity.
  - destruct (match_here (c :: s) p) eqn:E; [discriminate|].
    destruct (Nat.eq_dec i p) as [->|Hne].
    + rewrite <- Hs. exact E.
    + symmetry in Hs. pose proof (skipn_cons_tail _ _ _ _ Hs) as Hs'.
      apply (IH (S p) (eq_sym Hs') H). lia.
Qed.

(** A successful search: the leftmost timestamp layout that a marker
    follows on the line, and the first marker after it. *)
Lemma search_some (line : str) (m : re_match) :
  search line = Some m ->
  timestamp_at line (start1 m) = Some (group1 m) /\
  start1 m + 19 <= start2 m /\
  marker_at line (start2 m) = Some (group2 m) /\
  no_newline line (start1 m + 19) (start2 m) = true /\
  (forall q, start1 m + 19 <= q < start2 m -> marker_at line q = None) /\
  (forall p q, p < start1 m -> ~ event_shape line p q).
Proof.
  unfold search. intros H.
  destruct (search_from_some line line 0 m eq_refl H) as (i & _ & Hm & Hb).
  destruct (match_here_some _ _ _ Hm) as (H1 & Hts & Hle & Hmk & Hnl & Hq).
  rewrite H1. repeat split; auto.
  intros p q Hp. apply match_here_none. apply Hb. lia.
Qed.

Lemma search_none (line : str) :
  search line = None -> forall p q, ~ event_shape line p q.
Proof.
  unfold search. intros H p q.
  apply match_here_none.
  apply (search_from_none line line 0 eq_refl H). lia.
Qed.

Lemma search_finds (line : str) (p q : nat) :
  event_shape line p q -> exists m, search line = Some m.
Proof.
  intros H. destruct (search line) as [m|] eqn:E; [eauto|].
  exfalso. exact (search_none _ E _ _ H).
Qed.

End SearchFacts.

(** ** The text of a marker *)

Section MarkerText.
Import Re.

Lemma match_literal_text (w : str) :
  forall s m r, match_atoms (map Lit w) s = Some (m, r) -> m = w.
Proof.
  induction w as [|c w IH]; intros s m r H; simpl in H.
  - inversion H; reflexivity.
  - destruct s as [|d s]; [discriminate|].
    destruct (ascii_dec d c) as [->|]; [|discriminate].
    destruct (match_atoms (map Lit w) s) as [[m' r']|] eqn:E; [|discriminate].
    inversion H; subst. f_equal. exact (IH _ _ _ E).
Qed.

Lemma take_while_all (f : ascii -> bool) (s : str) :
  forallb f (take_while f s) = true.
Proof.
  induction s as [|c s IH]; simpl; [reflexivity|].
  destruct (f c) eqn:E; simpl; [rewrite E; exact IH | reflexivity].
Qed.

(** The first alternative yields [HRESULT = 0x] and at least one
    hexadecimal digit. *)
Lemma match_hresult_text (prev : option ascii) (s g : str) :
  match_hresult prev s = Some g ->
  exists h, g = chars "HRESULT = 0x" ++ h /\ h <> [] /\
            forallb Chars.is_hex h = true.
Proof.
  unfold match_hresult. intros H.
  destruct (word_boundary prev (hd_error s)); [|discriminate].
  destruct (match_atoms (literal "HRESULT = 0x") s) as [[m r]|] eqn:E;
    [|discriminate].
  apply match_literal_text in E. subst m.
  destruct (take_while Chars.is_hex r) as [|h hs] eqn:Eh; [discriminate|].
  inversion H; subst. exists (h :: hs). repeat split.
  - discriminate.
  - rewrite <- Eh. apply take_while_all.
Qed.

Lemma match_word_text (w : string) (prev : option ascii) (s g : str) :
  match_word w prev s = Some g -> g = chars w.
Proof.
  unfold match_word. intros H.
  destruct (word_boundary prev (hd_error s)); [|discriminate].
  destruct (match_atoms (literal w) s) as [[m r]|] eqn:E; [|discriminate].
  apply match_literal_text in E. subst m.
  destruct (word_boundary _ _); [|discriminate].
  inversion H; reflexivity.
Qed.

Lemma match_marker_text (prev : option ascii) (s g : str) :
  match_marker prev s = Some g ->
  (match_hresult prev s = Some g /\
   exists h, g = chars "HRESULT = 0x" ++ h /\ h <> [] /\
             forallb Chars.is_hex h = true)
  \/ g = chars "Error" \/ g = chars "Warning".
Proof.
  unfold match_marker. intros H.
  destruct (match_hresult prev s) as [g'|] eqn:Eh.
  - inversion H; subst. left. split; [reflexivity|].
    exact (match_hresult_text _ _ _ Eh).
  - right. destruct (match_word "Error" prev s) eqn:Ee.
    + inversion H; subst. left. exact (match_word_text _ _ _ _ Ee).
    + right. exact (match_word_text _ _ _ _ H).
Qed.

Lemma strptime_raises_value_error (g : str) (e : exn) :
  strptime g = Raise e -> e = ValueError.
Proof.
  unfold strptime. intros H.
  destruct (match_timestamp g) as [[m [|c r]]|];
    try (inversion H; reflexivity).
  destruct (format_ranges _ && constructor_ranges _);
    [discriminate | inversion H; reflexivity].
Qed.

Lemma parse_log_line_raises_value_error (line : str) (e : exn) :
  parse_log_line line = Raise e -> e = ValueError.
Proof.
  unfold parse_log_line. intros H.
  destruct (search line) as [m|]; [|discriminate].
  destruct (strptime (group1 m)) as [ts|e'] eqn:E; [discriminate|].
  simpl in H. inversion H; subst. exact (strptime_raises_value_error _ _ E).
Qed.

(** The code of a parsed event is never the empty string. *)
Lemma parse_code_nonempty (line : str) (ts : datetime) (c : str) :
  parse_log_line line = Ok (Some (ts, c)) -> truthy c = true.
Proof.
  unfold parse_log_line. intros H.
  destruct (search line) as [m|] eqn:Hm; [|discriminate].
  destruct (strptime (group1 m)); [|discriminate].
  simpl in H. inversion H; subst.
  destruct (search_some _ _ Hm) as (_ & _ & Hmk & _).
  unfold marker_at in Hmk.
  destruct (match_marker_text _ _ _ Hmk) as [[_ (h & -> & _)]|[-> | ->]];
    reflexivity.
Qed.

End MarkerText.

(** ** C3, C10: what [parse_log_line] returns *)

(** C3, as the code has it.  A line that holds a timestamp layout
    followed later on the line by a marker is matched by the pattern at
    the leftmost such layout: the match starts at a layout that a marker
    follows, with no line feed in between, and no layout to its left has
    a marker after it.  The parser then returns the parsed timestamp with
    the marker's text when that layout's text passes the strict parse,
    and raises [ValueError] when it does not.  The returned text is the
    marker itself: [HRESULT = 0x] with its hexadecimal digits when that
    alternative matched, else [Error] or [Warning].  A line without any
    timestamp layout, or without any marker, gives (None, None) and
    nothing is raised. *)
Theorem parse_log_line_event_or_absent (line : str) :
  (forall p q, event_shape line p q ->
     exists m, Re.search line = Some m /\
       Re.start1 m <= p /\
       timestamp_at line (Re.start1 m) = Some (Re.group1 m) /\
       Re.start1 m + 19 <= Re.start2 m /\
       marker_at line (Re.start2 m) = Some (Re.group2 m) /\
       event_shape line (Re.start1 m) (Re.start2 m) /\
       (forall p' q', p' < Re.start1 m -> ~ event_shape line p' q') /\
       ((exists ts, strptime (Re.group1 m) = Ok ts /\
                    parse_log_line line = Ok (Some (ts, Re.group2 m)))
        \/ (strptime (Re.group1 m) = Raise ValueError /\
            parse_log_line line = Raise ValueError)) /\
       ((exists h, Re.group2 m = chars "HRESULT = 0x" ++ h /\ h <> [] /\
                   forallb Chars.is_hex h = true)
        \/ Re.group2 m = chars "Error" \/ Re.group2 m = chars "Warning"))
  /\ ((forall p, timestamp_at line p = None) \/
      (forall q, marker_at line q = None) ->
      parse_log_line line = Ok None).
Proof.
  split.
  - intros p q Hev.
    destruct (search_finds _ _ _ Hev) as [m Hm].
    destruct (search_some _ _ Hm) as (Hts & Hle & Hmk & Hnl & _ & Hleft).
    exists m.
    assert (Hshape : event_shape line (Re.start1 m) (Re.start2 m)).
    { unfold event_shape. rewrite Hts, Hmk.
      repeat split; auto; discriminate. }
    assert (Hp : Re.start1 m <= p).
    { destruct (Nat.le_gt_cases (Re.start1 m) p) as [Hl|Hg]; [exact Hl|].
      exfalso. exact (Hleft p q Hg Hev). }
    split; [exact Hm|]. split; [exact Hp|]. split; [exact Hts|].
    split; [exact Hle|]. split; [exact Hmk|]. split; [exact Hshape|].
    split; [exact Hleft|]. split.
    + unfold parse_log_line. rewrite Hm.
      destruct (strptime (Re.group1 m)) as [ts|e] eqn:E; simpl.
      * left. eauto.
      * right. rewrite (strptime_raises_value_error _ _ E). auto.
    + unfold marker_at in Hmk.
      destruct (match_marker_text _ _ _ Hmk) as [[_ H]|H]; auto.
  - intros H. unfold parse_log_line.
    destruct (Re.search line) as [m|] eqn:Hm; [|reflexivity].
    destruct (search_some _ _ Hm) as (Hts & _ & Hmk & _).
    destruct H as [H|H]; [rewrite H in Hts | rewrite H in Hmk]; discriminate.
Qed.

(** C10, as the code has it.  On a line that holds a timestamp layout at
    [p] followed by a marker at [q], the pattern matches at the leftmost
    layout [p0] that a marker follows, and at the first offset [q0] after
    that layout at which a marker starts: no marker starts between the
    end of the layout and [q0], and [q0] is not after [q].  When the text
    of the layout at [p0] passes the strict parse the parser returns the
    marker at [q0], whatever markers come later; when it does not, the
    parser raises [ValueError], also if the layout at [p] is a valid
    timestamp. *)
Theorem earliest_marker_is_returned (line : str) (p q : nat) :
  event_shape line p q ->
  exists p0 q0 g code,
    p0 <= p /\ p0 + 19 <= q0 /\ q0 <= q /\
    timestamp_at line p0 = Some g /\
    marker_at line q0 = Some code /\
    no_newline line (p0 + 19) q0 = true /\
    (forall p' q', p' < p0 -> ~ event_shape line p' q') /\
    (forall q', p0 + 19 <= q' < q0 -> marker_at line q' = None) /\
    match strptime g with
    | Ok ts => parse_log_line line = Ok (Some (ts, code))
    | Raise _ => parse_log_line line = Raise ValueError
    end.
Proof.
  intros Hev.
  destruct (search_finds _ _ _ Hev) as [m Hm].
  destruct (search_some _ _ Hm) as (Hts & Hle & Hmk & Hnl & Hfirst & Hleft).
  exists (Re.start1 m), (Re.start2 m), (Re.group1 m), (Re.group2 m).
  assert (Hp : Re.start1 m <= p).
  { destruct (Nat.le_gt_cases (Re.start1 m) p) as [Hl|Hg]; [exact Hl|].
    exfalso. exact (Hleft p q Hg Hev). }
  assert (Hq : Re.start2 m <= q).
  { destruct (Nat.le_gt_cases (Re.start2 m) q) as [Hl|Hg]; [exact Hl|].
    exfalso. destruct Hev as (_ & Hpq & Hmq & _).
    apply Hmq. apply Hfirst. lia. }
  repeat (split; [assumption|]).
  unfold parse_log_line. rewrite Hm.
  destruct (strptime (Re.group1 m)) as [ts|e] eqn:E; simpl.
  - reflexivity.
  - rewrite (strptime_raises_value_error _ _ E). reflexivity.
Qed.

(** The parser on the sample lines. *)
Example parse_hresult_line :
  parse_log_line Samples.hresult_line
  = Ok (Some ({| year := 2024; month := 3; day := 5;
                 hour := 8; minute := 15; second := 30 |},
              chars "HRESULT = 0x800f0816")).
Proof. reflexivity. Qed.

Lemma parse_log_line_event_or_absent_witness :
  (exists m, Re.search Samples.hresult_line = Some m /\
     Re.start1 m <= 0 /\
     timestamp_at Samples.hresult_line (Re.start1 m) = Some (Re.group1 m) /\
     Re.start1 m + 19 <= Re.start2 m /\
     marker_at Samples.hresult_line (Re.start2 m) = Some (Re.group2 m) /\
     event_shape Samples.hresult_line (Re.start1 m) (Re.start2 m) /\
     (forall p' q', p' < Re.start1 m ->
                    ~ event_shape Samples.hresult_line p' q') /\
     ((exists ts, strptime (Re.group1 m) = Ok ts /\
         parse_log_line Samples.hresult_line = Ok (Some (ts, Re.group2 m)))
      \/ (strptime (Re.group1 m) = Raise ValueError /\
          parse_log_line Samples.hresult_line = Raise ValueError)) /\
     ((exists h, Re.group2 m = chars "HRESULT = 0x" ++ h /\ h <> [] /\
                 forallb Chars.is_hex h = true)
      \/ Re.group2 m = chars "Error" \/ Re.group2 m = chars "Warning"))
  /\ parse_log_line Samples.plain_line = Ok None.
Proof.
  split.
  - apply (proj1 (parse_log_line_event_or_absent Samples.hresult_line) 0 38).
    unfold event_shape. repeat split.
    + vm_compute. discriminate.
    + lia.
    + vm_compute. discriminate.
  - apply (proj2 (parse_log_line_event_or_absent Samples.plain_line)).
    left. intros p.
    do 6 (destruct p as [|p]; [reflexivity|]).
    reflexivity.
Defined.

(** C3 as stated fails: the line holds a well-formed timestamp (at offset
    20) followed by the word Error, and the parser raises, because the
    pattern matches at the earlier layout whose month is 13. *)
Lemma parse_log_line_valid_timestamp_raises :
  event_shape Samples.two_timestamps 20 40 /\
  option_map strptime (timestamp_at Samples.two_timestamps 20)
  = Some (Ok {| year := 2024; month := 1; day := 1;
                hour := 0; minute := 0; second := 0 |}) /\
  parse_log_line Samples.two_timestamps = Raise ValueError.
Proof.
  unfold event_shape. repeat split.
  - vm_compute. discriminate.
  - lia.
  - vm_compute. discriminate.
Qed.

(** C10 as stated fails: the line holds a valid timestamp (at offset 20)
    followed by two markers, Warning at offset 40 and Error at offset 48,
    and the parser returns neither of them: it raises, because the
    pattern matches at the earlier layout whose month is 13. *)
Lemma two_markers_after_valid_timestamp_raise :
  option_map strptime
    (timestamp_at Samples.two_markers_after_two_timestamps 20)
  = Some (Ok {| year := 2024; month := 1; day := 1;
                hour := 0; minute := 0; second := 0 |}) /\
  event_shape Samples.two_markers_after_two_timestamps 20 40 /\
  marker_at Samples.two_markers_after_two_timestamps 40
  = Some (chars "Warning") /\
  event_shape Samples.two_markers_after_two_timestamps 20 48 /\
  marker_at Samples.two_markers_after_two_timestamps 48
  = Some (chars "Error") /\
  parse_log_line Samples.two_markers_after_two_timestamps
  = Raise ValueError.
Proof.
  unfold event_shape. repeat split; try lia;
    try (vm_compute; discriminate).
Qed.

Lemma earliest_marker_is_returned_witness :
  event_shape Samples.three_markers 0 30 /\
  exists p0 q0 g code,
    p0 <= 0 /\ p0 + 19 <= q0 /\ q0 <= 30 /\
    timestamp_at Samples.three_markers p0 = Some g /\
    marker_at Samples.three_markers q0 = Some code /\
    no_newline Samples.three_markers (p0 + 19) q0 = true /\
    (forall p' q', p' < p0 -> ~ event_shape Samples.three_markers p' q') /\
    (forall q', p0 + 19 <= q' < q0 ->
                marker_at Samples.three_markers q' = None) /\
    match strptime g with
    | Ok ts => parse_log_line Samples.three_markers = Ok (Some (ts, code))
    | Raise _ => parse_log_line Samples.three_markers = Raise ValueError
    end.
Proof.
  assert (H : event_shape Samples.three_markers 0 30).
  { unfold event_shape. repeat split; try lia;
      vm_compute; discriminate. }
  split; [exact H|].
  exact (earliest_marker_is_returned Samples.three_markers 0 30 H).
Defined.

(** On that line the marker returned is the first of the three. *)
Example parse_three_markers :
  parse_log_line Samples.three_markers
  = Ok (Some ({| year := 2024; month := 1; day := 1;
                 hour := 10; minute := 0; second := 0 |}, chars "Warning")).
Proof. reflexivity. Qed.
(** ** Dictionaries *)

Section DictFacts.
Context {K V : Type} (eqb : K -> K -> bool).
Hypothesis eqb_eq : forall a b, eqb a b = true <-> a = b.

Lemma eqb_refl (k : K) : eqb k k = true.
Proof. apply eqb_eq. reflexivity. Qed.

Lemma eqb_neq (a b : K) : a <> b -> eqb a b = false.
Proof.
  intros H. destruct (eqb a b) eqn:E; [|reflexivity].
  apply eqb_eq in E. contradiction.
Qed.

Lemma get_set_same (d : list (K * V)) (k : K) (v : V) :
  Dict.get eqb (Dict.set eqb d k v) k = Some v.
Proof.
  induction d as [|[k' v'] d IH]; simpl.
  - rewrite eqb_refl. reflexivity.
  - destruct (eqb k k') eqn:E; simpl; rewrite E; auto.
Qed.

Lemma get_set_other (d : list (K * V)) (k k' : K) (v : V) :
  k' <> k -> Dict.get eqb (Dict.set eqb d k v) k' = Dict.get eqb d k'.
Proof.
  intros Hne. induction d as [|[k0 v0] d IH]; simpl.
  - rewrite (eqb_neq _ _ Hne). reflexivity.
  - destruct (eqb k k0) eqn:E; simpl.
    + apply eqb_eq in E. subst k0. rewrite (eqb_neq _ _ Hne). reflexivity.
    + rewrite IH. reflexivity.
Qed.

Lemma set_fresh (d : list (K * V)) (k : K) (v : V) :
  Dict.get eqb d k = None -> Dict.set eqb d k v = d ++ [(k, v)].
Proof.
  induction d as [|[k' v'] d IH]; simpl; intros H; [reflexivity|].
  destruct (eqb k k'); [discriminate|]. rewrite IH; auto.
Qed.

Lemma get_app_some (d e : list (K * V)) (k : K) (v : V) :
  Dict.get eqb d k = Some v -> Dict.get eqb (d ++ e) k = Some v.
Proof.
  induction d as [|[k' v'] d IH]; simpl; intros H; [discriminate|].
  destruct (eqb k k'); auto.
Qed.

Lemma get_app_none (d e : list (K * V)) (k : K) :
  Dict.get eqb d k = None -> Dict.get eqb (d ++ e) k = Dict.get eqb e k.
Proof.
  induction d as [|[k' v'] d IH]; simpl; intros H; [reflexivity|].
  destruct (eqb k k'); [discriminate|auto].
Qed.

Lemma mem_keys (d : list (K * V)) (k : K) :
  Dict.mem eqb d k = existsb (eqb k) (Dict.keys d).
Proof.
  unfold Dict.mem. induction d as [|[k' v'] d IH]; simpl; [reflexivity|].
  destruct (eqb k k'); simpl; auto.
Qed.

Lemma combine_keys_values (d : list (K * V)) :
  combine (Dict.keys d) (Dict.values d) = d.
Proof.
  induction d as [|[k v] d IH]; simpl; [reflexivity|].
  rewrite IH. reflexivity.
Qed.

End DictFacts.

Lemma str_eqb_eq (a b : str) : str_eqb a b = true <-> a = b.
Proof.
  unfold str_eqb. destruct (list_eq_dec ascii_dec a b); split;
    auto; discriminate.
Qed.

Lemma total_values_set (d : list (nat * nat)) (id : nat) :
  total (Dict.values
           (Dict.set Nat.eqb d id (Dict.get_default Nat.eqb d id 0 + 1)))
  = total (Dict.values d) + 1.
Proof.
  unfold Dict.get_default.
  induction d as [|[k v] d IH]; simpl; [reflexivity|].
  destruct (id =? k) eqn:E; simpl; [lia|].
  rewrite IH. lia.
Qed.

Lemma total_app (a b : list nat) : total (a ++ b) = total a + total b.
Proof.
  induction a as [|x a IH]; simpl; [reflexivity|]. rewrite IH. lia.
Qed.

Lemma map_result_pointwise {A B : Type} (f : A -> result B) (g : A -> B)
  (l : list A) :
  (forall a, In a l -> f a = Ok (g a)) -> map_result f l = Ok (map g l).
Proof.
  induction l as [|a l IH]; intros H; simpl; [reflexivity|].
  rewrite (H a) by (left; reflexivity). simpl.
  rewrite IH by (intros; apply H; right; assumption). reflexivity.
Qed.

(** ** First occurrences *)

Lemma first_occurrences_snoc (codes : list str) (c : str) :
  first_occurrences (codes ++ [c])
  = if existsb (str_eqb c) (first_occurrences codes)
    then first_occurrences codes
    else first_occurrences codes ++ [c].
Proof.
  unfold first_occurrences. rewrite fold_left_app. reflexivity.
Qed.

Lemma existsb_str_in (c : str) (l : list str) :
  existsb (str_eqb c) l = true <-> In c l.
Proof.
  rewrite existsb_exists. split.
  - intros (x & Hin & Heq). apply str_eqb_eq in Heq. subst. exact Hin.
  - intros H. exists c. split; [exact H | apply str_eqb_eq; reflexivity].
Qed.

Lemma first_occurrences_spec (codes : list str) :
  NoDup (first_occurrences codes) /\
  forall c, In c (first_occurrences codes) <-> In c codes.
Proof.
  induction codes as [|c codes IH] using rev_ind.
  - split; [constructor | intros c; split; auto].
  - destruct IH as [Hnd Hin]. rewrite first_occurrences_snoc.
    destruct (existsb (str_eqb c) (first_occurrences codes)) eqn:E.
    + apply existsb_str_in in E. split; [exact Hnd|].
      intros c'. rewrite in_app_iff, Hin. simpl. split; [tauto|].
      intros [H|[<-|[]]]; [exact H | apply Hin; exact E].
    + assert (Hc : ~ In c (first_occurrences codes)).
      { intros H. apply existsb_str_in in H. congruence. }
      split.
      * apply NoDup_app; [exact Hnd | repeat constructor; intros [] | ].
        intros x Hx [<-|[]]. contradiction.
      * intros c'. rewrite !in_app_iff, Hin. reflexivity.
Qed.

Lemma get_combine_position (keys : list str) :
  forall start c,
    In c keys ->
    Dict.get str_eqb (combine keys (seq start (length keys))) c
    = Some (start + position c keys).
Proof.
  induction keys as [|k keys IH]; intros start c Hin; [destruct Hin|].
  simpl. destruct (str_eqb c k) eqn:E.
  - f_equal. lia.
  - rewrite IH.
    + f_equal. lia.
    + destruct Hin as [<-|H]; [|exact H].
      rewrite (proj2 (str_eqb_eq k k) eq_refl) in E. discriminate.
Qed.

(** ** The loop of [load_cbs_log] *)

Section ScanFacts.
Variable posix : datetime -> option Z.

Lemma scan_step_skip (st : scan_state) (line : str) :
  parse_log_line line = Ok None -> scan_step posix st line = Ok st.
Proof. unfold scan_step. intros ->. reflexivity. Qed.

Lemma scan_step_raise (st : scan_state) (line : str) (e : exn) :
  parse_log_line line = Raise e -> scan_step posix st line = Raise e.
Proof. unfold scan_step. intros ->. reflexivity. Qed.

(** The registry after the test-and-insert holds the code. *)
Lemma registry_holds_code (d : list (str * nat)) (c : str) :
  exists id,
    Dict.get str_eqb
      (if Dict.mem str_eqb d c then d
       else Dict.set str_eqb d c (length d + 1)) c = Some id.
Proof.
  unfold Dict.mem. destruct (Dict.get str_eqb d c) as [id|] eqn:E.
  - exists id. exact E.
  - exists (length d + 1). apply get_set_same. apply str_eqb_eq.
Qed.

(** An event whose timestamp does not convert stops the loop. *)
Lemma scan_step_no_stamp (st : scan_state) (line : str) (ts : datetime)
  (c : str) :
  parse_log_line line = Ok (Some (ts, c)) -> posix ts = None ->
  scan_step posix st line = Raise ValueError.
Proof.
  intros P T. unfold scan_step. rewrite P. simpl.
  rewrite (parse_code_nonempty _ _ _ P), T. reflexivity.
Qed.

Lemma scan_step_total (st : scan_state) (line : str) :
  fails posix line = false -> exists st', scan_step posix st line = Ok st'.
Proof.
  unfold fails, scan_step. intros H.
  destruct (parse_log_line line) as [[[ts c]|]|e]; [| |discriminate];
    simpl; [|eauto].
  destruct (truthy c); [|eauto].
  destruct (posix ts) as [t|]; [|discriminate].
  destruct (registry_holds_code (error_map st) c) as [id Hid].
  unfold Dict.item. rewrite Hid. simpl. eauto.
Qed.

Lemma scan_step_fails (st : scan_state) (line : str) :
  fails posix line = true -> scan_step posix st line = Raise ValueError.
Proof.
  unfold fails. intros H.
  destruct (parse_log_line line) as [[[ts c]|]|e] eqn:P; try discriminate.
  - rewrite (parse_code_nonempty _ _ _ P) in H.
    destruct (posix ts) eqn:T; [discriminate|].
    exact (scan_step_no_stamp _ _ _ _ P T).
  - rewrite (scan_step_raise _ _ _ P).
    rewrite (parse_log_line_raises_value_error _ _ P). reflexivity.
Qed.

Lemma scan_step_raises_value_error (st : scan_state) (line : str) (e : exn) :
  scan_step posix st line = Raise e -> e = ValueError.
Proof.
  intros H. destruct (fails posix line) eqn:R.
  - rewrite (scan_step_fails st _ R) in H. congruence.
  - destruct (scan_step_total st line R) as [st' Hst']. congruence.
Qed.

Lemma get_extends (d e : list (str * nat)) (codes : list str) :
  forall ids,
    map (Dict.get str_eqb d) codes = map Some ids ->
    map (Dict.get str_eqb (d ++ e)) codes = map Some ids.
Proof.
  induction codes as [|c codes IH]; intros [|i ids] H; simpl in *;
    try discriminate; [reflexivity|].
  inversion H as [[Hc Hrest]].
  rewrite (get_app_some _ _ _ _ _ Hc), Hc. f_equal.
  rewrite Hrest. apply IH. exact Hrest.
Qed.

Lemma frequency_default (fr : list (nat * nat)) (ids : list nat) (id : nat) :
  (Dict.get Nat.eqb fr id
   = if count_occ Nat.eq_dec ids id =? 0 then None
     else Some (count_occ Nat.eq_dec ids id)) ->
  Dict.get_default Nat.eqb fr id 0 = count_occ Nat.eq_dec ids id.
Proof.
  unfold Dict.get_default. intros ->.
  destruct (count_occ Nat.eq_dec ids id =? 0) eqn:E; [|reflexivity].
  apply Nat.eqb_eq in E. auto.
Qed.

(** One event more keeps the invariant. *)
Lemma scan_step_event (st : scan_state) (line : str)
  (evs : list (datetime * str)) (ev : datetime * str) :
  scan_invariant posix evs st ->
  parse_log_line line = Ok (Some ev) ->
  posix (fst ev) <> None ->
  exists st', scan_step posix st line = Ok st' /\
              scan_invariant posix (evs ++ [ev]) st'.
Proof.
  intros [Hkeys Hids Hrows Htimes Hfreq Htotal] Hparse Hstamp.
  destruct ev as [ts c]. unfold scan_step. rewrite Hparse. simpl.
  rewrite (parse_code_nonempty _ _ _ Hparse).
  simpl in Hstamp. destruct (posix ts) as [t|] eqn:Et; [|congruence].
  set (d := error_map st) in *.
  assert (Hlen : length d = length (first_occurrences (map snd evs))).
  { rewrite <- Hkeys. unfold Dict.keys. rewrite length_map. reflexivity. }
  assert (Hmem : Dict.mem str_eqb d c
                 = existsb (str_eqb c) (first_occurrences (map snd evs))).
  { rewrite mem_keys, Hkeys. reflexivity. }
  destruct (registry_holds_code d c) as [id Hid].
  unfold Dict.item. rewrite Hid. simpl.
  eexists. split; [reflexivity|].
  assert (Hcount : forall id',
    Dict.get Nat.eqb
      (Dict.set Nat.eqb (frequencies st) id
         (Dict.get_default Nat.eqb (frequencies st) id 0 + 1)) id'
    = if count_occ Nat.eq_dec (error_codes st ++ [id]) id' =? 0 then None
      else Some (count_occ Nat.eq_dec (error_codes st ++ [id]) id')).
  { intros id'. rewrite count_occ_app. simpl.
    destruct (Nat.eq_dec id id') as [<-|Hne].
    - rewrite (get_set_same Nat.eqb Nat.eqb_eq).
      rewrite (frequency_default _ _ _ (Hfreq id)).
      destruct (_ + 1 =? 0) eqn:E; [apply Nat.eqb_eq in E; lia|].
      reflexivity.
    - rewrite (get_set_other Nat.eqb Nat.eqb_eq) by congruence.
      rewrite Nat.add_0_r. apply Hfreq. }
  assert (Hfo : first_occurrences (map snd (evs ++ [(ts, c)]))
                = if Dict.mem str_eqb d c
                  then first_occurrences (map snd evs)
                  else first_occurrences (map snd evs) ++ [c]).
  { rewrite map_app. change (map snd [(ts, c)]) with [c].
    rewrite first_occurrences_snoc, <- Hmem. reflexivity. }
  destruct (Dict.mem str_eqb d c) eqn:Em.
  - constructor; simpl; rewrite ?Hfo; auto.
    + rewrite !map_app, Hrows. simpl. rewrite Hid. reflexivity.
    + rewrite !map_app, Htimes. simpl. rewrite Et. reflexivity.
    + rewrite total_values_set, length_app, Htotal. reflexivity.
  - assert (Hnone : Dict.get str_eqb d c = None).
    { unfold Dict.mem in Em. destruct (Dict.get str_eqb d c);
        [discriminate | reflexivity]. }
    rewrite (set_fresh str_eqb d c _ Hnone) in *.
    rewrite (get_app_none str_eqb _ _ _ Hnone) in Hid. simpl in Hid.
    rewrite (proj2 (str_eqb_eq c c) eq_refl) in Hid.
    inversion Hid; subst id.
    constructor; simpl; rewrite ?Hfo; auto.
    + unfold Dict.keys in *. rewrite map_app, Hkeys. reflexivity.
    + unfold Dict.values in *. rewrite map_app, Hids, length_app. simpl.
      rewrite Hlen, Nat.add_1_r, seq_S. reflexivity.
    + rewrite !map_app, (get_extends _ _ _ _ Hrows). simpl.
      rewrite (get_app_none str_eqb _ _ _ Hnone). simpl.
      rewrite (proj2 (str_eqb_eq c c) eq_refl). reflexivity.
    + rewrite !map_app, Htimes. simpl. rewrite Et. reflexivity.
    + rewrite total_values_set, length_app, Htotal. reflexivity.
Qed.

Lemma steps_raise (ls : list str) (e : exn) :
  fold_left (fun acc line => s <- acc ;; scan_step posix s line) ls (Raise e)
  = Raise e.
Proof. induction ls as [|l ls IH]; simpl; auto. Qed.

Lemma steps_cons (l : str) (ls : list str) (st : scan_state) :
  steps posix (l :: ls) st
  = (st' <- scan_step posix st l ;; steps posix ls st').
Proof.
  unfold steps. simpl.
  destruct (scan_step posix st l); simpl; [reflexivity | apply steps_raise].
Qed.

Lemma steps_snoc (ls : list str) (l : str) (st : scan_state) :
  steps posix (ls ++ [l]) st
  = (st' <- steps posix ls st ;; scan_step posix st' l).
Proof. unfold steps. rewrite fold_left_app. reflexivity. Qed.

(** The capped loop is the loop body run on the lines before the cap. *)
Lemma scan_steps (max_lines : N) (lines : list str) :
  forall i st,
    scan posix max_lines i lines st
    = steps posix (scanned max_lines i lines) st.
Proof.
  induction lines as [|l lines IH]; intros i st; simpl; [reflexivity|].
  destruct (max_lines <=? i)%N; [reflexivity|].
  rewrite steps_cons. destruct (scan_step posix st l); simpl; auto.
Qed.

Lemma events_snoc (ls : list str) (l : str) :
  events (ls ++ [l])
  = events ls ++ match parse_log_line l with
                 | Ok (Some ev) => [ev]
                 | _ => []
                 end.
Proof.
  unfold events. rewrite flat_map_app. simpl. rewrite app_nil_r.
  reflexivity.
Qed.

Lemma initial_invariant : scan_invariant posix [] initial_state.
Proof. constructor; reflexivity. Qed.

Lemma steps_invariant (ls : list str) :
  forall st, steps posix ls initial_state = Ok st ->
             scan_invariant posix (events ls) st.
Proof.
  induction ls as [|l ls IH] using rev_ind; intros st H.
  - inversion H; subst. apply initial_invariant.
  - rewrite steps_snoc in H.
    destruct (bind_ok _ _ _ H) as (s0 & Hs0 & Hstep).
    specialize (IH _ Hs0). rewrite events_snoc.
    destruct (parse_log_line l) as [[ev|]|e] eqn:P.
    + destruct (posix (fst ev)) as [t|] eqn:T.
      * assert (Hsome : posix (fst ev) <> None) by congruence.
        destruct (scan_step_event _ _ _ _ IH P Hsome) as (st' & Hst' & Hinv).
        congruence.
      * destruct ev as [ts c].
        rewrite (scan_step_no_stamp _ _ _ _ P T) in Hstep. discriminate.
    + rewrite (scan_step_skip _ _ P) in Hstep. inversion Hstep; subst.
      rewrite app_nil_r. exact IH.
    + rewrite (scan_step_raise _ _ _ P) in Hstep. discriminate.
Qed.

Lemma steps_total (ls : list str) :
  forall st, (forall l, In l ls -> fails posix l = false) ->
             exists st', steps posix ls st = Ok st'.
Proof.
  induction ls as [|l ls IH]; intros st H.
  - exists st. reflexivity.
  - destruct (scan_step_total st l (H l (or_introl eq_refl))) as [s1 Hs1].
    destruct (IH s1 (fun l' Hl' => H l' (or_intror Hl'))) as [st' Hst'].
    exists st'. rewrite steps_cons, Hs1. exact Hst'.
Qed.

Lemma scan_file_invariant (max_lines : N) (lines : list str)
  (st : scan_state) :
  scan_file posix max_lines lines = Ok st ->
  scan_invariant posix (events (scanned max_lines 0 lines)) st.
Proof.
  unfold scan_file. rewrite scan_steps. apply steps_invariant.
Qed.

End ScanFacts.

(** The invariant gives the timestamps of the state. *)
Lemma invariant_stamps (posix : datetime -> option Z)
  (evs : list (datetime * str)) (l : list Z) :
  map Some l = map (fun ev => posix (fst ev)) evs -> l = stamps posix evs.
Proof.
  revert l. induction evs as [|ev evs IH]; intros [|t l] H; simpl in *;
    try discriminate; [reflexivity|].
  unfold stamps. simpl. destruct (posix (fst ev)) as [u|];
    [|discriminate].
  inversion H as [[Ht Hl]]. simpl. f_equal. exact (IH _ Hl).
Qed.

(** The loader on a small log, with and without a cap. *)
Example load_small_log :
  load_cbs_log timestamp_utc Samples.small_log default_max_lines
  = Ok ([1704103200; 1704103202; 1704103203; 1704103204]%Z,
        [1; 2; 1; 3], [2; 1; 2; 1]).
Proof. reflexivity. Qed.

Example load_small_log_capped :
  load_cbs_log timestamp_utc Samples.small_log 3
  = Ok ([1704103200; 1704103202]%Z, [1; 2], [1; 1]).
Proof. reflexivity. Qed.

(** ** C4: a malformed timestamp is fatal *)

Lemma scan_hits_raise (posix : datetime -> option Z) (max_lines : N)
  (line : str) (post : list str) :
  parse_log_line line = Raise ValueError ->
  forall pre i st,
    (i + N.of_nat (length pre) < max_lines)%N ->
    scan posix max_lines i (pre ++ line :: post) st = Raise ValueError.
Proof.
  intros Hraise pre.
  induction pre as [|l pre IH]; intros i st Hi; simpl.
  - destruct (N.leb_spec max_lines i) as [Hle|Hlt]; [simpl in Hi; lia|].
    rewrite (scan_step_raise _ _ _ _ Hraise). reflexivity.
  - destruct (N.leb_spec max_lines i) as [Hle|Hlt]; [lia|].
    destruct (scan_step posix st l) as [st'|e] eqn:E; simpl.
    + apply IH. simpl length in Hi. lia.
    + rewrite (scan_step_raises_value_error _ _ _ _ E). reflexivity.
Qed.

(** C4.  When the pattern matches a line and the strict parse of the
    matched timestamp text fails, [parse_log_line] raises [ValueError];
    and when that line lies before the cap, [load_cbs_log] raises it too,
    whatever the other lines are: the line is not skipped. *)
Theorem malformed_timestamp_is_fatal
  (posix : datetime -> option Z) (pre post : list str) (line : str)
  (m : Re.re_match) (e : exn) (max_lines : N) :
  Re.search line = Some m ->
  strptime (Re.group1 m) = Raise e ->
  (N.of_nat (length pre) < max_lines)%N ->
  parse_log_line line = Raise ValueError /\
  load_cbs_log posix (pre ++ line :: post) max_lines = Raise ValueError.
Proof.
  intros Hm Hts Hcap.
  assert (Hraise : parse_log_line line = Raise ValueError).
  { unfold parse_log_line. rewrite Hm, Hts. simpl.
    rewrite (strptime_raises_value_error _ _ Hts). reflexivity. }
  split; [exact Hraise|].
  unfold load_cbs_log, scan_file.
  rewrite (scan_hits_raise posix max_lines line post Hraise) by lia.
  reflexivity.
Qed.

Lemma malformed_timestamp_is_fatal_witness :
  parse_log_line Samples.bad_hour = Raise ValueError /\
  load_cbs_log timestamp_utc
    (Samples.small_log ++ Samples.bad_hour :: Samples.two_events)
    default_max_lines = Raise ValueError.
Proof.
  apply (malformed_timestamp_is_fatal timestamp_utc Samples.small_log
           Samples.two_events Samples.bad_hour
           {| Re.start1 := 0; Re.group1 := chars "2024-01-01 25:00:00";
              Re.start2 := 21; Re.group2 := chars "Error" |} ValueError).
  - reflexivity.
  - reflexivity.
  - reflexivity.
Defined.

(** ** C6, C7, C8: the registry, the frequency table and the matrix *)

Lemma map_some_inj {A : Type} (a b : list A) :
  map Some a = map Some b -> a = b.
Proof.
  revert b; induction a as [|x a IH]; intros [|y b] H; simpl in H;
    try discriminate; [reflexivity|].
  inversion H; subst. f_equal. auto.
Qed.

(** The IDs of the rows, from the codes of the events. *)
Lemma invariant_row_ids (posix : datetime -> option Z)
  (evs : list (datetime * str)) (st : scan_state) :
  scan_invariant posix evs st ->
  error_map st
  = combine (first_occurrences (map snd evs))
      (seq 1 (length (first_occurrences (map snd evs)))) /\
  error_codes st
  = map (fun c => 1 + position c (first_occurrences (map snd evs)))
      (map snd evs).
Proof.
  intros [Hkeys Hids Hrows _ _ _].
  assert (Hmap : error_map st
                 = combine (first_occurrences (map snd evs))
                     (seq 1 (length (first_occurrences (map snd evs))))).
  { rewrite <- Hkeys at 1. rewrite <- Hids. symmetry.
    apply combine_keys_values. }
  split; [exact Hmap|].
  apply map_some_inj. rewrite <- Hrows. rewrite (map_map _ Some).
  apply map_ext_in. intros c Hc. rewrite Hmap.
  apply get_combine_position.
  apply (proj2 (first_occurrences_spec (map snd evs))). exact Hc.
Qed.

Lemma scan_past_cap (posix : datetime -> option Z) (max_lines i : N)
  (lines : list str) (st : scan_state) :
  (max_lines <= i)%N -> scan posix max_lines i lines st = Ok st.
Proof.
  intros H. destruct lines as [|l lines]; simpl; [reflexivity|].
  apply N.leb_le in H. rewrite H. reflexivity.
Qed.

(** The scan of a file goes through the state that the scan of its first
    [k] lines ends in. *)
Lemma scan_through_prefix (posix : datetime -> option Z) (max_lines : N)
  (lines : list str) :
  forall k i st,
    scan posix max_lines i lines st
    = (st' <- scan posix max_lines i (firstn k lines) st ;;
       scan posix max_lines (i + N.of_nat k) (skipn k lines) st').
Proof.
  induction lines as [|l lines IH]; intros k i st.
  - rewrite firstn_nil, skipn_nil. reflexivity.
  - destruct k as [|k].
    + simpl firstn. simpl skipn. simpl bind. rewrite N.add_0_r. reflexivity.
    + simpl firstn. simpl skipn. simpl scan.
      destruct (N.leb_spec max_lines i) as [Hle|Hlt].
      * simpl. symmetry. apply scan_past_cap. lia.
      * destruct (scan_step posix st l) as [s1|e]; simpl; [|reflexivity].
        rewrite (IH k (N.succ i) s1).
        replace (N.succ i + N.of_nat k)%N with (i + N.of_nat (S k))%N by lia.
        reflexivity.
Qed.

(** C6.  After any number [k] of lines (and so also at the end of the
    scan), the registry is the list of the distinct codes seen so far, in
    the order of their first occurrence, paired with 1, 2, ..., N; every
    row carries the ID of its code, so two rows with one code carry one
    ID. *)
Theorem registry_ids_dense_and_stable
  (posix : datetime -> option Z) (max_lines : N) (lines : list str) (k : nat)
  (st : scan_state) :
  scan_file posix max_lines (firstn k lines) = Ok st ->
  let codes := map snd (events (scanned max_lines 0 (firstn k lines))) in
  let distinct := first_occurrences codes in
  NoDup distinct /\
  (forall c, In c distinct <-> In c codes) /\
  error_map st = combine distinct (seq 1 (length distinct)) /\
  Dict.values (error_map st) = seq 1 (length distinct) /\
  error_codes st = map (fun c => 1 + position c distinct) codes /\
  (forall i j c,
     nth_error codes i = Some c -> nth_error codes j = Some c ->
     nth_error (error_codes st) i = nth_error (error_codes st) j).
Proof.
  intros H codes distinct.
  pose proof (scan_file_invariant _ _ _ _ H) as Hinv.
  destruct (invariant_row_ids _ _ _ Hinv) as [Hmap Hrows].
  destruct (first_occurrences_spec codes) as [Hnd Hin].
  repeat split; auto.
  - apply Hin.
  - apply Hin.
  - apply (inv_ids _ _ _ Hinv).
  - intros i j c Hi Hj. fold codes distinct in Hrows. rewrite Hrows.
    rewrite !nth_error_map, Hi, Hj. reflexivity.
Qed.

Lemma registry_ids_dense_and_stable_witness :
  error_map
    {| timestamps := [1704103200; 1704103202; 1704103203]%Z;
       error_codes := [1; 2; 1];
       error_map := [(chars "Error", 1); (chars "Warning", 2)];
       frequencies := [(1, 2); (2, 1)] |}
  = combine [chars "Error"; chars "Warning"] (seq 1 2).
Proof.
  exact (proj1 (proj2 (proj2
    (registry_ids_dense_and_stable timestamp_utc default_max_lines
       Samples.small_log 4 _ eq_refl)))).
Defined.

Lemma zip3_columns {A : Type} (a : list A) :
  forall b c, length a = length b -> length b = length c ->
    length (zip3 a b c) = length a /\
    col0 (zip3 a b c) = a /\ col1 (zip3 a b c) = b /\ col2 (zip3 a b c) = c.
Proof.
  induction a as [|x a IH]; intros [|y b] [|z c] Hab Hbc;
    try discriminate; simpl; auto.
  destruct (IH b c) as (Hl & H0 & H1 & H2); try (simpl in *; lia).
  unfold col0, col1, col2 in *. simpl. rewrite Hl, H0, H1, H2. auto.
Qed.

(** C7.  When on no scanned line the parser raises or the conversion
    of the event's timestamp to seconds raises, the loader returns, and
    the row of the [i]-th event holds the seconds of the event's
    timestamp, the ID of its code, and the number of rows of the whole
    result that carry this ID; the stacked matrix has these three columns
    in this order and one row per event. *)
Theorem frequency_column_is_final_count
  (posix : datetime -> option Z) (lines : list str) (max_lines : N) :
  (forall line, In line (scanned max_lines 0 lines) ->
                fails posix line = false) ->
  let evs := events (scanned max_lines 0 lines) in
  let ts := stamps posix evs in
  let distinct := first_occurrences (map snd evs) in
  let ids := map (fun c => 1 + position c distinct) (map snd evs) in
  let fr := map (count_occ Nat.eq_dec ids) ids in
  let X := zip3 ts (map Z.of_nat ids) (map Z.of_nat fr) in
  load_cbs_log posix lines max_lines = Ok (ts, ids, fr) /\
  map Some ts = map (fun ev => posix (fst ev)) evs /\
  column_stack ts ids fr = Ok X /\
  length X = length evs /\
  col0 X = ts /\ col1 X = map Z.of_nat ids /\ col2 X = map Z.of_nat fr.
Proof.
  intros Hok evs ts distinct ids fr X.
  destruct (steps_total posix _ initial_state Hok) as [st Hst].
  pose proof (steps_invariant posix _ _ Hst) as Hinv. fold evs in Hinv.
  destruct (invariant_row_ids _ _ _ Hinv) as [_ Hids].
  fold distinct ids in Hids.
  assert (Hts : timestamps st = ts).
  { apply invariant_stamps. exact (inv_times _ _ _ Hinv). }
  assert (Hsome : map Some ts = map (fun ev => posix (fst ev)) evs).
  { rewrite <- Hts. exact (inv_times _ _ _ Hinv). }
  assert (Hlen : length ts = length ids /\ length ids = length fr
                 /\ length ts = length evs).
  { pose proof (f_equal (@length _) Hsome) as Hl.
    unfold fr, ids. rewrite !length_map in *. auto. }
  destruct Hlen as (H1 & H2 & H3).
  assert (Hload : load_cbs_log posix lines max_lines = Ok (ts, ids, fr)).
  { unfold load_cbs_log, scan_file. rewrite scan_steps, Hst. simpl.
    rewrite Hts, Hids.
    rewrite (map_result_pointwise _ (count_occ Nat.eq_dec ids)).
    - reflexivity.
    - intros id Hin. unfold Dict.item.
      rewrite (inv_freq _ _ _ Hinv), Hids.
      apply (count_occ_In Nat.eq_dec) in Hin.
      destruct (count_occ Nat.eq_dec ids id =? 0) eqn:E;
        [apply Nat.eqb_eq in E; lia | reflexivity]. }
  assert (Hstack : column_stack ts ids fr = Ok X).
  { unfold column_stack. rewrite H1, H2, !Nat.eqb_refl. reflexivity. }
  destruct (zip3_columns ts (map Z.of_nat ids) (map Z.of_nat fr))
    as (Hl & H0' & H1' & H2'); try (rewrite !length_map; lia).
  repeat split; auto. unfold X. lia.
Qed.

Lemma frequency_column_is_final_count_witness :
  (forall line, In line (scanned default_max_lines 0 Samples.small_log) ->
                fails timestamp_utc line = false) /\
  load_cbs_log timestamp_utc Samples.small_log default_max_lines
  = Ok ([1704103200; 1704103202; 1704103203; 1704103204]%Z,
        [1; 2; 1; 3], [2; 1; 2; 1]).
Proof.
  assert (H : forall line,
             In line (scanned default_max_lines 0 Samples.small_log) ->
             fails timestamp_utc line = false).
  { intros line H. vm_compute in H.
    repeat (destruct H as [<-|H]; [reflexivity|]). destruct H. }
  split; [exact H|].
  exact (proj1 (frequency_column_is_final_count timestamp_utc
                  Samples.small_log default_max_lines H)).
Defined.

(** C8.  When the scan is over, the counts of the frequency table add up
    to the number of events, which is also the length of the timestamp
    and the ID sequences. *)
Theorem frequency_total_is_event_count
  (posix : datetime -> option Z) (max_lines : N) (lines : list str)
  (st : scan_state) :
  scan_file posix max_lines lines = Ok st ->
  total (Dict.values (frequencies st))
  = length (events (scanned max_lines 0 lines)) /\
  length (timestamps st) = length (events (scanned max_lines 0 lines)) /\
  length (error_codes st) = length (events (scanned max_lines 0 lines)).
Proof.
  intros H. pose proof (scan_file_invariant _ _ _ _ H) as Hinv.
  assert (Hids : length (error_codes st)
                 = length (events (scanned max_lines 0 lines))).
  { pose proof (f_equal (@length _) (inv_rows _ _ _ Hinv)) as Hl.
    rewrite !length_map in Hl. auto. }
  repeat split.
  - rewrite (inv_total _ _ _ Hinv). exact Hids.
  - pose proof (f_equal (@length _) (inv_times _ _ _ Hinv)) as Hl.
    rewrite !length_map in Hl. exact Hl.
  - exact Hids.
Qed.

Lemma frequency_total_is_event_count_witness :
  total [2; 1; 1] = 4.
Proof.
  exact (proj1 (frequency_total_is_event_count timestamp_utc
    default_max_lines Samples.small_log
    {| timestamps := [1704103200; 1704103202; 1704103203; 1704103204]%Z;
       error_codes := [1; 2; 1; 3];
       error_map := [(chars "Error", 1); (chars "Warning", 2);
                     (chars "HRESULT = 0x800f0816", 3)];
       frequencies := [(1, 2); (2, 1); (3, 1)] |} eq_refl)).
Defined.

(** ** The outcome of [load_cbs_log] *)

Lemma position_lt (c : str) (l : list str) :
  In c l -> position c l < length l.
Proof.
  induction l as [|d l IH]; intros H; [destruct H|].
  simpl. destruct (str_eqb c d) eqn:E; [lia|].
  destruct H as [<-|H].
  - rewrite (proj2 (str_eqb_eq d d) eq_refl) in E. discriminate.
  - specialize (IH H). lia.
Qed.

Lemma nth_position (c : str) (l : list str) :
  In c l -> nth_error l (position c l) = Some c.
Proof.
  induction l as [|d l IH]; intros H; [destruct H|].
  simpl. destruct (str_eqb c d) eqn:E.
  - apply str_eqb_eq in E. subst. reflexivity.
  - destruct H as [<-|H]; [|exact (IH H)].
    rewrite (proj2 (str_eqb_eq d d) eq_refl) in E. discriminate.
Qed.

Lemma position_nth (l : list str) :
  NoDup l -> forall i c, nth_error l i = Some c -> position c l = i.
Proof.
  induction 1 as [|d l Hd Hnd IH]; intros i c Hi; [destruct i; discriminate|].
  simpl. destruct i as [|i]; simpl in Hi.
  - inversion Hi; subst. rewrite (proj2 (str_eqb_eq c c) eq_refl). reflexivity.
  - destruct (str_eqb c d) eqn:E.
    + apply str_eqb_eq in E. subst. exfalso. apply Hd.
      exact (nth_error_In _ _ Hi).
    + f_equal. exact (IH _ _ Hi).
Qed.

Lemma position_app (c : str) (l l' : list str) :
  In c l -> position c (l ++ l') = position c l.
Proof.
  induction l as [|d l IH]; intros H; [destruct H|].
  simpl. destruct (str_eqb c d) eqn:E; [reflexivity|].
  destruct H as [<-|H].
  - rewrite (proj2 (str_eqb_eq d d) eq_refl) in E. discriminate.
  - rewrite (IH H). reflexivity.
Qed.

(** Later codes only add to the end of the list of distinct codes. *)
Lemma first_occurrences_app (a b : list str) :
  exists more, first_occurrences (a ++ b) = first_occurrences a ++ more.
Proof.
  induction b as [|c b (more & IH)] using rev_ind.
  - exists []. rewrite !app_nil_r. reflexivity.
  - rewrite app_assoc, first_occurrences_snoc, IH.
    destruct (existsb _ _).
    + exists more. reflexivity.
    + exists (more ++ [c]). rewrite app_assoc. reflexivity.
Qed.

Lemma events_app (a b : list str) : events (a ++ b) = events a ++ events b.
Proof. unfold events. apply flat_map_app. Qed.

Lemma scanned_firstn (max_lines : N) (lines : list str) :
  forall k i,
    scanned max_lines i (firstn k lines)
    = firstn k (scanned max_lines i lines).
Proof.
  induction lines as [|l lines IH]; intros k i.
  - rewrite firstn_nil. simpl. rewrite firstn_nil. reflexivity.
  - destruct k as [|k]; [reflexivity|]. simpl.
    destruct (max_lines <=? i)%N; [reflexivity|].
    simpl. rewrite IH. reflexivity.
Qed.

Lemma scanned_all (max_lines : N) (lines : list str) :
  forall i, (i + N.of_nat (length lines) <= max_lines)%N ->
            scanned max_lines i lines = lines.
Proof.
  induction lines as [|l lines IH]; intros i H; [reflexivity|].
  simpl. destruct (N.leb_spec max_lines i) as [Hle|Hlt].
  - simpl length in H. lia.
  - rewrite IH; [reflexivity | simpl length in H; lia].
Qed.

Lemma scanned_beyond_cap (max_lines : N) (pre post : list str) :
  forall i, (max_lines <= i + N.of_nat (length pre))%N ->
            scanned max_lines i (pre ++ post) = scanned max_lines i pre.
Proof.
  induction pre as [|l pre IH]; intros i H.
  - simpl in *. destruct post as [|l post]; [reflexivity|]. simpl.
    destruct (N.leb_spec max_lines i); [reflexivity | lia].
  - simpl. destruct (max_lines <=? i)%N; [reflexivity|].
    rewrite IH; [reflexivity | simpl length in H; lia].
Qed.

Section LoaderFacts.
Variable posix : datetime -> option Z.

Lemma load_by_steps (lines : list str) (max_lines : N) :
  load_cbs_log posix lines max_lines
  = (st <- steps posix (scanned max_lines 0 lines) initial_state ;;
     log_frequencies <-
       map_result (Dict.item Nat.eqb (frequencies st)) (error_codes st) ;;
     Ok (timestamps st, error_codes st, log_frequencies)).
Proof. unfold load_cbs_log, scan_file. rewrite scan_steps. reflexivity. Qed.

Lemma steps_value (ls : list str) (st : scan_state) :
  steps posix ls initial_state = Ok st ->
  (log_frequencies <-
     map_result (Dict.item Nat.eqb (frequencies st)) (error_codes st) ;;
   Ok (timestamps st, error_codes st, log_frequencies))
  = Ok (columns_of posix (events ls)).
Proof.
  intros Hst. pose proof (steps_invariant posix _ _ Hst) as Hinv.
  destruct (invariant_row_ids _ _ _ Hinv) as [_ Hids].
  fold (row_ids (events ls)) in Hids.
  rewrite (map_result_pointwise _ (count_occ Nat.eq_dec (row_ids (events ls)))).
  - simpl. rewrite (invariant_stamps _ _ _ (inv_times _ _ _ Hinv)), Hids.
    reflexivity.
  - intros id Hin. unfold Dict.item.
    rewrite (inv_freq _ _ _ Hinv). rewrite Hids in *.
    apply (count_occ_In Nat.eq_dec) in Hin.
    destruct (_ =? 0) eqn:E; [apply Nat.eqb_eq in E; lia | reflexivity].
Qed.

Lemma steps_raise_at (a b : list str) (l : str) :
  fails posix l = true ->
  forall st, steps posix (a ++ l :: b) st = Raise ValueError.
Proof.
  intros Hl. induction a as [|x a IH]; intros st.
  - simpl app. rewrite steps_cons, (scan_step_fails _ _ _ Hl).
    reflexivity.
  - simpl app. rewrite steps_cons.
    destruct (scan_step posix st x) as [s1|e] eqn:E; simpl; [apply IH|].
    rewrite (scan_step_raises_value_error _ _ _ _ E). reflexivity.
Qed.

(** The outcome of the loader, by whether the loop body raises on a
    scanned line. *)
Lemma load_outcome (lines : list str) (max_lines : N) :
  (existsb (fails posix) (scanned max_lines 0 lines) = true /\
   load_cbs_log posix lines max_lines = Raise ValueError)
  \/ (existsb (fails posix) (scanned max_lines 0 lines) = false /\
      load_cbs_log posix lines max_lines
      = Ok (columns_of posix (events (scanned max_lines 0 lines)))).
Proof.
  rewrite load_by_steps.
  destruct (existsb (fails posix) (scanned max_lines 0 lines)) eqn:E.
  - left. split; [reflexivity|].
    apply existsb_exists in E as (l & Hin & Hl).
    destruct (in_split _ _ Hin) as (a & b & ->).
    rewrite (steps_raise_at a b l Hl). reflexivity.
  - right. split; [reflexivity|].
    destruct (steps_total posix (scanned max_lines 0 lines) initial_state)
      as [st Hst].
    { intros l Hin. destruct (fails posix l) eqn:R; [|reflexivity].
      assert (existsb (fails posix) (scanned max_lines 0 lines) = true)
        by (apply existsb_exists; eauto).
      congruence. }
    rewrite Hst. simpl bind at 1. apply steps_value. exact Hst.
Qed.

End LoaderFacts.

Lemma row_ids_range (evs : list (datetime * str)) (id : nat) :
  In id (row_ids evs)
  <-> 1 <= id <= length (first_occurrences (map snd evs)).
Proof.
  unfold row_ids.
  destruct (first_occurrences_spec (map snd evs)) as [Hnd Hin].
  split.
  - intros H. apply in_map_iff in H as (c & <- & Hc).
    apply Hin in Hc. pose proof (position_lt _ _ Hc). lia.
  - intros [H1 Hn].
    destruct (nth_error (first_occurrences (map snd evs)) (id - 1))
      as [c|] eqn:E.
    + apply in_map_iff. exists c. split.
      * rewrite (position_nth _ Hnd _ _ E). lia.
      * apply Hin. exact (nth_error_In _ _ E).
    + apply nth_error_None in E. lia.
Qed.

Lemma row_ids_nth (evs : list (datetime * str)) (i : nat) (c : str) :
  nth_error (map snd evs) i = Some c ->
  nth_error (row_ids evs) i
  = Some (1 + position c (first_occurrences (map snd evs))).
Proof. intros H. unfold row_ids. rewrite nth_error_map, H. reflexivity. Qed.

Lemma row_id_injective (evs : list (datetime * str)) (c c' : str) :
  In c (map snd evs) -> In c' (map snd evs) ->
  position c (first_occurrences (map snd evs))
  = position c' (first_occurrences (map snd evs)) ->
  c = c'.
Proof.
  intros Hc Hc' Heq.
  destruct (first_occurrences_spec (map snd evs)) as [_ Hin].
  apply Hin in Hc, Hc'.
  pose proof (nth_position _ _ Hc) as H1.
  pose proof (nth_position _ _ Hc') as H2.
  rewrite Heq in H1. congruence.
Qed.

Lemma count_occ_map_on (f : str -> nat) (l : list str) (c : str) :
  (forall x, In x l -> f x = f c -> x = c) ->
  count_occ Nat.eq_dec (map f l) (f c) = count_occ str_dec l c.
Proof.
  induction l as [|x l IH]; intros H; [reflexivity|].
  simpl. destruct (str_dec x c) as [->|Hne].
  - destruct (Nat.eq_dec (f c) (f c)); [|contradiction].
    rewrite IH; [reflexivity|]. intros y Hy. apply H. right. exact Hy.
  - destruct (Nat.eq_dec (f x) (f c)) as [Heq|_].
    + exfalso. apply Hne. apply H; [left; reflexivity | exact Heq].
    + apply IH. intros y Hy. apply H. right. exact Hy.
Qed.

Lemma row_ids_app (a b : list (datetime * str)) :
  exists rest, row_ids (a ++ b) = row_ids a ++ rest.
Proof.
  unfold row_ids. rewrite !map_app.
  destruct (first_occurrences_app (map snd a) (map snd b)) as (more & ->).
  eexists. f_equal. apply map_ext_in. intros c Hc.
  rewrite position_app; [reflexivity|].
  apply (proj2 (first_occurrences_spec (map snd a))). exact Hc.
Qed.

Lemma load_ok_columns (posix : datetime -> option Z) (lines : list str)
  (max_lines : N) (out : list Z * list nat * list nat) :
  load_cbs_log posix lines max_lines = Ok out ->
  existsb (fails posix) (scanned max_lines 0 lines) = false /\
  out = columns_of posix (events (scanned max_lines 0 lines)).
Proof.
  intros H. destruct (load_outcome posix lines max_lines) as [[_ E]|[R E]];
    rewrite E in H; [discriminate|].
  inversion H. auto.
Qed.

(** ** C9: two runs of the loader *)

Lemma in_events (ls : list str) (ev : datetime * str) :
  In ev (events ls)
  <-> exists line, In line ls /\ parse_log_line line = Ok (Some ev).
Proof.
  unfold events. rewrite in_flat_map. split.
  - intros (line & Hin & Hev). exists line. split; [exact Hin|].
    destruct (parse_log_line line) as [[ev'|]|e]; try destruct Hev.
    + subst. reflexivity.
    + destruct H.
  - intros (line & Hin & Hev). exists line. split; [exact Hin|].
    rewrite Hev. left. reflexivity.
Qed.

(** Two conversions that agree on the timestamps of the events fail on
    the same lines and give the same seconds. *)
Lemma fails_agree (posix1 posix2 : datetime -> option Z) (ls : list str) :
  (forall ev, In ev (events ls) -> posix1 (fst ev) = posix2 (fst ev)) ->
  existsb (fails posix1) ls = existsb (fails posix2) ls.
Proof.
  induction ls as [|l ls IH]; intros H; [reflexivity|].
  simpl. rewrite IH.
  - f_equal. unfold fails.
    destruct (parse_log_line l) as [[[ts c]|]|e] eqn:P; try reflexivity.
    assert (Hc : posix1 ts = posix2 ts).
    { apply (H (ts, c)). apply in_events.
      exists l. split; [left; reflexivity | exact P]. }
    rewrite Hc. reflexivity.
  - intros ev Hev. apply H. apply in_events.
    apply in_events in Hev as (line & Hin & Hp).
    exists line. split; [right; exact Hin | exact Hp].
Qed.

Lemma stamps_agree (posix1 posix2 : datetime -> option Z)
  (evs : list (datetime * str)) :
  (forall ev, In ev evs -> posix1 (fst ev) = posix2 (fst ev)) ->
  stamps posix1 evs = stamps posix2 evs.
Proof.
  unfold stamps. induction evs as [|ev evs IH]; intros H; [reflexivity|].
  simpl. rewrite (H ev (or_introl eq_refl)), IH; [reflexivity|].
  intros ev' Hev'. apply H. right. exact Hev'.
Qed.

(** When nothing fails every event has its seconds. *)
Lemma stamps_length (posix : datetime -> option Z) (ls : list str) :
  existsb (fails posix) ls = false ->
  length (stamps posix (events ls)) = length (events ls).
Proof.
  induction ls as [|l ls IH]; intros H; [reflexivity|].
  simpl in H. apply orb_false_elim in H as [Hl Hls].
  change (l :: ls) with ([l] ++ ls).
  rewrite events_app. unfold stamps in *.
  rewrite flat_map_app, !length_app, (IH Hls). f_equal.
  unfold events, fails in *. simpl.
  destruct (parse_log_line l) as [[[ts c]|]|e] eqn:P; try reflexivity.
  rewrite (parse_code_nonempty _ _ _ P) in Hl. simpl.
  destruct (posix ts); [reflexivity | discriminate].
Qed.

(** C9, as the code has it.  The loader reads, besides the lines and the
    cap, the local time zone of the machine, through the conversion of
    each event's timestamp to seconds; [posix1] and [posix2] are the
    conversions in force in two runs on the same lines with the same
    cap.  When the two conversions agree on the timestamps of the scanned
    events, the two runs end in the same outcome: the same three
    sequences, hence the same stacked matrix, or an exception in both.
    Whatever the two conversions are, two runs that both return give the
    same ID sequence and the same frequency sequence, and as many
    timestamps. *)
Theorem load_cbs_log_deterministic
  (posix1 posix2 : datetime -> option Z) (lines : list str)
  (max_lines : N) :
  ((forall ev, In ev (events (scanned max_lines 0 lines)) ->
               posix1 (fst ev) = posix2 (fst ev)) ->
   load_cbs_log posix1 lines max_lines
   = load_cbs_log posix2 lines max_lines /\
   (o <- load_cbs_log posix1 lines max_lines ;;
    column_stack (fst (fst o)) (snd (fst o)) (snd o))
   = (o <- load_cbs_log posix2 lines max_lines ;;
      column_stack (fst (fst o)) (snd (fst o)) (snd o)))
  /\ (forall ts1 ids1 fr1 ts2 ids2 fr2,
        load_cbs_log posix1 lines max_lines = Ok (ts1, ids1, fr1) ->
        load_cbs_log posix2 lines max_lines = Ok (ts2, ids2, fr2) ->
        ids1 = ids2 /\ fr1 = fr2 /\ length ts1 = length ts2).
Proof.
  split.
  - intros Hagree.
    assert (Heq : load_cbs_log posix1 lines max_lines
                  = load_cbs_log posix2 lines max_lines).
    { pose proof (fails_agree _ _ _ Hagree) as Hf.
      destruct (load_outcome posix1 lines max_lines) as [[R1 E1]|[R1 E1]];
        destruct (load_outcome posix2 lines max_lines) as [[R2 E2]|[R2 E2]];
        rewrite E1, E2; try congruence.
      unfold columns_of. rewrite (stamps_agree _ _ _ Hagree). reflexivity. }
    split; [exact Heq | rewrite Heq; reflexivity].
  - intros ts1 ids1 fr1 ts2 ids2 fr2 H1 H2.
    destruct (load_ok_columns _ _ _ _ H1) as [R1 E1].
    destruct (load_ok_columns _ _ _ _ H2) as [R2 E2].
    unfold columns_of in E1, E2. inversion E1; inversion E2; subst.
    repeat split.
    rewrite (stamps_length _ _ R1), (stamps_length _ _ R2). reflexivity.
Qed.

Lemma load_cbs_log_deterministic_witness :
  (forall ev, In ev (events (scanned 3 0 Samples.small_log)) ->
              timestamp_utc (fst ev) = timestamp_summer_time (fst ev)) /\
  load_cbs_log timestamp_utc Samples.small_log 3
  = load_cbs_log timestamp_summer_time Samples.small_log 3 /\
  ([1; 2; 1; 3] = [1; 2; 1; 3] /\ [2; 1; 2; 1] = [2; 1; 2; 1] /\
   length [1704103200; 1704103202; 1704103203; 1704103204]%Z
   = length [1704099600; 1704099602; 1704099603; 1704099604]%Z).
Proof.
  assert (H : forall ev, In ev (events (scanned 3 0 Samples.small_log)) ->
                timestamp_utc (fst ev) = timestamp_summer_time (fst ev)).
  { intros ev Hev. vm_compute in Hev.
    repeat (destruct Hev as [<-|Hev]; [reflexivity|]). destruct Hev. }
  split; [exact H|]. split.
  - exact (proj1 (proj1 (load_cbs_log_deterministic timestamp_utc
                           timestamp_summer_time Samples.small_log 3) H)).
  - exact (proj2 (load_cbs_log_deterministic (timestamp_fixed_zone 0)
                    (timestamp_fixed_zone 3600) Samples.small_log
                    default_max_lines)
             _ _ _ _ _ _ eq_refl eq_refl).
Defined.

(** C9 as stated fails: with the same lines and the same cap, a run in a
    zone at UTC and a run in a zone one hour east of it return different
    timestamp sequences; and on an event in the last second of the year
    9999 the first returns while a run nine hours east of UTC raises. *)
Lemma load_cbs_log_depends_on_time_zone :
  load_cbs_log (timestamp_fixed_zone 0) Samples.two_events
    default_max_lines
  = Ok ([1704103200; 1704103202]%Z, [1; 2], [1; 1]) /\
  load_cbs_log (timestamp_fixed_zone 3600) Samples.two_events
    default_max_lines
  = Ok ([1704099600; 1704099602]%Z, [1; 2], [1; 1]) /\
  load_cbs_log (timestamp_fixed_zone 0) [Samples.last_second]
    default_max_lines
  = Ok ([253402300799]%Z, [1], [1]) /\
  load_cbs_log (timestamp_fixed_zone 32400) [Samples.last_second]
    default_max_lines
  = Raise ValueError.
Proof. repeat split; reflexivity. Qed.

(** An event in the first day of the year 1 stops the loader, though the
    parser accepts the line. *)
Example load_first_day :
  parse_log_line Samples.first_day
  = Ok (Some ({| year := 1; month := 1; day := 1;
                 hour := 0; minute := 0; second := 0 |}, chars "Error")) /\
  load_cbs_log timestamp_utc [Samples.first_day] default_max_lines
  = Raise ValueError.
Proof. split; reflexivity. Qed.

(** ** C1: a log without events *)

Lemma steps_all_skip (posix : datetime -> option Z) (ls : list str) :
  forall st, (forall l, In l ls -> parse_log_line l = Ok None) ->
             steps posix ls st = Ok st.
Proof.
  induction ls as [|l ls IH]; intros st H; [reflexivity|].
  rewrite steps_cons, (scan_step_skip _ _ _ (H l (or_introl eq_refl))).
  simpl. apply IH. intros l' Hl'. apply H. right. exact Hl'.
Qed.

(** C1, as the code has it.  When no scanned line yields an event,
    [load_cbs_log] returns three empty sequences and the stacking returns
    a matrix without rows: nothing is raised at the feature-building
    boundary.  The pipeline goes on to the standardisation, and it is the
    scaler's refusal of the empty matrix that ends the run. *)
Theorem empty_log_reaches_standardization
  (posix : datetime -> option Z) (shuffle : nat -> list nat) (lines : list str) :
  (forall line, In line (scanned default_max_lines 0 lines) ->
                parse_log_line line = Ok None) ->
  load_cbs_log posix lines default_max_lines = Ok ([], [], []) /\
  build_features posix lines = Ok [] /\
  run_pipeline posix shuffle lines
  = ([FeatureBuilding; Standardization], Raise ValueError).
Proof.
  intros H.
  assert (Hload : load_cbs_log posix lines default_max_lines
                  = Ok ([], [], [])).
  { unfold load_cbs_log, scan_file.
    rewrite scan_steps, (steps_all_skip posix _ _ H). reflexivity. }
  assert (Hbuild : build_features posix lines = Ok []).
  { unfold build_features. rewrite Hload. reflexivity. }
  repeat split; auto.
  unfold run_pipeline. rewrite Hbuild. reflexivity.
Qed.

Lemma empty_log_reaches_standardization_witness :
  run_pipeline timestamp_utc (seq 0) [Samples.info_line; Samples.plain_line]
  = ([FeatureBuilding; Standardization], Raise ValueError).
Proof.
  refine (proj2 (proj2 (empty_log_reaches_standardization timestamp_utc
                          (seq 0) [Samples.info_line; Samples.plain_line] _))).
  intros line H. vm_compute in H.
  repeat (destruct H as [<-|H]; [reflexivity|]). destruct H.
Defined.

(** C1 as stated fails: on a log whose only line holds no marker, the
    feature building returns normally and the standardisation stage is
    entered. *)
Lemma empty_log_not_stopped_at_feature_building :
  build_features timestamp_utc [Samples.info_line] = Ok [] /\
  fst (run_pipeline timestamp_utc (seq 0) [Samples.info_line])
  = [FeatureBuilding; Standardization].
Proof. split; reflexivity. Qed.

(** ** Rounding to float64 is monotone and accurate *)

Section Float64Facts.
Import Float64.
Local Open Scope Q_scope.

Lemma pow2_pos (e : Z) : 0 < 2 ^ e.
Proof. apply Qpower_0_lt. reflexivity. Qed.

Lemma pow2_plus (a b : Z) : 2 ^ (a + b) == 2 ^ a * 2 ^ b.
Proof. apply Qpower_plus. discriminate. Qed.

Lemma pow2_succ (a : Z) : 2 ^ (a + 1) == 2 * 2 ^ a.
Proof. rewrite pow2_plus. change (2 ^ 1) with 2. ring. Qed.

Lemma pow2_le (a b : Z) : (a <= b)%Z -> 2 ^ a <= 2 ^ b.
Proof. intros H. apply Qpower_le_compat_l; [exact H | discriminate]. Qed.

Lemma pow2_inject (n : Z) : (0 <= n)%Z -> inject_Z (2 ^ n) == 2 ^ n.
Proof. intros H. rewrite Zpower_Qpower by exact H. reflexivity. Qed.

Lemma positive_num (x : Q) : 0 < x <-> (0 < Qnum x)%Z.
Proof. unfold Qlt. simpl. rewrite Z.mul_1_r. reflexivity. Qed.

Lemma as_fraction (x : Q) : x == inject_Z (Qnum x) / inject_Z (Zpos (Qden x)).
Proof.
  destruct x as [p q]. simpl. unfold Qeq, Qdiv, Qmult, Qinv, inject_Z. simpl.
  lia.
Qed.

Lemma exponent_spec (x : Q) :
  0 < x -> 2 ^ exponent x <= x /\ x < 2 ^ (exponent x + 1).
Proof.
  intros Hx. pose proof (proj1 (positive_num x) Hx) as Hp.
  unfold exponent.
  set (lp := Z.log2 (Qnum x)). set (lq := Z.log2 (Zpos (Qden x))).
  destruct (Z.log2_spec (Qnum x) Hp) as [Hp1 Hp2]. fold lp in Hp1, Hp2.
  destruct (Z.log2_spec (Zpos (Qden x)) ltac:(lia)) as [Hq1 Hq2].
  fold lq in Hq1, Hq2.
  assert (Hlp : (0 <= lp)%Z) by apply Z.log2_nonneg.
  assert (Hlq : (0 <= lq)%Z) by apply Z.log2_nonneg.
  rewrite Zle_Qle, pow2_inject in Hp1, Hq1 by lia.
  rewrite Zlt_Qlt, pow2_inject in Hp2, Hq2 by lia.
  replace (Z.succ lp) with (lp + 1)%Z in Hp2 by lia.
  replace (Z.succ lq) with (lq + 1)%Z in Hq2 by lia.
  rewrite pow2_succ in Hp2, Hq2.
  set (P := inject_Z (Qnum x)) in *. set (D := inject_Z (Zpos (Qden x))) in *.
  assert (HD : 0 < D).
  { unfold D. change 0 with (inject_Z 0). rewrite <- Zlt_Qlt. lia. }
  assert (Hxd : x * D == P).
  { rewrite (as_fraction x) at 1. fold P D. field. lra. }
  pose proof (pow2_pos lp) as Hlp0. pose proof (pow2_pos lq) as Hlq0.
  pose proof (pow2_pos (lp - lq)) as He0.
  assert (He : 2 ^ (lp - lq) * 2 ^ lq == 2 ^ lp).
  { rewrite <- pow2_plus. replace (lp - lq + lq)%Z with lp by lia.
    reflexivity. }
  destruct (Qle_bool (2 ^ (lp - lq)) x) eqn:E.
  - apply Qle_bool_iff in E. split; [exact E|].
    rewrite pow2_succ.
    assert (x * D < 2 * 2 ^ (lp - lq) * D) by nra.
    nra.
  - assert (Hlt : x < 2 ^ (lp - lq)).
    { apply Qnot_le_lt. intros Hle. apply Qle_bool_iff in Hle. congruence. }
    replace (lp - lq - 1 + 1)%Z with (lp - lq)%Z by lia.
    split; [|exact Hlt].
    assert (Hh : 2 * 2 ^ (lp - lq - 1) == 2 ^ (lp - lq)).
    { rewrite <- pow2_succ. replace (lp - lq - 1 + 1)%Z with (lp - lq)%Z by lia.
      reflexivity. }
    pose proof (pow2_pos (lp - lq - 1)) as Hm0.
    assert (2 ^ (lp - lq - 1) * D <= x * D) by nra.
    nra.
Qed.

Lemma exponent_mono (x y : Q) :
  0 < x -> x <= y -> (exponent x <= exponent y)%Z.
Proof.
  intros Hx Hxy.
  destruct (exponent_spec x Hx) as [X1 X2].
  destruct (exponent_spec y ltac:(lra)) as [Y1 Y2].
  destruct (Z.le_gt_cases (exponent x) (exponent y)) as [H|H]; [exact H|].
  exfalso. pose proof (pow2_le (exponent y + 1) (exponent x) ltac:(lia)). lra.
Qed.

Lemma nearest_even_cases (x : Q) :
  (nearest_even x = Qfloor x /\ x - inject_Z (Qfloor x) <= 1 # 2)
  \/ (nearest_even x = (Qfloor x + 1)%Z /\ 1 # 2 <= x - inject_Z (Qfloor x)).
Proof.
  unfold nearest_even.
  destruct (Qcompare (x - inject_Z (Qfloor x)) (1 # 2)) eqn:E.
  - apply Qeq_alt in E. destruct (Z.even (Qfloor x)); [left | right];
      split; try reflexivity; lra.
  - apply Qlt_alt in E. left. split; [reflexivity | lra].
  - apply Qgt_alt in E. right. split; [reflexivity | lra].
Qed.

Lemma nearest_even_error (x : Q) :
  - (1 # 2) <= inject_Z (nearest_even x) - x /\
  inject_Z (nearest_even x) - x <= 1 # 2.
Proof.
  pose proof (Qfloor_le x) as Hf. pose proof (Qlt_floor x) as Hc.
  rewrite inject_Z_plus in Hc. change (inject_Z 1) with 1 in Hc.
  destruct (nearest_even_cases x) as [[-> H]|[-> H]].
  - split; lra.
  - rewrite inject_Z_plus. change (inject_Z 1) with 1. split; lra.
Qed.

Lemma nearest_even_integer (z : Z) : nearest_even (inject_Z z) = z.
Proof.
  unfold nearest_even. rewrite Qfloor_Z.
  assert (H : Qcompare (inject_Z z - inject_Z z) (1 # 2) = Lt).
  { rewrite <- Qlt_alt. lra. }
  rewrite H. reflexivity.
Qed.

Lemma nearest_even_mono (x y : Q) :
  x <= y -> (nearest_even x <= nearest_even y)%Z.
Proof.
  intros Hxy.
  pose proof (Qfloor_resp_le _ _ Hxy) as Hfl.
  pose proof (Qfloor_le x) as Hfx. pose proof (Qlt_floor x) as Hcx.
  pose proof (Qfloor_le y) as Hfy. pose proof (Qlt_floor y) as Hcy.
  destruct (Z.eq_dec (Qfloor x) (Qfloor y)) as [Heq|Hne].
  - unfold nearest_even. rewrite <- Heq.
    destruct (Qcompare_spec (x - inject_Z (Qfloor x)) (1 # 2)) as [Ex|Ex|Ex];
      destruct (Qcompare_spec (y - inject_Z (Qfloor x)) (1 # 2))
        as [Ey|Ey|Ey];
      try (exfalso; lra); destruct (Z.even (Qfloor x)); lia.
  - assert (Hlt : (Qfloor x + 1 <= Qfloor y)%Z) by lia.
    destruct (nearest_even_cases x) as [[-> _]|[-> _]];
      destruct (nearest_even_cases y) as [[-> _]|[-> _]]; lia.
Qed.

Lemma nearest_even_between (a b : Z) (x : Q) :
  inject_Z a <= x -> x <= inject_Z b ->
  (a <= nearest_even x <= b)%Z.
Proof.
  intros Ha Hb. split.
  - rewrite <- (nearest_even_integer a). apply nearest_even_mono. exact Ha.
  - rewrite <- (nearest_even_integer b). apply nearest_even_mono. exact Hb.
Qed.

(** The scaled significand of a positive number lies between 2^52 and
    2^53. *)
Lemma significand_range (x : Q) :
  0 < x ->
  inject_Z (2 ^ 52) <= x * 2 ^ (52 - exponent x) /\
  x * 2 ^ (52 - exponent x) <= inject_Z (2 ^ 53).
Proof.
  intros Hx. destruct (exponent_spec x Hx) as [E1 E2].
  set (e := exponent x) in *.
  rewrite !pow2_inject by lia.
  pose proof (pow2_pos (52 - e)) as Hs.
  assert (H52 : 2 ^ e * 2 ^ (52 - e) == 2 ^ 52).
  { rewrite <- pow2_plus. replace (e + (52 - e))%Z with 52%Z by lia.
    reflexivity. }
  assert (H53 : 2 ^ (e + 1) * 2 ^ (52 - e) == 2 ^ 53).
  { rewrite <- pow2_plus. replace (e + 1 + (52 - e))%Z with 53%Z by lia.
    reflexivity. }
  split; nra.
Qed.

Lemma scale_back (e : Z) : 2 ^ (52 - e) * 2 ^ (e - 52) == 1.
Proof.
  rewrite <- pow2_plus. replace (52 - e + (e - 52))%Z with 0%Z by lia.
  reflexivity.
Qed.

Lemma round_positive_error (x : Q) :
  0 < x ->
  x * (1 - unit_roundoff) <= round_positive x /\
  round_positive x <= x * (1 + unit_roundoff).
Proof.
  intros Hx. destruct (exponent_spec x Hx) as [E1 _].
  unfold round_positive. set (e := exponent x) in *.
  destruct (nearest_even_error (x * 2 ^ (52 - e))) as [N1 N2].
  set (m := inject_Z (nearest_even (x * 2 ^ (52 - e)))) in *.
  pose proof (scale_back e) as Hsb.
  pose proof (pow2_pos (52 - e)) as Hs. pose proof (pow2_pos (e - 52)) as Hi.
  set (S := 2 ^ (52 - e)) in *. set (I := 2 ^ (e - 52)) in *.
  assert (Hu : I * 2 ^ 52 == 2 ^ e).
  { unfold I. rewrite <- pow2_plus. replace (e - 52 + 52)%Z with e by lia.
    reflexivity. }
  assert (Hhalf : (1 # 2) * I <= x * unit_roundoff).
  { unfold unit_roundoff.
    assert (H52 : 2 ^ 52 == 4503599627370496) by reflexivity.
    rewrite H52 in Hu.
    assert (Hq : x * (1 # 9007199254740992)
                 == x * (1 # 4503599627370496) * (1 # 2)) by ring.
    rewrite Hq.
    assert (I <= x * (1 # 4503599627370496)); [|lra].
    assert (Hq2 : I == I * 4503599627370496 * (1 # 4503599627370496))
      by (field).
    rewrite Hq2. rewrite Hu. nra. }
  assert (Hx' : x == x * S * I).
  { rewrite <- Qmult_assoc, Hsb. ring. }
  assert (Hd : m * I - x == (m - x * S) * I).
  { rewrite Hx' at 1. ring. }
  split; nra.
Qed.

Lemma round_positive_range (x : Q) :
  0 < x ->
  2 ^ exponent x <= round_positive x /\
  round_positive x <= 2 ^ (exponent x + 1).
Proof.
  intros Hx. destruct (significand_range x Hx) as [S1 S2].
  unfold round_positive. set (e := exponent x) in *.
  destruct (nearest_even_between _ _ _ S1 S2) as [M1 M2].
  rewrite Zle_Qle in M1, M2. rewrite !pow2_inject in M1, M2 by lia.
  pose proof (pow2_pos (e - 52)) as Hi.
  assert (H1 : 2 ^ 52 * 2 ^ (e - 52) == 2 ^ e).
  { rewrite <- pow2_plus. replace (52 + (e - 52))%Z with e by lia.
    reflexivity. }
  assert (H2 : 2 ^ 53 * 2 ^ (e - 52) == 2 ^ (e + 1)).
  { rewrite <- pow2_plus. replace (53 + (e - 52))%Z with (e + 1)%Z by lia.
    reflexivity. }
  split; nra.
Qed.

Lemma round_positive_mono (x y : Q) :
  0 < x -> x <= y -> round_positive x <= round_positive y.
Proof.
  intros Hx Hxy. assert (Hy : 0 < y) by lra.
  pose proof (exponent_mono x y Hx Hxy) as He.
  destruct (Z.eq_dec (exponent x) (exponent y)) as [Heq|Hne].
  - unfold round_positive. rewrite Heq.
    pose proof (pow2_pos (52 - exponent y)) as Hs.
    pose proof (pow2_pos (exponent y - 52)) as Hi.
    assert (Hm : (nearest_even (x * 2 ^ (52 - exponent y))
                  <= nearest_even (y * 2 ^ (52 - exponent y)))%Z).
    { apply nearest_even_mono. nra. }
    rewrite Zle_Qle in Hm. nra.
  - destruct (round_positive_range x Hx) as [_ X2].
    destruct (round_positive_range y Hy) as [Y1 _].
    pose proof (pow2_le (exponent x + 1) (exponent y) ltac:(lia)). lra.
Qed.

Lemma sign_cases (x : Q) :
  (Qnum x = 0%Z /\ x == 0)
  \/ (exists p, Qnum x = Zpos p /\ 0 < x)
  \/ (exists p, Qnum x = Zneg p /\ x < 0).
Proof.
  destruct x as [[|p|p] q].
  - left. split; reflexivity.
  - right. left. exists p. split; reflexivity.
  - right. right. exists p. split; reflexivity.
Qed.

Lemma round_of_positive (x : Q) : 0 < x -> round x = round_positive x.
Proof.
  intros H. unfold round.
  destruct (sign_cases x) as [[_ E]|[(p & -> & _)|(p & _ & E)]];
    [lra | reflexivity | lra].
Qed.

Lemma round_of_negative (x : Q) : x < 0 -> round x = - round_positive (- x).
Proof.
  intros H. unfold round.
  destruct (sign_cases x) as [[_ E]|[(p & _ & E)|(p & -> & _)]];
    [lra | lra | reflexivity].
Qed.

Lemma round_of_zero (x : Q) : x == 0 -> round x = 0.
Proof.
  intros H. unfold round.
  destruct (sign_cases x) as [[-> _]|[(p & _ & E)|(p & _ & E)]];
    [reflexivity | lra | lra].
Qed.

Lemma round_positive_pos (x : Q) : 0 < x -> 0 < round_positive x.
Proof.
  intros H. destruct (round_positive_range x H) as [R1 _].
  pose proof (pow2_pos (exponent x)). lra.
Qed.

(** Rounding is monotone. *)
Lemma round_mono (x y : Q) : x <= y -> round x <= round y.
Proof.
  intros Hxy.
  destruct (Q_dec x 0) as [[Hx|Hx]|Hx]; destruct (Q_dec y 0) as [[Hy|Hy]|Hy];
    try (exfalso; lra).
  - rewrite (round_of_negative x Hx), (round_of_negative y Hy).
    assert (round_positive (- y) <= round_positive (- x));
      [apply round_positive_mono; lra | lra].
  - rewrite (round_of_negative x Hx), (round_of_positive y Hy).
    pose proof (round_positive_pos (- x) ltac:(lra)).
    pose proof (round_positive_pos y Hy). lra.
  - rewrite (round_of_negative x Hx), (round_of_zero y Hy).
    pose proof (round_positive_pos (- x) ltac:(lra)). lra.
  - rewrite (round_of_positive x Hx), (round_of_positive y Hy).
    apply round_positive_mono; assumption.
  - rewrite (round_of_zero x Hx), (round_of_positive y Hy).
    pose proof (round_positive_pos y Hy). lra.
  - rewrite (round_of_zero x Hx), (round_of_zero y Hy). lra.
Qed.

Lemma round_equal (x y : Q) : x == y -> round x == round y.
Proof.
  intros H. apply Qle_antisym; apply round_mono; lra.
Qed.

(** The relative error of rounding a number that is not negative. *)
Lemma round_error (x : Q) :
  0 <= x ->
  x * (1 - unit_roundoff) <= round x /\ round x <= x * (1 + unit_roundoff).
Proof.
  intros H. destruct (Q_dec x 0) as [[Hx|Hx]|Hx]; [lra| |].
  - rewrite (round_of_positive x Hx). apply round_positive_error. exact Hx.
  - rewrite (round_of_zero x Hx). rewrite Hx. split; lra.
Qed.

Lemma round_error_abs (x : Q) :
  Qabs (round x - x) <= Qabs x * unit_roundoff.
Proof.
  assert (Hu : 0 <= unit_roundoff) by discriminate.
  destruct (Q_dec x 0) as [[Hx|Hx]|Hx].
  - rewrite (round_of_negative x Hx).
    destruct (round_positive_error (- x) ltac:(lra)) as [E1 E2].
    rewrite (Qabs_neg x) by lra.
    apply Qabs_Qle_condition. split; lra.
  - destruct (round_error x ltac:(lra)) as [E1 E2].
    rewrite (Qabs_pos x) by lra.
    apply Qabs_Qle_condition. split; lra.
  - rewrite (round_of_zero x Hx). rewrite Hx. discriminate.
Qed.

End Float64Facts.
Section Float64Percentile.
Import Scorer.
Local Open Scope Q_scope.

Lemma abs_bounds (x : Q) : - Qabs x <= x /\ x <= Qabs x.
Proof.
  split; [|apply Qle_Qabs].
  pose proof (Qle_Qabs (- x)) as H. rewrite Qabs_opp in H. lra.
Qed.

(** The rounded virtual index of the 95th percentile. *)
Lemma float64_index (n : nat) :
  let z := inject_Z (Z.of_nat (n - 1)) in
  let h := virtual_index float64 n 95 in
  z * (95 / 100) * (1 - tolerance) <= h /\
  h <= z * (95 / 100) * (1 + tolerance) /\
  h <= z.
Proof.
  intros z h.
  assert (Hz : 0 <= z).
  { unfold z. change 0 with (inject_Z 0). rewrite <- Zle_Qle. lia. }
  assert (Hq : 95 / 100 == 95 # 100) by reflexivity.
  destruct (round_error (95 / 100) ltac:(discriminate)) as [C1 C2].
  set (c := Float64.round (95 / 100)) in *.
  rewrite Hq in C1, C2.
  assert (Hc : 0 <= c) by (unfold Float64.unit_roundoff in C1; lra).
  assert (Hzc : 0 <= z * c) by (apply Qmult_le_0_compat; assumption).
  destruct (round_error (z * c) Hzc) as [H1 H2].
  change (Float64.round (z * c)) with h in H1, H2.
  rewrite Hq. unfold tolerance. unfold Float64.unit_roundoff in *.
  assert (P1 : z * ((95 # 100) * (1 - (1 # 9007199254740992))) <= z * c)
    by nra.
  assert (P2 : z * c <= z * ((95 # 100) * (1 + (1 # 9007199254740992))))
    by nra.
  repeat split; lra.
Qed.

(** The rounded interpolation between two float64 values. *)
Lemma float64_interpolate (a b g : Q) :
  Float64.round a == a -> Float64.round b == b ->
  a <= b -> 0 <= g -> g < 1 ->
  a <= interpolate float64 a b g /\
  interpolate float64 a b g <= b /\
  Qabs (interpolate float64 a b g - (a + (b - a) * g))
  <= tolerance * (Qabs a + Qabs b).
Proof.
  intros Ra Rb Hab Hg0 Hg1.
  destruct (abs_bounds a) as [A1 A2]. destruct (abs_bounds b) as [B1 B2].
  pose proof (Qabs_nonneg a) as A0. pose proof (Qabs_nonneg b) as B0.
  set (M := Qabs a + Qabs b) in *.
  destruct (round_error (b - a) ltac:(lra)) as [D1 D2].
  cbn [float64 interpolate]. cbv zeta.
  set (d := Float64.round (b - a)) in *.
  set (D := b - a) in *.
  assert (HD : 0 <= D) by (unfold D; lra).
  assert (HDM : D <= M) by (unfold D, M; lra).
  unfold tolerance. unfold Float64.unit_roundoff in D1, D2.
  assert (Hd : 0 <= d) by nra.
  destruct (Qle_bool (1 # 2) g) eqn:E.
  - apply Qle_bool_iff in E.
    assert (Hw0 : 0 <= 1 - g) by lra.
    destruct (round_error (1 - g) Hw0) as [W1 W2].
    set (w := Float64.round (1 - g)) in *.
    unfold Float64.unit_roundoff in W1, W2.
    assert (Hw : 0 <= w) by nra.
    assert (Hdw : 0 <= d * w) by (apply Qmult_le_0_compat; assumption).
    destruct (round_error (d * w) Hdw) as [Q1 Q2].
    set (q := Float64.round (d * w)) in *.
    unfold Float64.unit_roundoff in Q1, Q2.
    set (X := D * (1 - g)).
    assert (HX0 : 0 <= X) by (unfold X; nra).
    assert (HX1 : X <= D * (1 # 2)) by (unfold X; nra).
    assert (Hdw1 : X * ((1 - (1 # 9007199254740992))
                        * (1 - (1 # 9007199254740992))) <= d * w).
    { unfold X. nra. }
    assert (Hdw2 : d * w <= X * ((1 + (1 # 9007199254740992))
                                 * (1 + (1 # 9007199254740992)))).
    { unfold X. nra. }
    assert (Hq0 : 0 <= q) by lra.
    assert (Hs1 : a <= b - q) by (unfold D in *; lra).
    assert (Hs2 : b - q <= b) by lra.
    pose proof (round_mono _ _ Hs1) as R1.
    pose proof (round_mono _ _ Hs2) as R2.
    rewrite Ra in R1. rewrite Rb in R2.
    pose proof (round_error_abs (b - q)) as Hr.
    set (r := Float64.round (b - q)) in *.
    assert (HsM : Qabs (b - q) <= M).
    { apply Qabs_Qle_condition. unfold M. split; lra. }
    unfold Float64.unit_roundoff in Hr.
    assert (Hr' : Qabs (r - (b - q)) <= M * (1 # 9007199254740992)) by lra.
    apply Qabs_Qle_condition in Hr'. destruct Hr' as [Hr1 Hr2].
    split; [exact R1|]. split; [exact R2|].
    apply Qabs_Qle_condition.
    assert (HE : a + D * g == b - X) by (unfold X, D; ring).
    rewrite HE. split; lra.
  - assert (Hg : g < 1 # 2).
    { apply Qnot_le_lt. intros Hle. apply Qle_bool_iff in Hle. congruence. }
    assert (Hdg : 0 <= d * g) by (apply Qmult_le_0_compat; assumption).
    destruct (round_error (d * g) Hdg) as [P1 P2].
    set (p := Float64.round (d * g)) in *.
    unfold Float64.unit_roundoff in P1, P2.
    set (X := D * g).
    assert (HX0 : 0 <= X) by (unfold X; nra).
    assert (HX1 : X <= D * (1 # 2)) by (unfold X; nra).
    assert (Hdg1 : X * (1 - (1 # 9007199254740992)) <= d * g).
    { unfold X. nra. }
    assert (Hdg2 : d * g <= X * (1 + (1 # 9007199254740992))).
    { unfold X. nra. }
    assert (Hp0 : 0 <= p) by lra.
    assert (Hs1 : a <= a + p) by lra.
    assert (Hs2 : a + p <= b) by (unfold D in *; lra).
    pose proof (round_mono _ _ Hs1) as R1.
    pose proof (round_mono _ _ Hs2) as R2.
    rewrite Ra in R1. rewrite Rb in R2.
    pose proof (round_error_abs (a + p)) as Hr.
    set (r := Float64.round (a + p)) in *.
    assert (HsM : Qabs (a + p) <= M).
    { apply Qabs_Qle_condition. unfold M. split; lra. }
    unfold Float64.unit_roundoff in Hr.
    assert (Hr' : Qabs (r - (a + p)) <= M * (1 # 9007199254740992)) by lra.
    apply Qabs_Qle_condition in Hr'. destruct Hr' as [Hr1 Hr2].
    split; [exact R1|]. split; [exact R2|].
    apply Qabs_Qle_condition. fold X. split; lra.
Qed.

(** The float64 arithmetic rounds well on every sample of float64
    values. *)
Lemma float64_well_rounded (l : list Q) :
  (forall e, In e l -> Float64.round e == e) -> well_rounded float64 l.
Proof.
  intros Hl.
  destruct (float64_index (length l)) as (I1 & I2 & I3).
  constructor.
  - apply Qabs_Qle_condition. split; lra.
  - exact I3.
  - intros a b g Ha Hb Hab Hg0 Hg1.
    destruct (float64_interpolate a b g (Hl a Ha) (Hl b Hb) Hab Hg0 Hg1)
      as (H1 & H2 & _).
    split; assumption.
  - intros a b g Ha Hb Hab Hg0 Hg1.
    exact (proj2 (proj2 (float64_interpolate a b g (Hl a Ha) (Hl b Hb)
                           Hab Hg0 Hg1))).
Qed.

Lemma float64_interpolate_equal (x y x' y' g : Q) :
  x == x' -> y == y' ->
  interpolate float64 x y g == interpolate float64 x' y' g.
Proof.
  intros Hx Hy. cbn [float64 interpolate]. cbv zeta.
  assert (Hd : Float64.round (y - x) == Float64.round (y' - x')).
  { apply round_equal. unfold Qminus.
    apply Qplus_comp; [exact Hy | apply Qopp_comp; exact Hx]. }
  destruct (Qle_bool (1 # 2) g); apply round_equal; unfold Qminus.
  - apply Qplus_comp; [exact Hy|]. apply Qopp_comp. apply round_equal.
    apply Qmult_comp; [exact Hd | reflexivity].
  - apply Qplus_comp; [exact Hx|]. apply round_equal.
    apply Qmult_comp; [exact Hd | reflexivity].
Qed.

End Float64Percentile.
(** ** C5: the threshold and the labels *)

Section ScorerFacts.
Import Scorer.
Local Open Scope Q_scope.

Lemma insert_length (x : Q) (l : list Q) :
  length (insert x l) = S (length l).
Proof.
  induction l as [|y l IH]; simpl; [reflexivity|].
  destruct (Qle_bool x y); simpl; auto.
Qed.

Lemma sort_length (l : list Q) : length (sort l) = length l.
Proof.
  induction l as [|x l IH]; simpl; [reflexivity|].
  rewrite insert_length, IH. reflexivity.
Qed.

Lemma count_above_cons (t x : Q) (l : list Q) :
  count_above t (x :: l)
  = ((if Qle_bool x t then 0 else 1) + count_above t l)%nat.
Proof.
  unfold count_above. simpl. destruct (Qle_bool x t); reflexivity.
Qed.

Lemma count_above_insert (t x : Q) (l : list Q) :
  count_above t (insert x l) = count_above t (x :: l).
Proof.
  induction l as [|y l IH]; simpl; [reflexivity|].
  destruct (Qle_bool x y); [reflexivity|].
  rewrite (count_above_cons t y), IH, !count_above_cons. lia.
Qed.

Lemma count_above_sort (t : Q) (l : list Q) :
  count_above t (sort l) = count_above t l.
Proof.
  induction l as [|x l IH]; simpl; [reflexivity|].
  rewrite count_above_insert, !count_above_cons, IH. reflexivity.
Qed.

Lemma count_above_le_length (t : Q) (l : list Q) :
  (count_above t l <= length l)%nat.
Proof.
  induction l as [|x l IH]; [apply Nat.le_refl|].
  rewrite count_above_cons. simpl. destruct (Qle_bool x t); lia.
Qed.

Lemma insert_bounded (y x : Q) (l : list Q) :
  y <= x -> Forall (Qle y) l -> Forall (Qle y) (insert x l).
Proof.
  intros Hyx H. induction H as [|z l Hz Hl IH]; simpl.
  - constructor; [exact Hyx | constructor].
  - destruct (Qle_bool x z); repeat constructor; auto.
Qed.

Lemma insert_sorted (x : Q) (l : list Q) :
  StronglySorted Qle l -> StronglySorted Qle (insert x l).
Proof.
  induction 1 as [|y l Hs IH Hall]; simpl.
  - repeat constructor.
  - destruct (Qle_bool x y) eqn:E.
    + apply Qle_bool_iff in E. constructor.
      * constructor; assumption.
      * constructor; [exact E|].
        eapply Forall_impl; [|exact Hall].
        intros z Hz. eapply Qle_trans; eassumption.
    + constructor; [exact IH|].
      apply insert_bounded; [|exact Hall].
      destruct (Qlt_le_dec y x) as [Hlt|Hle]; [apply Qlt_le_weak; exact Hlt|].
      apply Qle_bool_iff in Hle. congruence.
Qed.

Lemma sort_sorted (l : list Q) : StronglySorted Qle (sort l).
Proof.
  induction l as [|x l IH]; simpl; [constructor | apply insert_sorted, IH].
Qed.

Lemma sorted_nth_le (s : list Q) :
  StronglySorted Qle s ->
  forall i j, (i <= j)%nat -> (j < length s)%nat -> nth i s 0 <= nth j s 0.
Proof.
  induction 1 as [|x s Hs IH Hall]; intros i j Hij Hj; [simpl in Hj; lia|].
  destruct j as [|j].
  - replace i with 0%nat by lia. apply Qle_refl.
  - destruct i as [|i]; simpl.
    + rewrite Forall_forall in Hall. apply Hall, nth_In. simpl in Hj. lia.
    + apply IH; simpl in Hj; lia.
Qed.

(** In a sorted sample nothing up to offset [k] exceeds a bound of the
    [k]-th order statistic. *)
Lemma count_above_sorted (s : list Q) :
  StronglySorted Qle s ->
  forall k t, (k < length s)%nat -> nth k s 0 <= t ->
              (count_above t s <= length s - S k)%nat.
Proof.
  induction 1 as [|x s Hs IH Hall]; intros k t Hk Ht; [simpl in Hk; lia|].
  rewrite count_above_cons.
  assert (Hx : Qle_bool x t = true).
  { apply Qle_bool_iff. eapply Qle_trans; [|exact Ht].
    exact (sorted_nth_le (x :: s) (SSorted_cons x Hs Hall) 0 k
             (Nat.le_0_l k) Hk). }
  rewrite Hx. destruct k as [|k]; simpl.
  - pose proof (count_above_le_length t s). lia.
  - apply IH; [simpl in Hk; lia | exact Ht].
Qed.

Lemma count_labels (t : Q) (l : list Q) :
  count_occ Nat.eq_dec (labels t l) 1%nat = count_above t l.
Proof.
  induction l as [|x l IH]; [reflexivity|].
  rewrite count_above_cons. unfold labels, label in *. simpl.
  destruct (Qle_bool x t); simpl; rewrite IH; reflexivity.
Qed.

Lemma insert_perm (x : Q) (l : list Q) : Permutation (insert x l) (x :: l).
Proof.
  induction l as [|y l IH]; simpl; [reflexivity|].
  destruct (Qle_bool x y); [reflexivity|].
  apply perm_trans with (y :: x :: l); [|apply perm_swap].
  apply perm_skip. exact IH.
Qed.

Lemma sort_perm (l : list Q) : Permutation (sort l) l.
Proof.
  induction l as [|x l IH]; simpl; [reflexivity|].
  apply perm_trans with (x :: sort l); [apply insert_perm|].
  apply perm_skip. exact IH.
Qed.

Lemma sort_in (l : list Q) (k : nat) :
  (k < length l)%nat -> In (nth k (sort l) 0) l.
Proof.
  intros Hk. apply (Permutation_in _ (sort_perm l)).
  apply nth_In. rewrite sort_length. exact Hk.
Qed.

Lemma percentile_nonempty (ar : arithmetic) (a : list Q) (q : Q) :
  a <> [] ->
  percentile ar a q
  = Some (let h := virtual_index ar (length a) q in
          let lo := Z.to_nat (Qfloor h) in
          interpolate ar (nth lo (sort a) 0)
            (nth (Nat.min (lo + 1) (length a - 1)) (sort a) 0)
            (h - inject_Z (Qfloor h))).
Proof. destruct a; [contradiction | reflexivity]. Qed.

Lemma fraction_bounds (h : Q) :
  0 <= h - inject_Z (Qfloor h) /\ h - inject_Z (Qfloor h) < 1.
Proof.
  pose proof (Qfloor_le h) as Hf. pose proof (Qlt_floor h) as Hc.
  rewrite inject_Z_plus in Hc. change (inject_Z 1) with 1 in Hc.
  split; lra.
Qed.

(** The virtual index of a well rounded arithmetic is not negative, and
    the floor of it is an index of the sample. *)
Lemma index_bounds (ar : arithmetic) (l : list Q) :
  l <> [] -> well_rounded ar l ->
  0 <= virtual_index ar (length l) 95 /\
  (Z.to_nat (Qfloor (virtual_index ar (length l) 95)) < length l)%nat.
Proof.
  intros Hne W.
  assert (Hn : (1 <= length l)%nat).
  { destruct l; [contradiction | simpl; lia]. }
  set (h := virtual_index ar (length l) 95).
  set (H := inject_Z (Z.of_nat (length l - 1)) * (95 / 100)).
  assert (HH : 0 <= H).
  { unfold H. apply Qmult_le_0_compat; [|discriminate].
    change 0 with (inject_Z 0). rewrite <- Zle_Qle. lia. }
  pose proof (index_close ar l W) as Hc. fold h H in Hc.
  apply Qabs_Qle_condition in Hc. destruct Hc as [Hc1 _].
  assert (Ht : tolerance * H <= H).
  { unfold tolerance.
    assert ((1 # 1125899906842624) <= 1) by discriminate. nra. }
  assert (H0 : 0 <= h) by lra.
  split; [exact H0|].
  pose proof (index_in_range ar l W) as Hr. fold h in Hr.
  pose proof (Qfloor_le h) as Hf.
  assert (Hz : (Qfloor h <= Z.of_nat (length l - 1))%Z).
  { rewrite Zle_Qle. lra. }
  assert (Hp : (0 <= Qfloor h)%Z).
  { change 0%Z with (Qfloor 0). apply Qfloor_resp_le. exact H0. }
  lia.
Qed.

(** With a virtual index that is 0.95 (n - 1) up to the relative error,
    the ranks above its floor are at most 95% of n. *)
Lemma percentile_rank_bound (ar : arithmetic) (l : list Q) :
  l <> [] -> well_rounded ar l ->
  (100 * (length l - S (Z.to_nat (Qfloor (virtual_index ar (length l) 95))))
   <= 95 * length l)%nat.
Proof.
  intros Hne W.
  destruct (index_bounds ar l Hne W) as [H0 Hlo].
  set (n := length l) in *.
  set (h := virtual_index ar n 95) in *.
  pose proof (index_close ar l W) as Hc. fold n h in Hc.
  apply Qabs_Qle_condition in Hc. destruct Hc as [Hc1 _].
  pose proof (Qlt_floor h) as Hf.
  assert (Hp : (0 <= Qfloor h)%Z).
  { change 0%Z with (Qfloor 0). apply Qfloor_resp_le. exact H0. }
  set (L := Qfloor h) in *.
  assert (Hz : (95 * Z.of_nat (n - 1) * 1125899906842623
                < 100 * 1125899906842624 * (L + 1))%Z).
  { assert (Hq : inject_Z (95 * Z.of_nat (n - 1) * 1125899906842623)
                 < inject_Z (100 * 1125899906842624 * (L + 1))).
    { rewrite !inject_Z_mult. unfold tolerance in Hc1.
      set (z := inject_Z (Z.of_nat (n - 1))) in *.
      set (w := inject_Z (L + 1)) in *.
      change (inject_Z 95) with 95. change (inject_Z 100) with 100.
      change (inject_Z 1125899906842623) with 1125899906842623.
      change (inject_Z 1125899906842624) with 1125899906842624.
      assert (Hd : z * (95 / 100) == z * (95 # 100)) by reflexivity.
      rewrite Hd in Hc1.
      assert (He : (1 # 1125899906842624) * (z * (95 # 100))
                   == z * (95 # 112589990684262400)).
      { field. }
      lra. }
    rewrite <- Zlt_Qlt in Hq. exact Hq. }
  lia.
Qed.

(** The threshold is no less than the order statistic at the floor of the
    virtual index, and no more than the next one. *)
Lemma percentile_between (ar : arithmetic) (l : list Q) (t : Q) :
  well_rounded ar l ->
  percentile ar l 95 = Some t ->
  let lo := Z.to_nat (Qfloor (virtual_index ar (length l) 95)) in
  nth lo (sort l) 0 <= t /\
  t <= nth (Nat.min (lo + 1) (length l - 1)) (sort l) 0.
Proof.
  intros W H lo.
  assert (Hne : l <> []) by (intros ->; discriminate).
  rewrite (percentile_nonempty ar l 95 Hne) in H. injection H as <-.
  cbv zeta. fold lo.
  destruct (index_bounds ar l Hne W) as [_ Hlo]. fold lo in Hlo.
  destruct (fraction_bounds (virtual_index ar (length l) 95)) as [Hg0 Hg1].
  apply (interpolate_between ar l W); auto.
  - apply sort_in. exact Hlo.
  - apply sort_in. lia.
  - apply sorted_nth_le; [apply sort_sorted | lia |].
    rewrite sort_length. lia.
Qed.

Lemma exact_well_rounded (l : list Q) : well_rounded exact l.
Proof.
  assert (Hpos : 0 <= inject_Z (Z.of_nat (length l - 1))).
  { change 0 with (inject_Z 0). rewrite <- Zle_Qle. lia. }
  constructor; cbn [exact virtual_index interpolate].
  - match goal with |- Qabs ?x <= _ => assert (Hz : x == 0) by ring end.
    rewrite Hz. change (Qabs 0) with 0. unfold tolerance.
    apply Qmult_le_0_compat; [discriminate|].
    apply Qmult_le_0_compat; [exact Hpos | discriminate].
  - assert (Hd : inject_Z (Z.of_nat (length l - 1)) * (95 / 100)
                 == inject_Z (Z.of_nat (length l - 1)) * (95 # 100))
      by reflexivity.
    rewrite Hd. lra.
  - intros a b g _ _ Hab Hg0 Hg1. split; nra.
  - intros a b g _ _ _ _ _.
    match goal with |- Qabs ?x <= _ => assert (Hz : x == 0) by ring end.
    rewrite Hz. change (Qabs 0) with 0. unfold tolerance.
    apply Qmult_le_0_compat; [discriminate|].
    pose proof (Qabs_nonneg a). pose proof (Qabs_nonneg b). lra.
Qed.

End ScorerFacts.

(** The threshold of a sample of four errors, without rounding. *)
Example score_sample :
  Scorer.score Scorer.exact [1 # 2; 3; 2; 5 # 7]%Q [1; 3; 28 # 10]%Q
  = Some (2.85%Q, [0; 1; 0; 0], [0; 1; 0]).
Proof. reflexivity. Qed.

(** With the training errors 0, 0 and 100 the threshold in float64 is
    89.99999999999999, one unit in the last place below 90, and a test
    error of 90 is labelled 1; without rounding the threshold is 90 and
    the label is 0. *)
Example score_rounded :
  Scorer.score Scorer.float64 [0; 0; 100]%Q [90]%Q
  = Some ((6333186975989759 # 70368744177664)%Q, [0; 0; 1], [1]) /\
  (6333186975989759 # 70368744177664 == 90 - (1 # 70368744177664))%Q /\
  Scorer.score Scorer.exact [0; 0; 100]%Q [90]%Q
  = Some ((9000 # 100)%Q, [0; 0; 1], [0]).
Proof. repeat split; vm_compute; reflexivity. Qed.

(** C5.  For a non-empty vector of training errors and an arithmetic that
    rounds well on it (as the float64 arithmetic does on float64 values,
    and the arithmetic without rounding on all values), the threshold
    exists and is the interpolation, by the fractional part of the virtual
    index of the 95th percentile, between two order statistics of the
    training errors: the entries, at the floor of the virtual index and
    next to it, of the training errors put in ascending order.  It lies
    between the two, and is their linear interpolation up to the relative
    error of the arithmetic.  The label of every training row and of every
    test row is 1 exactly when the row's error is strictly above the
    threshold and 0 otherwise.  The rows labelled 1 are at most those
    ranked above the floor of the virtual index, so never more than 95%
    of the training rows. *)
Theorem labels_follow_percentile_threshold
  (ar : Scorer.arithmetic) (train_errors test_errors : list Q) :
  train_errors <> [] ->
  Scorer.well_rounded ar train_errors ->
  let n := length train_errors in
  let h := Scorer.virtual_index ar n 95 in
  let lo := Z.to_nat (Qfloor h) in
  let hi := Nat.min (lo + 1) (n - 1) in
  exists threshold s,
    Permutation s train_errors /\ StronglySorted Qle s /\
    lo < n /\ hi < n /\
    threshold
    = Scorer.interpolate ar (nth lo s 0%Q) (nth hi s 0%Q)
        (h - inject_Z (Qfloor h))%Q /\
    (nth lo s 0 <= threshold)%Q /\ (threshold <= nth hi s 0)%Q /\
    (Qabs (threshold
           - (nth lo s 0
              + (nth hi s 0 - nth lo s 0) * (h - inject_Z (Qfloor h))))
     <= Scorer.tolerance * (Qabs (nth lo s 0) + Qabs (nth hi s 0)))%Q /\
    Scorer.percentile ar train_errors 95 = Some threshold /\
    Scorer.score ar train_errors test_errors
    = Some (threshold, Scorer.labels threshold train_errors,
            Scorer.labels threshold test_errors) /\
    (forall errors i e,
       errors = train_errors \/ errors = test_errors ->
       nth_error errors i = Some e ->
       exists y, nth_error (Scorer.labels threshold errors) i = Some y /\
                 (y = 1 <-> (threshold < e)%Q) /\
                 (y = 0 <-> (e <= threshold)%Q)) /\
    count_occ Nat.eq_dec (Scorer.labels threshold train_errors) 1
    <= n - S lo /\
    100 * count_occ Nat.eq_dec (Scorer.labels threshold train_errors) 1
    <= 95 * n.
Proof.
  intros Hne W n h lo hi.
  destruct (Scorer.percentile ar train_errors 95) as [t|] eqn:Hp.
  2:{ destruct train_errors; [contradiction | discriminate]. }
  exists t, (Scorer.sort train_errors).
  destruct (index_bounds ar _ Hne W) as [_ Hlo]. fold n h lo in Hlo.
  destruct (percentile_between ar _ _ W Hp) as [Hlow Hhigh].
  fold n h lo hi in Hlow, Hhigh.
  pose proof (percentile_rank_bound ar _ Hne W) as Hfrac.
  fold n h lo in Hfrac.
  assert (Hcount : count_occ Nat.eq_dec (Scorer.labels t train_errors) 1
                   <= n - S lo).
  { rewrite count_labels, <- (count_above_sort t).
    unfold n. rewrite <- (sort_length train_errors) at 1.
    apply count_above_sorted.
    - apply sort_sorted.
    - rewrite sort_length. exact Hlo.
    - exact Hlow. }
  split; [apply sort_perm|]. split; [apply sort_sorted|].
  split; [exact Hlo|]. split; [unfold hi; lia|].
  split.
  { rewrite (percentile_nonempty ar _ 95 Hne) in Hp.
    injection Hp as <-. reflexivity. }
  split; [exact Hlow|]. split; [exact Hhigh|].
  split.
  { rewrite (percentile_nonempty ar _ 95 Hne) in Hp.
    injection Hp as <-. cbv zeta. fold n h lo hi.
    destruct (fraction_bounds h) as [Hg0 Hg1].
    apply (Scorer.interpolate_close ar _ W); auto.
    - apply sort_in. exact Hlo.
    - apply sort_in. unfold hi. lia.
    - apply sorted_nth_le; [apply sort_sorted | unfold hi; lia |].
      rewrite sort_length. unfold hi. lia. }
  split; [reflexivity|].
  split; [unfold Scorer.score; rewrite Hp; reflexivity|].
  split; [|split; [exact Hcount | lia]].
  intros errors i e _ Hi. unfold Scorer.labels.
  rewrite nth_error_map, Hi. simpl.
  exists (Scorer.label t e). split; [reflexivity|].
  unfold Scorer.label. destruct (Qle_bool e t) eqn:E.
  - apply Qle_bool_iff in E. split; split; auto; try discriminate.
    intros Hlt. exfalso. exact (Qlt_not_le _ _ Hlt E).
  - assert (Hlt : (t < e)%Q).
    { apply Qnot_le_lt. intros Hle. apply Qle_bool_iff in Hle. congruence. }
    split; split; auto; try discriminate.
    intros Hle. exfalso. exact (Qlt_not_le _ _ Hlt Hle).
Qed.

Lemma labels_follow_percentile_threshold_witness :
  let train_errors := [0; 0; 100]%Q in
  let test_errors := [90; 101]%Q in
  let n := 3 in
  let h := Scorer.virtual_index Scorer.float64 n 95 in
  let lo := Z.to_nat (Qfloor h) in
  let hi := Nat.min (lo + 1) (n - 1) in
  exists threshold s,
    Permutation s train_errors /\ StronglySorted Qle s /\
    lo < n /\ hi < n /\
    threshold
    = Scorer.interpolate Scorer.float64 (nth lo s 0%Q) (nth hi s 0%Q)
        (h - inject_Z (Qfloor h))%Q /\
    (nth lo s 0 <= threshold)%Q /\ (threshold <= nth hi s 0)%Q /\
    (Qabs (threshold
           - (nth lo s 0
              + (nth hi s 0 - nth lo s 0) * (h - inject_Z (Qfloor h))))
     <= Scorer.tolerance * (Qabs (nth lo s 0) + Qabs (nth hi s 0)))%Q /\
    Scorer.percentile Scorer.float64 train_errors 95 = Some threshold /\
    Scorer.score Scorer.float64 train_errors test_errors
    = Some (threshold, Scorer.labels threshold train_errors,
            Scorer.labels threshold test_errors) /\
    (forall errors i e,
       errors = train_errors \/ errors = test_errors ->
       nth_error errors i = Some e ->
       exists y, nth_error (Scorer.labels threshold errors) i = Some y /\
                 (y = 1 <-> (threshold < e)%Q) /\
                 (y = 0 <-> (e <= threshold)%Q)) /\
    count_occ Nat.eq_dec (Scorer.labels threshold train_errors) 1
    <= n - S lo /\
    100 * count_occ Nat.eq_dec (Scorer.labels threshold train_errors) 1
    <= 95 * n.
Proof.
  apply (labels_follow_percentile_threshold Scorer.float64
           [0; 0; 100]%Q [90; 101]%Q).
  - discriminate.
  - apply float64_well_rounded.
    intros e [<-|[<-|[<-|[]]]]; reflexivity.
Defined.
(** ** C2: what the standardisation gives *)

Section ScalerFacts.
Import Scaler.
Local Open Scope R_scope.

Lemma sum_affine (m s : R) (xs : list R) :
  sum (map (fun x => (x - m) / s) xs)
  = (sum xs - INR (length xs) * m) / s.
Proof.
  induction xs as [|x xs IH].
  - simpl. unfold Rdiv. ring.
  - change (sum (map (fun x => (x - m) / s) (x :: xs)))
      with ((x - m) / s + sum (map (fun x => (x - m) / s) xs)).
    rewrite IH. change (length (x :: xs)) with (S (length xs)).
    rewrite S_INR. simpl. unfold Rdiv. ring.
Qed.

Lemma sum_scaled (k : R) (f : R -> R) (xs : list R) :
  sum (map (fun x => f x * k) xs) = sum (map f xs) * k.
Proof.
  induction xs as [|x xs IH]; simpl; [ring|]. rewrite IH. ring.
Qed.

Lemma sum_squares_nonneg (m : R) (xs : list R) :
  0 <= sum (map (fun x => (x - m) * (x - m)) xs).
Proof.
  induction xs as [|x xs IH]; simpl; [lra|].
  pose proof (Rle_0_sqr (x - m)) as Hsq. unfold Rsqr in Hsq. lra.
Qed.

Lemma size_positive (xs : list R) : xs <> [] -> 0 < INR (length xs).
Proof.
  intros H. apply lt_0_INR. destruct xs; [contradiction | simpl; lia].
Qed.

Lemma variance_nonneg (xs : list R) : xs <> [] -> 0 <= variance xs.
Proof.
  intros H. unfold variance, mean. rewrite length_map.
  apply Rmult_le_pos; [apply sum_squares_nonneg|].
  apply Rlt_le, Rinv_0_lt_compat, size_positive, H.
Qed.

Lemma eps_positive : 0 < eps.
Proof. unfold eps. lra. Qed.

Lemma constant_bound_nonneg (xs : list R) :
  xs <> [] -> 0 <= constant_bound xs.
Proof.
  intros H. unfold constant_bound.
  pose proof (variance_nonneg xs H) as Hv.
  pose proof (size_positive xs H) as Hn.
  pose proof eps_positive as He.
  assert (0 <= INR (length xs) * eps * variance xs).
  { apply Rmult_le_pos; [|exact Hv]. apply Rmult_le_pos; lra. }
  pose proof (Rle_0_sqr (INR (length xs) * mean xs * eps)) as Hsq.
  unfold Rsqr in Hsq. lra.
Qed.

Lemma scale_of_square (xs : list R) :
  xs <> [] ->
  scale_of xs <> 0 /\
  scale_of xs * scale_of xs
  = if Rle_dec (variance xs) (constant_bound xs) then 1 else variance xs.
Proof.
  intros H. unfold scale_of.
  pose proof (constant_bound_nonneg xs H) as Hb.
  destruct (Rle_dec (variance xs) (constant_bound xs)) as [Hz|Hnz].
  - split; lra.
  - pose proof (variance_nonneg xs H) as Hv.
    split.
    + assert (0 < sqrt (variance xs)) by (apply sqrt_lt_R0; lra). lra.
    + apply sqrt_sqrt. exact Hv.
Qed.

Lemma mean_standardize (xs : list R) :
  xs <> [] -> mean (standardize xs) = 0.
Proof.
  intros H. unfold standardize, mean at 1.
  rewrite sum_affine, length_map. unfold mean.
  pose proof (size_positive xs H) as Hn.
  destruct (scale_of_square xs H) as [Hs _].
  field. split; lra.
Qed.

Lemma variance_standardize (xs : list R) :
  xs <> [] ->
  variance (standardize xs)
  = if Rle_dec (variance xs) (constant_bound xs) then variance xs else 1.
Proof.
  intros H. unfold variance at 1.
  rewrite (mean_standardize xs H).
  unfold standardize. rewrite map_map.
  pose proof (size_positive xs H) as Hn.
  destruct (scale_of_square xs H) as [Hs Hsq].
  rewrite (map_ext _ (fun x => (x - mean xs) * (x - mean xs)
                               * / (scale_of xs * scale_of xs))).
  2:{ intros x. field. exact Hs. }
  unfold mean at 1. rewrite sum_scaled, length_map, Hsq.
  assert (Hv : variance xs
               = sum (map (fun x => (x - mean xs) * (x - mean xs)) xs)
                 / INR (length xs)).
  { unfold variance, mean at 1. rewrite length_map. reflexivity. }
  set (total_sq := sum (map (fun x => (x - mean xs) * (x - mean xs)) xs))
    in *.
  pose proof (constant_bound_nonneg xs H) as Hb.
  destruct (Rle_dec (variance xs) (constant_bound xs)) as [Hz|Hnz].
  - rewrite Rinv_1, Rmult_1_r, <- Hv. reflexivity.
  - assert (Ht : total_sq = variance xs * INR (length xs)).
    { rewrite Hv. field. lra. }
    rewrite Ht. field. split; lra.
Qed.

Lemma standardize_length (xs : list R) :
  length (standardize xs) = length xs.
Proof. unfold standardize. apply length_map. Qed.



End ScalerFacts.







(** * Further properties of the script *)

(** ** More on [parse_log_line] *)

Section ParserShape.
Import Re.

Lemma take_while_split (f : ascii -> bool) (s : str) :
  exists rest, s = take_while f s ++ rest /\
               forall c, hd_error rest = Some c -> f c = false.
Proof.
  induction s as [|a s (rest & Hs & Hrest)]; simpl.
  - exists []. split; [reflexivity | discriminate].
  - destruct (f a) eqn:E.
    + exists rest. split; [simpl; f_equal; exact Hs | exact Hrest].
    + exists (a :: s). split; [reflexivity|].
      intros c Hc. inversion Hc; subst. exact E.
Qed.

Lemma match_atoms_last (p : list atom) (a : atom) :
  forall s m r,
    match_atoms (p ++ [a]) s = Some (m, r) ->
    exists m' c, m = m' ++ [c] /\ atom_matches a c = true.
Proof.
  induction p as [|b p IH]; intros s m r H; simpl in H.
  - destruct s as [|c s]; [discriminate|].
    destruct (atom_matches a c) eqn:E; [|discriminate].
    inversion H; subst. exists [], c. auto.
  - destruct s as [|c s]; [discriminate|].
    destruct (atom_matches b c); [|discriminate].
    destruct (match_atoms (p ++ [a]) s) as [[m0 r0]|] eqn:E; [|discriminate].
    inversion H; subst.
    destruct (IH _ _ _ E) as (m' & d & -> & Hd).
    exists (c :: m'), d. auto.
Qed.

Lemma digit_is_word (c : ascii) : Chars.is_digit c = true -> Chars.is_word c = true.
Proof. unfold Chars.is_word. intros ->. reflexivity. Qed.

(** The timestamp text ends with a digit, which is a word character. *)
Lemma match_timestamp_ends_with_word (s g r : str) :
  match_timestamp s = Some (g, r) ->
  exists g' c, g = g' ++ [c] /\ Chars.is_word c = true.
Proof.
  intros H.
  destruct (match_atoms_last (removelast timestamp_pattern) Digit s g r H)
    as (g' & c & Hg & Hc).
  exists g', c. split; [exact Hg | apply digit_is_word; exact Hc].
Qed.

(** What a marker at the head of [s] tells about [s] and about the
    character before it. *)
Lemma match_marker_delimited (prev : option ascii) (s g : str) :
  match_marker prev s = Some g ->
  exists post,
    s = g ++ post /\ word_opt prev = false /\
    ((exists h, g = chars "HRESULT = 0x" ++ h /\ h <> [] /\
                forallb Chars.is_hex h = true /\
                forall c, hd_error post = Some c -> Chars.is_hex c = false)
     \/ ((g = chars "Error" \/ g = chars "Warning") /\
         word_opt (hd_error post) = false)).
Proof.
  unfold match_marker. intros H.
  destruct (match_hresult prev s) as [g'|] eqn:Eh.
  - inversion H; subst g'. clear H. unfold match_hresult in Eh.
    destruct (word_boundary prev (hd_error s)) eqn:Eb; [|discriminate].
    destruct (match_atoms (literal "HRESULT = 0x") s) as [[m r]|] eqn:E;
      [|discriminate].
    pose proof (match_literal_text _ _ _ _ E) as Hm. subst m.
    destruct (match_atoms_split _ _ _ _ E) as [Hs _].
    destruct (take_while_split Chars.is_hex r) as (rest & Hr & Hrest).
    destruct (take_while Chars.is_hex r) as [|h hs] eqn:Et; [discriminate|].
    injection Eh as <-. exists rest. repeat split.
    + rewrite Hs, Hr at 1. reflexivity.
    + rewrite Hs in Eb. unfold word_boundary in Eb.
      destruct (word_opt prev); [|reflexivity].
      vm_compute in Eb. discriminate.
    + left. exists (h :: hs). repeat split; auto; [discriminate|].
      rewrite <- Et. apply take_while_all.
  - assert (Hword : forall w, (w = "Error" \/ w = "Warning")%string ->
              match_word w prev s = Some g ->
              exists post, s = g ++ post /\ word_opt prev = false /\
                           g = chars w /\ word_opt (hd_error post) = false).
    { intros w Hw Hmw. unfold match_word in Hmw.
      destruct (word_boundary prev (hd_error s)) eqn:Eb; [|discriminate].
      destruct (match_atoms (literal w) s) as [[m r]|] eqn:E; [|discriminate].
      pose proof (match_literal_text _ _ _ _ E) as Hm. subst m.
      destruct (match_atoms_split _ _ _ _ E) as [Hs _].
      destruct (word_boundary (last (map Some (chars w)) prev) (hd_error r))
        eqn:Ea; [|discriminate].
      injection Hmw as <-. exists r. repeat split; auto.
      - rewrite Hs in Eb. unfold word_boundary in Eb.
        destruct (word_opt prev); [|reflexivity].
        destruct Hw as [-> | ->]; vm_compute in Eb; discriminate.
      - unfold word_boundary in Ea.
        destruct (word_opt (hd_error r)); [|reflexivity].
        destruct Hw as [-> | ->]; vm_compute in Ea; discriminate. }
    destruct (match_word "Error" prev s) as [g'|] eqn:Ee.
    + inversion H; subst g'.
      destruct (Hword _ (or_introl eq_refl) Ee) as (post & Hs & Hp & Hg & Ha).
      exists post. repeat split; auto.
    + destruct (Hword _ (or_intror eq_refl) H) as (post & Hs & Hp & Hg & Ha).
      exists post. repeat split; auto.
Qed.

Lemma prev_char_last (pre : str) (c : ascii) (rest : str) :
  prev_char (pre ++ c :: rest) (S (length pre)) = Some c.
Proof. simpl. rewrite nth_error_app2, Nat.sub_diag by lia. reflexivity. Qed.

End ParserShape.

(** X1.  The parser returns (None, None) exactly for the lines in which no
    timestamp layout is followed, before any line feed, by a marker. *)
Theorem parse_absent_iff_no_event (line : str) :
  parse_log_line line = Ok None <-> (forall p q, ~ event_shape line p q).
Proof.
  unfold parse_log_line. split.
  - intros H. destruct (Re.search line) as [m|] eqn:Hm.
    + destruct (strptime (Re.group1 m)); discriminate.
    + apply search_none. exact Hm.
  - intros H. destruct (Re.search line) as [m|] eqn:Hm; [|reflexivity].
    exfalso. destruct (search_some _ _ Hm) as (Hts & Hle & Hmk & Hnl & _).
    apply (H (Re.start1 m) (Re.start2 m)). unfold event_shape.
    rewrite Hts, Hmk. repeat split; auto; discriminate.
Qed.

(** X2.  A returned event is found in the line: the line is some text,
    then the 19 characters that parse to the returned timestamp, then a
    stretch without line feed that ends in a non-word character, then the
    returned code.  After a code of the first kind no hexadecimal digit
    follows; after [Error] or [Warning] no word character follows. *)
Theorem parsed_event_is_found_in_line (line : str) (ts : datetime) (code : str) :
  parse_log_line line = Ok (Some (ts, code)) ->
  exists pre g mid sep post,
    line = pre ++ g ++ mid ++ sep :: code ++ post /\
    length g = 19 /\ strptime g = Ok ts /\
    forallb not_newline (mid ++ [sep]) = true /\
    Chars.is_word sep = false /\
    ((exists h, code = chars "HRESULT = 0x" ++ h /\ h <> [] /\
                forallb Chars.is_hex h = true /\
                forall c, hd_error post = Some c -> Chars.is_hex c = false)
     \/ ((code = chars "Error" \/ code = chars "Warning") /\
         Re.word_opt (hd_error post) = false)).
Proof.
  unfold parse_log_line. intros H.
  destruct (Re.search line) as [m|] eqn:Hm; [|discriminate].
  destruct (strptime (Re.group1 m)) as [ts'|] eqn:Hts; [|discriminate].
  simpl in H. inversion H; subst ts' code. clear H.
  destruct (search_some _ _ Hm) as (Hg1 & Hle & Hmk & Hnl & _).
  set (p := Re.start1 m) in *. set (q := Re.start2 m) in *.
  unfold timestamp_at in Hg1.
  destruct (Re.match_timestamp (skipn p line)) as [[g r]|] eqn:Ets;
    [|discriminate].
  simpl in Hg1. inversion Hg1 as [Hg]. rewrite <- Hg in *. clear Hg1.
  destruct (match_timestamp_split _ _ _ Ets) as [Hs Hl].
  destruct (match_timestamp_ends_with_word _ _ _ Ets) as (g' & d & Hgd & Hd).
  unfold marker_at in Hmk.
  destruct (match_marker_delimited _ _ _ Hmk) as (post & Hq & Hprev & Hafter).
  assert (Hr : r = skipn (p + 19) line).
  { rewrite (Nat.add_comm p 19), <- skipn_skipn, Hs.
    rewrite <- Hl, skipn_app, skipn_all, Nat.sub_diag. reflexivity. }
  assert (Hline : line = firstn p line ++ g ++ r).
  { rewrite <- Hs. symmetry. apply firstn_skipn. }
  assert (Hrq : r = firstn (q - (p + 19)) r ++ Re.group2 m ++ post).
  { rewrite <- Hq. rewrite <- (firstn_skipn (q - (p + 19)) r) at 1.
    f_equal. rewrite Hr, skipn_skipn. f_equal. lia. }
  assert (Hnl' : forallb not_newline (firstn (q - (p + 19)) r) = true).
  { rewrite Hr. exact Hnl. }
  assert (Hqlen : q - (p + 19) <= length r).
  { rewrite Hr, length_skipn.
    assert (q < length line).
    { destruct (Nat.lt_ge_cases q (length line)) as [Hlt|Hge]; [exact Hlt|].
      rewrite (skipn_all2 line Hge) in Hq.
      destruct (Re.group2 m); [|discriminate].
      rewrite (skipn_all2 line Hge) in Hmk.
      rewrite match_marker_nil in Hmk. discriminate. }
    lia. }
  destruct (firstn (q - (p + 19)) r) as [|a mid0] eqn:Emid
    using rev_ind.
  - exfalso.
    assert (Hq19 : q = p + 19).
    { pose proof (f_equal (@length _) Emid) as Hlen.
      rewrite length_firstn in Hlen. simpl in Hlen. lia. }
    rewrite Hq19 in Hprev.
    rewrite Hline in Hprev. rewrite Hgd in Hprev.
    replace (firstn p line ++ (g' ++ [d]) ++ r)
      with ((firstn p line ++ g') ++ d :: r) in Hprev
      by (rewrite <- !app_assoc; reflexivity).
    assert (Hlen : p + 19 = S (length (firstn p line ++ g'))).
    { rewrite length_app, length_firstn.
      rewrite Hgd, length_app in Hl. simpl in Hl.
      assert (p <= length line).
      { destruct (Nat.le_gt_cases p (length line)); [assumption|].
        rewrite skipn_all2 in Ets by lia. discriminate. }
      lia. }
    rewrite Hlen, prev_char_last in Hprev. simpl in Hprev. congruence.
  - clear IHmid0.
    exists (firstn p line), g, mid0, a, post.
    assert (Hsep : Chars.is_word a = false).
    { assert (Hqq : q = S (length (firstn p line ++ g ++ mid0))).
      { pose proof (f_equal (@length _) Emid) as Hlen.
        rewrite length_firstn, length_app in Hlen. simpl in Hlen.
        rewrite !length_app, length_firstn, Hl.
        assert (p <= length line).
        { destruct (Nat.le_gt_cases p (length line)); [assumption|].
          rewrite skipn_all2 in Ets by lia. discriminate. }
        lia. }
      rewrite Hline, Hrq in Hprev.
      replace (firstn p line ++ g ++ (mid0 ++ [a]) ++ Re.group2 m ++ post)
        with ((firstn p line ++ g ++ mid0) ++ a :: Re.group2 m ++ post)
        in Hprev by (rewrite <- !app_assoc; reflexivity).
      rewrite Hqq, prev_char_last in Hprev. exact Hprev. }
    repeat split; auto.
    rewrite Hline at 1. rewrite Hrq at 1. rewrite <- !app_assoc. reflexivity.
Qed.

Lemma parsed_event_is_found_in_line_witness :
  exists pre g mid sep post,
    Samples.hresult_line
    = pre ++ g ++ mid ++ sep :: chars "HRESULT = 0x800f0816" ++ post /\
    length g = 19 /\
    strptime g = Ok {| year := 2024; month := 3; day := 5;
                       hour := 8; minute := 15; second := 30 |} /\
    forallb not_newline (mid ++ [sep]) = true /\
    Chars.is_word sep = false /\
    ((exists h, chars "HRESULT = 0x800f0816" = chars "HRESULT = 0x" ++ h /\
                h <> [] /\ forallb Chars.is_hex h = true /\
                forall c, hd_error post = Some c -> Chars.is_hex c = false)
     \/ ((chars "HRESULT = 0x800f0816" = chars "Error"
          \/ chars "HRESULT = 0x800f0816" = chars "Warning") /\
         Re.word_opt (hd_error post) = false)).
Proof.
  apply (parsed_event_is_found_in_line Samples.hresult_line).
  reflexivity.
Defined.
(** ** More on [load_cbs_log] *)

Lemma fails_spec (posix : datetime -> option Z) (line : str) :
  fails posix line = true
  <-> parse_log_line line = Raise ValueError
      \/ exists ts code, parse_log_line line = Ok (Some (ts, code)) /\
                         posix ts = None.
Proof.
  unfold fails. split.
  - destruct (parse_log_line line) as [[[ts c]|]|e] eqn:P; try discriminate.
    + rewrite (parse_code_nonempty _ _ _ P).
      destruct (posix ts) eqn:T; [discriminate|]. eauto.
    + rewrite (parse_log_line_raises_value_error _ _ P). auto.
  - intros [->|(ts & c & P & T)]; [reflexivity|].
    rewrite P, (parse_code_nonempty _ _ _ P), T. reflexivity.
Qed.

(** X3.  The loader fails exactly when, on one of the lines before the
    cap, the parser raises or the conversion of the event's timestamp to
    seconds raises, and then with [ValueError]; the lookups in the two
    dictionaries never fail. *)
Theorem load_fails_exactly_where_a_line_fails
  (posix : datetime -> option Z) (lines : list str) (max_lines : N)
  (e : exn) :
  load_cbs_log posix lines max_lines = Raise e
  <-> e = ValueError /\
      exists line,
        In line (scanned max_lines 0 lines) /\
        (parse_log_line line = Raise ValueError
         \/ exists ts code, parse_log_line line = Ok (Some (ts, code)) /\
                            posix ts = None).
Proof.
  destruct (load_outcome posix lines max_lines) as [[R E]|[R E]]; rewrite E.
  - apply existsb_exists in R as (l & Hin & Hl). split.
    + intros H. inversion H. split; [reflexivity|].
      exists l. split; [exact Hin|]. apply fails_spec. exact Hl.
    + intros [-> _]. reflexivity.
  - split; [discriminate|].
    intros [_ (l & Hin & Hl)]. apply fails_spec in Hl.
    assert (existsb (fails posix) (scanned max_lines 0 lines) = true)
      by (apply existsb_exists; eauto).
    congruence.
Qed.

(** X4.  Lines at or after the cap are never looked at: whatever follows
    the first [max_lines] lines, well formed or not, the result is the
    same. *)
Theorem lines_beyond_cap_are_ignored
  (posix : datetime -> option Z) (pre post : list str) (max_lines : N) :
  (max_lines <= N.of_nat (length pre))%N ->
  load_cbs_log posix (pre ++ post) max_lines
  = load_cbs_log posix pre max_lines.
Proof.
  intros H. rewrite !load_by_steps.
  rewrite scanned_beyond_cap by lia. reflexivity.
Qed.

Lemma lines_beyond_cap_are_ignored_witness :
  load_cbs_log timestamp_utc
    (Samples.two_events ++ Samples.bad_hour :: Samples.small_log) 2
  = load_cbs_log timestamp_utc Samples.two_events 2.
Proof.
  apply (lines_beyond_cap_are_ignored timestamp_utc Samples.two_events
           (Samples.bad_hour :: Samples.small_log) 2).
  vm_compute. discriminate.
Defined.

Lemma steps_passed_over (posix : datetime -> option Z) (ls : list str) :
  forall st,
    steps posix (filter (fun l => negb (passed_over l)) ls) st
    = steps posix ls st.
Proof.
  induction ls as [|l ls IH]; intros st; [reflexivity|].
  simpl filter. unfold passed_over at 1.
  destruct (parse_log_line l) as [[ev|]|e] eqn:P; simpl negb; cbv iota.
  - rewrite !steps_cons. destruct (scan_step posix st l); simpl; auto.
  - rewrite steps_cons, (scan_step_skip _ _ _ P). simpl. apply IH.
  - rewrite !steps_cons. destruct (scan_step posix st l); simpl; auto.
Qed.

(** X5.  When the cap does not bind, the lines on which the parser
    returns (None, None) can be removed from the file without changing
    the result. *)
Theorem passed_over_lines_are_transparent
  (posix : datetime -> option Z) (lines : list str) (max_lines : N) :
  (N.of_nat (length lines) <= max_lines)%N ->
  load_cbs_log posix (filter (fun l => negb (passed_over l)) lines) max_lines
  = load_cbs_log posix lines max_lines.
Proof.
  intros H. rewrite !load_by_steps.
  rewrite !scanned_all.
  - rewrite steps_passed_over. reflexivity.
  - lia.
  - pose proof (filter_length_le (fun l => negb (passed_over l)) lines). lia.
Qed.

Lemma passed_over_lines_are_transparent_witness :
  load_cbs_log timestamp_utc
    (filter (fun l => negb (passed_over l)) Samples.small_log) 5
  = load_cbs_log timestamp_utc Samples.small_log 5.
Proof.
  apply (passed_over_lines_are_transparent timestamp_utc Samples.small_log 5).
  vm_compute. discriminate.
Defined.

(** X6.  In a returned ID sequence the values that occur are exactly 1,
    2, ..., N, where N is the number of distinct codes among the events:
    no ID is skipped and none is out of range. *)
Theorem ids_fill_one_to_n
  (posix : datetime -> option Z) (lines : list str) (max_lines : N)
  (ts : list Z) (ids fr : list nat) :
  load_cbs_log posix lines max_lines = Ok (ts, ids, fr) ->
  forall id,
    In id ids
    <-> 1 <= id
        <= length (first_occurrences
                     (map snd (events (scanned max_lines 0 lines)))).
Proof.
  intros H id. destruct (load_ok_columns _ _ _ _ H) as [_ Hout].
  inversion Hout; subst. apply row_ids_range.
Qed.

Lemma ids_fill_one_to_n_witness :
  In 3 [1; 2; 1; 3] <-> 1 <= 3 <= 3.
Proof.
  exact (ids_fill_one_to_n timestamp_utc Samples.small_log default_max_lines
           _ _ _ eq_refl 3).
Defined.

(** X7.  Two rows of the result carry the same ID exactly when their
    events carry the same code: distinct codes never share an ID. *)
Theorem same_id_iff_same_code
  (posix : datetime -> option Z) (lines : list str) (max_lines : N)
  (ts : list Z) (ids fr : list nat) :
  load_cbs_log posix lines max_lines = Ok (ts, ids, fr) ->
  forall i j ci cj,
    nth_error (map snd (events (scanned max_lines 0 lines))) i = Some ci ->
    nth_error (map snd (events (scanned max_lines 0 lines))) j = Some cj ->
    (nth_error ids i = nth_error ids j <-> ci = cj).
Proof.
  intros H i j ci cj Hi Hj. destruct (load_ok_columns _ _ _ _ H) as [_ Hout].
  inversion Hout; subst.
  rewrite (row_ids_nth _ _ _ Hi), (row_ids_nth _ _ _ Hj). split.
  - intros Heq. inversion Heq as [Hpos].
    apply (row_id_injective (events (scanned max_lines 0 lines)));
      eauto using nth_error_In.
  - intros ->. reflexivity.
Qed.

Lemma same_id_iff_same_code_witness :
  nth_error [1; 2; 1; 3] 0 = nth_error [1; 2; 1; 3] 2
  <-> chars "Error" = chars "Error".
Proof.
  exact (same_id_iff_same_code timestamp_utc Samples.small_log
           default_max_lines _ _ _ eq_refl 0 2 _ _ eq_refl eq_refl).
Defined.

(** X8.  The frequency of a row is the number of events of the scanned
    lines that carry the row's code. *)
Theorem frequency_counts_events_of_same_code
  (posix : datetime -> option Z) (lines : list str) (max_lines : N)
  (ts : list Z) (ids fr : list nat) :
  load_cbs_log posix lines max_lines = Ok (ts, ids, fr) ->
  forall i c,
    nth_error (map snd (events (scanned max_lines 0 lines))) i = Some c ->
    nth_error fr i
    = Some (count_occ str_dec
              (map snd (events (scanned max_lines 0 lines))) c).
Proof.
  intros H i c Hi. destruct (load_ok_columns _ _ _ _ H) as [_ Hout].
  inversion Hout; subst. unfold row_frequencies.
  rewrite nth_error_map, (row_ids_nth _ _ _ Hi). simpl. f_equal.
  unfold row_ids.
  apply (count_occ_map_on
           (fun c => S (position c (first_occurrences
              (map snd (events (scanned max_lines 0 lines))))))).
  intros x Hx Heq. inversion Heq.
  apply (row_id_injective (events (scanned max_lines 0 lines)));
    eauto using nth_error_In.
Qed.

Lemma frequency_counts_events_of_same_code_witness :
  nth_error [2; 1; 2; 1] 2
  = Some (count_occ str_dec
            [chars "Error"; chars "Warning"; chars "Error";
             chars "HRESULT = 0x800f0816"] (chars "Error")).
Proof.
  exact (frequency_counts_events_of_same_code timestamp_utc Samples.small_log
           default_max_lines _ _ _ eq_refl 2 _ eq_refl).
Defined.

(** X9.  Reading more lines leaves the earlier rows as they are, except
    for their frequencies, which can only grow: the result for the first
    [k] lines has the first entries of the timestamp and ID sequences of
    the result for the whole file. *)
Theorem earlier_rows_keep_their_ids
  (posix : datetime -> option Z) (lines : list str) (max_lines : N)
  (ts : list Z) (ids fr : list nat) (k : nat) :
  load_cbs_log posix lines max_lines = Ok (ts, ids, fr) ->
  exists n fr',
    load_cbs_log posix (firstn k lines) max_lines
    = Ok (firstn n ts, firstn n ids, fr') /\
    length fr' = n /\ n <= length ids /\
    forall i f', nth_error fr' i = Some f' ->
                 exists f, nth_error fr i = Some f /\ f' <= f.
Proof.
  intros H. destruct (load_ok_columns _ _ _ _ H) as [R Hout].
  set (sc := scanned max_lines 0 lines) in *.
  assert (Hsc : scanned max_lines 0 (firstn k lines) = firstn k sc)
    by apply scanned_firstn.
  destruct (load_outcome posix (firstn k lines) max_lines) as [[R' _]|[R' E]].
  { exfalso. rewrite Hsc in R'.
    apply existsb_exists in R' as (l & Hin & Hl).
    assert (existsb (fails posix) sc = true).
    { apply existsb_exists. exists l. split; [|exact Hl].
      rewrite <- (firstn_skipn k sc). apply in_or_app. left. exact Hin. }
    congruence. }
  rewrite Hsc in E, R'.
  pose proof (stamps_length posix _ R') as Hs.
  set (a := events (firstn k sc)) in *.
  set (b := events (skipn k sc)).
  assert (Hev : events sc = a ++ b).
  { unfold a, b. rewrite <- events_app, firstn_skipn. reflexivity. }
  rewrite Hev in Hout. destruct (row_ids_app a b) as (rest & Hrest).
  unfold columns_of in Hout. rewrite Hrest in Hout. inversion Hout; subst.
  exists (length a), (row_frequencies (row_ids a)). repeat split.
  - assert (Ht : firstn (length a) (stamps posix (a ++ b))
                 = stamps posix a).
    { unfold stamps in *. rewrite flat_map_app, firstn_app, Hs, Nat.sub_diag.
      simpl. rewrite app_nil_r, firstn_all2; [reflexivity | lia]. }
    assert (Hl : length (row_ids a) = length a)
      by (unfold row_ids; rewrite !length_map; reflexivity).
    assert (Hi : firstn (length a) (row_ids a ++ rest) = row_ids a).
    { rewrite firstn_app, Hl, Nat.sub_diag. simpl.
      rewrite app_nil_r, firstn_all2; [reflexivity | lia]. }
    rewrite E, Ht, Hi. reflexivity.
  - unfold row_frequencies, row_ids. rewrite !length_map. reflexivity.
  - rewrite length_app. unfold row_ids. rewrite !length_map. lia.
  - intros i f' Hi. unfold row_frequencies in *.
    rewrite nth_error_map in Hi.
    destruct (nth_error (row_ids a) i) as [x|] eqn:Ex; [|discriminate].
    simpl in Hi. inversion Hi; subst f'.
    exists (count_occ Nat.eq_dec (row_ids a ++ rest) x). split.
    + rewrite nth_error_map, nth_error_app1, Ex; [reflexivity|].
      apply nth_error_Some. congruence.
    + rewrite count_occ_app. lia.
Qed.

Lemma earlier_rows_keep_their_ids_witness :
  exists n fr',
    load_cbs_log timestamp_utc (firstn 3 Samples.small_log) default_max_lines
    = Ok (firstn n [1704103200; 1704103202; 1704103203; 1704103204]%Z,
          firstn n [1; 2; 1; 3], fr') /\
    length fr' = n /\ n <= length [1; 2; 1; 3] /\
    forall i f', nth_error fr' i = Some f' ->
                 exists f, nth_error [2; 1; 2; 1] i = Some f /\ f' <= f.
Proof.
  exact (earlier_rows_keep_their_ids timestamp_utc Samples.small_log
           default_max_lines _ _ _ 3 eq_refl).
Defined.

(** ** The split *)

Lemma take_rows_app {A : Type} (X : list A) (a b : list nat) :
  take_rows X (a ++ b) = take_rows X a ++ take_rows X b.
Proof. unfold take_rows. apply flat_map_app. Qed.

Lemma take_rows_all {A : Type} (X : list A) :
  forall pre, take_rows (pre ++ X) (seq (length pre) (length X)) = X.
Proof.
  induction X as [|x X IH]; intros pre; [reflexivity|].
  simpl. rewrite nth_error_app2, Nat.sub_diag by lia. simpl. f_equal.
  specialize (IH (pre ++ [x])).
  rewrite length_app, Nat.add_1_r, <- app_assoc in IH. exact IH.
Qed.

Lemma take_rows_length {A : Type} (X : list A) (idx : list nat) :
  (forall i, In i idx -> i < length X) ->
  length (take_rows X idx) = length idx.
Proof.
  induction idx as [|i idx IH]; intros H; [reflexivity|].
  simpl. assert (Hi : i < length X) by (apply H; left; reflexivity).
  apply nth_error_Some in Hi.
  destruct (nth_error X i); [|contradiction].
  simpl. f_equal. apply IH. intros j Hj. apply H. right. exact Hj.
Qed.

Lemma in_firstn {A : Type} (k : nat) (l : list A) (x : A) :
  In x (firstn k l) -> In x l.
Proof.
  intros H. rewrite <- (firstn_skipn k l). apply in_or_app. left. exact H.
Qed.

Lemma in_skipn {A : Type} (k : nat) (l : list A) (x : A) :
  In x (skipn k l) -> In x l.
Proof.
  intros H. rewrite <- (firstn_skipn k l). apply in_or_app. right. exact H.
Qed.

Lemma n_test_bounds (n : nat) :
  (n <= 1 -> n - n_test_of n = 0) /\
  (2 <= n -> 1 <= n_test_of n /\ 1 <= n - n_test_of n).
Proof.
  unfold n_test_of.
  pose proof (Nat.div_mod_eq (n + 9) 10) as Hd.
  pose proof (Nat.mod_upper_bound (n + 9) 10 ltac:(lia)) as Hm.
  split; intros H; lia.
Qed.

Lemma split_refuses_small {A : Type} (shuffle : list nat) (X : list A) :
  length X <= 1 -> train_test_split shuffle X = Raise ValueError.
Proof.
  intros H. unfold train_test_split.
  rewrite (proj1 (n_test_bounds (length X)) H). reflexivity.
Qed.

(** X10.  The split refuses a matrix of fewer than two rows.  Otherwise,
    when the shuffle is a permutation of the row indices, it returns a
    test set of ceil(n / 10) rows and a training set of the other rows,
    both non-empty, and the two together hold every row of the matrix
    exactly once. *)
Theorem split_keeps_every_row_once {A : Type}
  (shuffle : list nat) (X : list A) :
  (length X <= 1 -> train_test_split shuffle X = Raise ValueError) /\
  (2 <= length X -> Permutation shuffle (seq 0 (length X)) ->
   exists train test,
     train_test_split shuffle X = Ok (train, test) /\
     length test = n_test_of (length X) /\
     length train = length X - n_test_of (length X) /\
     1 <= length train /\ 1 <= length test /\
     Permutation (train ++ test) X).
Proof.
  unfold train_test_split.
  destruct (n_test_bounds (length X)) as [Hsmall Hbig].
  split.
  - intros H. rewrite (Hsmall H). reflexivity.
  - intros H Hperm. destruct (Hbig H) as [Ht Htr].
    destruct (length X - n_test_of (length X) =? 0) eqn:E;
      [apply Nat.eqb_eq in E; lia|].
    assert (Hlen : length shuffle = length X).
    { rewrite (Permutation_length Hperm), length_seq. reflexivity. }
    assert (Hrange : forall i, In i shuffle -> i < length X).
    { intros i Hi. apply (Permutation_in _ Hperm) in Hi.
      apply in_seq in Hi. lia. }
    eexists. eexists. split; [reflexivity|].
    assert (Htest : length (take_rows X (firstn (n_test_of (length X)) shuffle))
                    = n_test_of (length X)).
    { rewrite take_rows_length.
      - rewrite length_firstn. lia.
      - intros i Hi. apply Hrange. exact (in_firstn _ _ _ Hi). }
    assert (Htrain : length (take_rows X (skipn (n_test_of (length X)) shuffle))
                     = length X - n_test_of (length X)).
    { rewrite take_rows_length.
      - rewrite length_skipn. lia.
      - intros i Hi. apply Hrange. exact (in_skipn _ _ _ Hi). }
    repeat split; try lia.
    rewrite <- take_rows_app.
    transitivity (take_rows X shuffle).
    + apply Permutation_flat_map.
      rewrite Permutation_app_comm, firstn_skipn. reflexivity.
    + transitivity (take_rows X (seq 0 (length X))).
      * apply Permutation_flat_map. exact Hperm.
      * pose proof (take_rows_all X []) as Hall. simpl in Hall.
        rewrite Hall. reflexivity.
Qed.

Lemma split_keeps_every_row_once_witness :
  train_test_split [2; 0; 1] [true] = Raise ValueError /\
  exists train test,
    train_test_split [2; 0; 1] [true; false; true] = Ok (train, test) /\
    length test = n_test_of 3 /\
    length train = 3 - n_test_of 3 /\
    1 <= length train /\ 1 <= length test /\
    Permutation (train ++ test) [true; false; true].
Proof.
  split.
  - apply (proj1 (split_keeps_every_row_once [2; 0; 1] [true])).
    simpl. lia.
  - apply (proj2 (split_keeps_every_row_once [2; 0; 1] [true; false; true])).
    + simpl. lia.
    + simpl. apply perm_trans with [0; 2; 1].
      * apply perm_swap.
      * apply perm_skip. apply perm_swap.
Defined.

(** ** The head of the pipeline, by the number of events *)

Lemma fit_transform_rows (X : list (row Z)) :
  X <> [] ->
  exists Y, Scaler.fit_transform X = Ok Y /\ length Y = length X.
Proof.
  intros H. eexists. split.
  - unfold Scaler.fit_transform. destruct X; [contradiction | reflexivity].
  - destruct (zip3_columns
                (Scaler.standardize (map IZR (col0 X)))
                (Scaler.standardize (map IZR (col1 X)))
                (Scaler.standardize (map IZR (col2 X)))) as (Hl & _);
      try (rewrite !standardize_length; unfold col0, col1, col2;
           rewrite !length_map; reflexivity).
    rewrite Hl, standardize_length. unfold col0. rewrite !length_map.
    reflexivity.
Qed.

Lemma column_stack_columns (ts : list Z) (ids fr : list nat) :
  length ts = length ids -> length ids = length fr ->
  exists X,
    column_stack ts ids fr = Ok X /\
    length X = length ts /\
    col0 X = ts /\ col1 X = map Z.of_nat ids /\ col2 X = map Z.of_nat fr.
Proof.
  intros H1 H2. unfold column_stack.
  assert (Hc : (length ts =? length ids) && (length ids =? length fr) = true).
  { rewrite H1, H2, !Nat.eqb_refl. reflexivity. }
  rewrite Hc. eexists. split; [reflexivity|].
  apply (zip3_columns ts (map Z.of_nat ids) (map Z.of_nat fr));
    rewrite !length_map; congruence.
Qed.

(** The stacked matrix of a file on which the loop body does not
    raise. *)
Lemma build_features_value (posix : datetime -> option Z) (lines : list str) :
  existsb (fails posix) (scanned default_max_lines 0 lines) = false ->
  exists X,
    build_features posix lines = Ok X /\
    length X = length (events (scanned default_max_lines 0 lines)) /\
    col0 X = stamps posix (events (scanned default_max_lines 0 lines)) /\
    col1 X = map Z.of_nat
               (row_ids (events (scanned default_max_lines 0 lines))) /\
    col2 X = map Z.of_nat
               (row_frequencies
                  (row_ids (events (scanned default_max_lines 0 lines)))).
Proof.
  intros R. unfold build_features.
  destruct (load_outcome posix lines default_max_lines) as [[R' _]|[_ E]];
    [congruence|].
  rewrite E. unfold columns_of. simpl bind.
  pose proof (stamps_length posix _ R) as Hs.
  destruct (column_stack_columns
              (stamps posix (events (scanned default_max_lines 0 lines)))
              (row_ids (events (scanned default_max_lines 0 lines)))
              (row_frequencies
                 (row_ids (events (scanned default_max_lines 0 lines)))))
    as (X & HX & Hl & Hc); try (unfold row_frequencies, row_ids;
                                 rewrite ?Hs, !length_map; reflexivity).
  exists X. rewrite Hs in Hl. auto.
Qed.

Lemma build_features_raise (posix : datetime -> option Z) (lines : list str) :
  existsb (fails posix) (scanned default_max_lines 0 lines) = true ->
  build_features posix lines = Raise ValueError.
Proof.
  intros R. unfold build_features.
  destruct (load_outcome posix lines default_max_lines) as [[_ E]|[R' _]];
    [|congruence].
  rewrite E. reflexivity.
Qed.

(** X11.  How far the head of the pipeline gets: a scanned line on which
    the parser raises, or that holds an event whose timestamp does not
    convert to seconds in the zone of the machine, stops it in the feature
    building.  Without such a line, it stops in the standardisation when
    there is no event; with exactly one event the split refuses the
    single row; with two events or more the split returns a training and
    a test set. *)
Theorem pipeline_outcome_by_event_count
  (posix : datetime -> option Z) (shuffle : nat -> list nat) (lines : list str) :
  if existsb (fails posix) (scanned default_max_lines 0 lines)
  then run_pipeline posix shuffle lines = ([FeatureBuilding], Raise ValueError)
  else
    match length (events (scanned default_max_lines 0 lines)) with
    | 0 => run_pipeline posix shuffle lines
           = ([FeatureBuilding; Standardization], Raise ValueError)
    | 1 => run_pipeline posix shuffle lines
           = ([FeatureBuilding; Standardization; Splitting], Raise ValueError)
    | S (S _) =>
        exists train test,
          run_pipeline posix shuffle lines
          = ([FeatureBuilding; Standardization; Splitting], Ok (train, test))
    end.
Proof.
  unfold run_pipeline.
  destruct (existsb (fails posix) (scanned default_max_lines 0 lines)) eqn:R.
  { rewrite (build_features_raise posix lines R). reflexivity. }
  destruct (build_features_value posix lines R) as (X & HX & Hlen & _).
  rewrite HX.
  destruct (events (scanned default_max_lines 0 lines)) as [|ev evs] eqn:Ev.
  - destruct X; [reflexivity | discriminate].
  - destruct (fit_transform_rows X) as (Y & HY & HlY).
    { destruct X; discriminate. }
    rewrite HY. rewrite HlY.
    destruct evs as [|ev' evs].
    + simpl length. cbv iota. f_equal.
      apply split_refuses_small. simpl in *. lia.
    + simpl length. cbv iota. unfold train_test_split. rewrite HlY.
      destruct (n_test_bounds (length X)) as [_ Hbig].
      destruct (length X - n_test_of (length X) =? 0) eqn:E0.
      * apply Nat.eqb_eq in E0. simpl in Hlen. lia.
      * eexists. eexists. reflexivity.
Qed.


(** The single event of the first day of the year 1 stops the pipeline in
    the feature building. *)
Example pipeline_first_day :
  run_pipeline timestamp_utc (seq 0) [Samples.first_day]
  = ([FeatureBuilding], Raise ValueError).
Proof. reflexivity. Qed.
(** ** More on the standardisation *)

Section ScalerMore.
Import Scaler.
Local Open Scope R_scope.

Lemma sum_constant (c : R) (xs : list R) :
  (forall x, In x xs -> x = c) -> sum xs = INR (length xs) * c.
Proof.
  induction xs as [|x xs IH]; intros H.
  - simpl. ring.
  - change (sum (x :: xs)) with (x + sum xs).
    change (length (x :: xs)) with (S (length xs)). rewrite S_INR.
    rewrite IH by (intros y Hy; apply H; right; exact Hy).
    rewrite (H x (or_introl eq_refl)). ring.
Qed.

Lemma sum_app (xs ys : list R) : sum (xs ++ ys) = sum xs + sum ys.
Proof.
  induction xs as [|x xs IH]; simpl; [ring|]. rewrite IH. ring.
Qed.

Lemma sum_repeat (c : R) (k : nat) : sum (repeat c k) = INR k * c.
Proof.
  rewrite (sum_constant c); [rewrite repeat_length; reflexivity|].
  intros x Hx. exact (repeat_spec _ _ _ Hx).
Qed.

(** The mean and the variance of [k] equal values and one more value that
    is greater by one. *)
Lemma one_later_moments (a : R) (k : nat) :
  mean (repeat a k ++ [a + 1]) = a + / (INR k + 1) /\
  variance (repeat a k ++ [a + 1])
  = INR k / ((INR k + 1) * (INR k + 1)).
Proof.
  assert (Hk : 0 <= INR k) by apply pos_INR.
  assert (Hlen : INR (length (repeat a k ++ [a + 1])) = INR k + 1).
  { rewrite length_app, repeat_length, Nat.add_1_r, S_INR. reflexivity. }
  assert (Hm : mean (repeat a k ++ [a + 1]) = a + / (INR k + 1)).
  { unfold mean. rewrite Hlen, sum_app, sum_repeat. simpl. field. lra. }
  split; [exact Hm|].
  unfold variance. rewrite Hm. unfold mean.
  rewrite length_map, Hlen, map_app, sum_app, map_repeat, sum_repeat.
  simpl. field. lra.
Qed.

End ScalerMore.

(** X12.  A column whose entries are all equal is sent to a column of
    zeros: the scale of a constant column is taken as 1, so nothing is
    divided by zero. *)
Theorem constant_column_becomes_zero (xs : list R) (c : R) :
  xs <> [] ->
  (forall x, In x xs -> x = c) ->
  Scaler.scale_of xs = 1%R /\
  Scaler.standardize xs = map (fun _ => 0%R) xs.
Proof.
  intros Hne Hc.
  pose proof (size_positive xs Hne) as Hn.
  assert (Hm : Scaler.mean xs = c).
  { unfold Scaler.mean. rewrite (sum_constant c xs Hc). field. lra. }
  assert (Hv : Scaler.variance xs = 0%R).
  { unfold Scaler.variance. rewrite Hm. unfold Scaler.mean.
    rewrite (sum_constant 0%R).
    - rewrite length_map. field. lra.
    - intros y Hy. apply in_map_iff in Hy as (x & <- & Hx).
      rewrite (Hc x Hx). ring. }
  assert (Hs : Scaler.scale_of xs = 1%R).
  { unfold Scaler.scale_of.
    pose proof (constant_bound_nonneg xs Hne) as Hb. rewrite Hv in *.
    destruct (Rle_dec 0 (Scaler.constant_bound xs));
      [reflexivity | contradiction]. }
  split; [exact Hs|].
  unfold Scaler.standardize. rewrite Hs, Hm.
  apply map_ext_in. intros x Hx. rewrite (Hc x Hx). field.
Qed.

Lemma constant_column_becomes_zero_witness :
  Scaler.scale_of [1%R; 1%R] = 1%R /\
  Scaler.standardize [1%R; 1%R] = map (fun _ => 0%R) [1%R; 1%R].
Proof.
  apply (constant_column_becomes_zero [1%R; 1%R] 1%R).
  - discriminate.
  - intros x [<-|[<-|[]]]; reflexivity.
Defined.

(** A column of 25000 timestamps, all equal but the last, which is one
    second later, is taken for a constant column: it is only centred, and
    the variance of the result is 4e-5, not 1. *)
Example near_constant_timestamps :
  let xs := (repeat 1700000000 (Z.to_nat 24999) ++ [1700000000 + 1])%R in
  Scaler.scale_of xs = 1%R /\
  Scaler.variance (Scaler.standardize xs) = (24999 / 625000000)%R.
Proof.
  intros xs.
  assert (Hne : xs <> []).
  { unfold xs. intros H. apply app_eq_nil in H. destruct H as [_ H].
    discriminate. }
  destruct (one_later_moments 1700000000 (Z.to_nat 24999)) as [Hm Hv].
  fold xs in Hm, Hv.
  assert (Hk : INR (Z.to_nat 24999) = 24999%R).
  { rewrite INR_IZR_INZ, Z2Nat.id by lia. reflexivity. }
  assert (Hn : INR (length xs) = 25000%R).
  { unfold xs. rewrite length_app, repeat_length, Nat.add_1_r, S_INR, Hk.
    lra. }
  rewrite Hk in Hm, Hv.
  assert (Hflag : (Scaler.variance xs <= Scaler.constant_bound xs)%R).
  { unfold Scaler.constant_bound. rewrite Hv, Hm, Hn. unfold Scaler.eps.
    lra. }
  assert (Hs : Scaler.scale_of xs = 1%R).
  { unfold Scaler.scale_of.
    destruct (Rle_dec (Scaler.variance xs) (Scaler.constant_bound xs));
      [reflexivity | contradiction]. }
  split; [exact Hs|].
  rewrite (variance_standardize xs Hne).
  destruct (Rle_dec (Scaler.variance xs) (Scaler.constant_bound xs));
    [|contradiction].
  rewrite Hv. lra.
Qed.
(** ** More on the scores and the threshold *)

(** X14.  The reconstruction error of a row is never negative, and it is
    zero exactly when the reconstruction equals the row. *)
Theorem reconstruction_error_nonnegative (x0 x1 x2 y0 y1 y2 : Q) :
  (0 <= reconstruction_error (x0, x1, x2) (y0, y1, y2))%Q /\
  (reconstruction_error (x0, x1, x2) (y0, y1, y2) == 0
   <-> x0 == y0 /\ x1 == y1 /\ x2 == y2)%Q.
Proof.
  unfold reconstruction_error.
  set (a := (x0 - y0)%Q). set (b := (x1 - y1)%Q). set (c := (x2 - y2)%Q).
  assert (Ha : (0 <= a * a)%Q) by nra.
  assert (Hb : (0 <= b * b)%Q) by nra.
  assert (Hc : (0 <= c * c)%Q) by nra.
  assert (Hdiv : ((a * a + b * b + c * c) / 3
                  == (a * a + b * b + c * c) * (1 # 3))%Q) by reflexivity.
  rewrite Hdiv. split; [nra|]. split.
  - intros H.
    assert (Ha0 : (a * a == 0)%Q) by nra.
    assert (Hb0 : (b * b == 0)%Q) by nra.
    assert (Hc0 : (c * c == 0)%Q) by nra.
    assert (Hz : forall z : Q, (z * z == 0 -> z == 0)%Q).
    { intros z Hz. destruct (Qmult_integral _ _ Hz); assumption. }
    apply Hz in Ha0, Hb0, Hc0. unfold a, b, c in *. repeat split; lra.
  - intros (H0 & H1 & H2).
    assert (a == 0)%Q by (unfold a; lra).
    assert (b == 0)%Q by (unfold b; lra).
    assert (c == 0)%Q by (unfold c; lra).
    nra.
Qed.

(** X15.  The threshold lies between the smallest and the greatest
    training error.  So an error above every training error is labelled
    1, and an error not above the smallest training error is labelled
    0. *)
Theorem threshold_between_extremes
  (ar : Scorer.arithmetic) (train_errors : list Q)
  (threshold low high : Q) :
  Scorer.well_rounded ar train_errors ->
  Scorer.percentile ar train_errors 95 = Some threshold ->
  (forall e, In e train_errors -> (low <= e /\ e <= high)%Q) ->
  (low <= threshold /\ threshold <= high)%Q /\
  (forall e, (high < e)%Q -> Scorer.label threshold e = 1) /\
  (forall e, (e <= low)%Q -> Scorer.label threshold e = 0).
Proof.
  intros W H Hbounds.
  assert (Hne : train_errors <> []) by (intros ->; discriminate).
  destruct (index_bounds ar _ Hne W) as [_ Hlo].
  destruct (percentile_between ar _ _ W H) as [Hlow Hhigh].
  set (lo := Z.to_nat (Qfloor (Scorer.virtual_index ar
                                 (length train_errors) 95))) in *.
  assert (Ha : (low <= nth lo (Scorer.sort train_errors) 0)%Q).
  { apply Hbounds. apply sort_in. exact Hlo. }
  assert (Hb : (nth (Nat.min (lo + 1) (length train_errors - 1))
                  (Scorer.sort train_errors) 0 <= high)%Q).
  { apply Hbounds. apply sort_in. lia. }
  assert (Hthr : (low <= threshold /\ threshold <= high)%Q).
  { split; lra. }
  split; [exact Hthr|]. unfold Scorer.label. split; intros e He.
  - destruct (Qle_bool e threshold) eqn:E; [|reflexivity].
    apply Qle_bool_iff in E. lra.
  - destruct (Qle_bool e threshold) eqn:E; [reflexivity|].
    assert (Hle : (e <= threshold)%Q) by lra.
    apply Qle_bool_iff in Hle. congruence.
Qed.

Lemma threshold_between_extremes_witness :
  (0 <= 6333186975989759 # 70368744177664
   /\ 6333186975989759 # 70368744177664 <= 100)%Q /\
  (forall e, (100 < e)%Q
             -> Scorer.label (6333186975989759 # 70368744177664) e = 1) /\
  (forall e, (e <= 0)%Q
             -> Scorer.label (6333186975989759 # 70368744177664) e = 0).
Proof.
  apply (threshold_between_extremes Scorer.float64 [0; 0; 100]%Q).
  - apply float64_well_rounded.
    intros e [<-|[<-|[<-|[]]]]; reflexivity.
  - reflexivity.
  - intros e [<-|[<-|[<-|[]]]]; split; vm_compute; discriminate.
Defined.

(** ** The learning-rate schedule *)

Lemma div_mod_succ (k s : nat) :
  0 < s ->
  (S k) / s = k / s + (if (S k) mod s =? 0 then 1 else 0).
Proof.
  intros Hs.
  pose proof (Nat.div_mod_eq k s) as Hk.
  pose proof (Nat.mod_upper_bound k s ltac:(lia)) as Hr.
  pose proof (Nat.div_mod_eq (S k) s) as Hk'.
  pose proof (Nat.mod_upper_bound (S k) s ltac:(lia)) as Hr'.
  destruct (S k mod s =? 0) eqn:E.
  - apply Nat.eqb_eq in E. nia.
  - apply Nat.eqb_neq in E. nia.
Qed.

Lemma scheduler_counts (step_size : nat) (gamma base : Q) (k : nat) :
  last_epoch (Nat.iter k (scheduler_step step_size gamma)
                {| lr := base; last_epoch := 0 |}) = k.
Proof. induction k as [|k IH]; simpl; [reflexivity | rewrite IH; reflexivity]. Qed.

(** X16.  With a scheduler step at the end of every pass, the rate in
    force during pass [k] (counted from 0) is the base rate times [gamma]
    to the power [k / step_size], the quotient rounded down: with step
    size 5 and factor 1/2 the rate halves after every fifth pass. *)
Theorem step_lr_closed_form (step_size : nat) (gamma base : Q) (k : nat) :
  0 < step_size ->
  (lr_during step_size gamma base k
   == base * gamma ^ Z.of_nat (k / step_size))%Q.
Proof.
  intros Hs. unfold lr_during. induction k as [|k IH].
  - rewrite Nat.Div0.div_0_l. simpl. ring.
  - simpl Nat.iter. unfold scheduler_step at 1. simpl lr.
    rewrite scheduler_counts, (div_mod_succ k step_size Hs).
    destruct (S k mod step_size =? 0).
    + rewrite IH, Nat2Z.inj_add, Qpower_plus' by lia.
      change (gamma ^ Z.of_nat 1)%Q with gamma. ring.
    + rewrite IH, Nat.add_0_r. reflexivity.
Qed.

Lemma step_lr_closed_form_witness :
  (classifier_lr 7 == (1 # 1000) * (1 # 2) ^ Z.of_nat (7 / 5))%Q.
Proof.
  apply (step_lr_closed_form 5 (1 # 2) (1 # 1000) 7). lia.
Defined.

(** ** The threshold does not depend on the order of the rows *)

Section OrderStatistics.
Import Scorer.
Local Open Scope Q_scope.

Lemma count_below_cons (t x : Q) (l : list Q) :
  count_below t (x :: l)
  = ((if Qle_bool t x then 0 else 1) + count_below t l)%nat.
Proof.
  unfold count_below. simpl. destruct (Qle_bool t x); reflexivity.
Qed.

Lemma count_below_insert (t x : Q) (l : list Q) :
  count_below t (insert x l) = count_below t (x :: l).
Proof.
  induction l as [|y l IH]; simpl; [reflexivity|].
  destruct (Qle_bool x y); [reflexivity|].
  rewrite (count_below_cons t y), IH, !count_below_cons. lia.
Qed.

Lemma count_below_sort (t : Q) (l : list Q) :
  count_below t (sort l) = count_below t l.
Proof.
  induction l as [|x l IH]; simpl; [reflexivity|].
  rewrite count_below_insert, !count_below_cons, IH. reflexivity.
Qed.

Lemma count_above_perm (t : Q) (a b : list Q) :
  Permutation a b -> count_above t a = count_above t b.
Proof.
  induction 1; rewrite ?count_above_cons; try lia; reflexivity.
Qed.

Lemma count_below_perm (t : Q) (a b : list Q) :
  Permutation a b -> count_below t a = count_below t b.
Proof.
  induction 1; rewrite ?count_below_cons; try lia; reflexivity.
Qed.

Lemma count_below_none (t : Q) (l : list Q) :
  Forall (Qle t) l -> count_below t l = 0%nat.
Proof.
  induction 1 as [|x l Hx Hl IH]; [reflexivity|].
  rewrite count_below_cons, IH.
  apply Qle_bool_iff in Hx. rewrite Hx. reflexivity.
Qed.

Lemma count_below_le_length (t : Q) (l : list Q) :
  (count_below t l <= length l)%nat.
Proof.
  induction l as [|x l IH]; [apply Nat.le_refl|].
  rewrite count_below_cons. simpl. destruct (Qle_bool t x); lia.
Qed.

(** In a sorted sample only entries before offset [k] are below a lower
    bound of the [k]-th order statistic. *)
Lemma count_below_sorted (s : list Q) :
  StronglySorted Qle s ->
  forall k t, (k < length s)%nat -> t <= nth k s 0 ->
              (count_below t s <= k)%nat.
Proof.
  induction 1 as [|x s Hs IH Hall]; intros k t Hk Ht; [simpl in Hk; lia|].
  destruct k as [|k].
  - simpl in Ht. rewrite count_below_none; [lia|].
    constructor; [exact Ht|].
    eapply Forall_impl; [|exact Hall].
    intros z Hz. eapply Qle_trans; eassumption.
  - rewrite count_below_cons. simpl in Ht, Hk.
    specialize (IH k t ltac:(lia) Ht).
    destruct (Qle_bool t x); lia.
Qed.

Lemma count_cover (v w : Q) (l : list Q) :
  v < w -> (length l <= count_above v l + count_below w l)%nat.
Proof.
  intros Hvw. induction l as [|x l IH]; [apply Nat.le_refl|].
  rewrite count_above_cons, count_below_cons. simpl.
  destruct (Qle_bool x v) eqn:E1; destruct (Qle_bool w x) eqn:E2; try lia.
  apply Qle_bool_iff in E1, E2. exfalso. lra.
Qed.

(** The order statistics of two orderings of one sample agree. *)
Lemma order_statistics_agree (a b : list Q) (k : nat) :
  Permutation a b -> nth k (sort a) 0 == nth k (sort b) 0.
Proof.
  intros Hp.
  assert (Hlen : length a = length b) by exact (Permutation_length Hp).
  destruct (Nat.lt_ge_cases k (length a)) as [Hk|Hk].
  2:{ rewrite !nth_overflow; [reflexivity | |];
        rewrite sort_length; lia. }
  assert (Hside : forall c d, Permutation c d -> (k < length c)%nat ->
                    ~ nth k (sort c) 0 < nth k (sort d) 0).
  { intros c d Hcd Hkc Hlt.
    pose proof (Permutation_length Hcd) as Hl.
    set (v := nth k (sort c) 0) in *. set (w := nth k (sort d) 0) in *.
    pose proof (count_above_sorted (sort c) (sort_sorted c) k v
                  ltac:(rewrite sort_length; lia) (Qle_refl _)) as H1.
    pose proof (count_below_sorted (sort d) (sort_sorted d) k w
                  ltac:(rewrite sort_length; lia) (Qle_refl _)) as H2.
    rewrite count_above_sort, sort_length in H1.
    rewrite count_below_sort in H2.
    rewrite (count_above_perm v c d Hcd) in H1.
    pose proof (count_cover v w d Hlt). lia. }
  destruct (Q_dec (nth k (sort a) 0) (nth k (sort b) 0)) as [[Hlt|Hgt]|Heq];
    [| |exact Heq]; exfalso.
  - exact (Hside a b Hp Hk Hlt).
  - apply (Hside b a (Permutation_sym Hp)); [lia | exact Hgt].
Qed.

Lemma label_respects_eq (t t' e : Q) :
  t == t' -> label t e = label t' e.
Proof.
  intros H. unfold label.
  destruct (Qle_bool e t) eqn:E; destruct (Qle_bool e t') eqn:E';
    try reflexivity; exfalso.
  - apply Qle_bool_iff in E. rewrite H in E.
    apply Qle_bool_iff in E. congruence.
  - apply Qle_bool_iff in E'. rewrite <- H in E'.
    apply Qle_bool_iff in E'. congruence.
Qed.

End OrderStatistics.

(** X17.  The threshold depends on the training errors as a collection,
    not on the order of the rows: with an interpolation that gives equal
    results on equal numbers, two orderings of the same errors give equal
    thresholds and hence the same labels, whatever the shuffle of the
    split was. *)
Theorem threshold_ignores_row_order
  (ar : Scorer.arithmetic) (a b errors : list Q) (q : Q) :
  (forall x y x' y' g, (x == x')%Q -> (y == y')%Q ->
     (Scorer.interpolate ar x y g == Scorer.interpolate ar x' y' g)%Q) ->
  Permutation a b -> a <> [] ->
  exists ta tb,
    Scorer.percentile ar a q = Some ta /\
    Scorer.percentile ar b q = Some tb /\
    (ta == tb)%Q /\
    Scorer.labels ta errors = Scorer.labels tb errors.
Proof.
  intros Heq Hp Ha.
  assert (Hb : b <> []).
  { intros ->. apply Permutation_sym, Permutation_nil in Hp. contradiction. }
  rewrite (percentile_nonempty ar a q Ha), (percentile_nonempty ar b q Hb).
  rewrite <- (Permutation_length Hp). cbv zeta.
  eexists. eexists. split; [reflexivity|]. split; [reflexivity|].
  match goal with |- (?x == ?y)%Q /\ _ => assert (Hxy : (x == y)%Q) end.
  { apply Heq; apply order_statistics_agree; exact Hp. }
  split; [exact Hxy|].
  unfold Scorer.labels. apply map_ext. intros e.
  apply label_respects_eq. exact Hxy.
Qed.

Lemma threshold_ignores_row_order_witness :
  exists ta tb,
    Scorer.percentile Scorer.float64 [1 # 2; 3; 2]%Q 95 = Some ta /\
    Scorer.percentile Scorer.float64 [3; 1 # 2; 2]%Q 95 = Some tb /\
    (ta == tb)%Q /\
    Scorer.labels ta [1; 3]%Q = Scorer.labels tb [1; 3]%Q.
Proof.
  apply (threshold_ignores_row_order Scorer.float64
           [1 # 2; 3; 2]%Q [3; 1 # 2; 2]%Q).
  - apply float64_interpolate_equal.
  - apply perm_trans with [3; 1 # 2; 2]%Q; [apply perm_swap | reflexivity].
  - discriminate.
Defined.
